(** * planease-lambda: the conditions processor, embedded and verified

    A shallow embedding of the two format adapters of the conditions
    processor, [parsers/bcc_parse.py] (HTML result pages) and
    [parsers/logan_parse.py] (PDF line streams), together with the
    properties their specification states about them.

    Conventions of the embedding.
    - A Python [str] is a [text], a list of characters; a character stands
      for a code point below 256, and the character classes of [re] and of
      [str] ([\s], [\d], [\w], [str.lower]) are the Unicode ones restricted
      to that range.
    - A regular expression is a backtracking matcher written with the
      combinators of [Module Re]: a matcher yields its successes in the
      order in which Python's engine tries them, so the first success is
      the match Python reports.
    - The dictionaries that make up the condition tree are mutated through
      aliases ([condition_index], [cond_index]).  The tree is kept as a
      value, and an alias is the path of the node inside the tree: the
      source only ever appends to the lists of the tree, so a path keeps
      naming the same node.
    - What BeautifulSoup and PyMuPDF return is input of the embedding: the
      bold runs, rows and cells that the HTML walk reads, and the lines
      that the PDF walk reads. *)

From Stdlib Require Import Strings.Ascii.
From Stdlib Require Strings.String.
From stdpp Require Import gmap strings list.

#[local] Set Warnings "-register-all".

Abbreviation text := (list ascii).

(** A string literal of the source, as a [text]. *)
Definition txt (s : string) : text := String.list_ascii_of_string s.

(* ================================================================== *)
(** * Characters and the text helpers of both parsers                   *)
(* ================================================================== *)

Module Chars.

Definition code (c : ascii) : nat := nat_of_ascii c.

Definition between (lo hi : nat) (c : ascii) : bool :=
  (lo <=? code c) && (code c <=? hi).

(** [\s] of [re] on [str], and the characters [str.strip] removes. *)
Definition is_space (c : ascii) : bool :=
  between 9 13 c || between 28 32 c
  || (code c =? 133) || (code c =? 160).

(** [\d]: the decimal digits. *)
Definition is_digit (c : ascii) : bool := between 48 57 c.

(** [[A-Z]] without [re.I]. *)
Definition is_upper (c : ascii) : bool := between 65 90 c.

Definition is_lower (c : ascii) : bool := between 97 122 c.

(** [\w]: alphanumeric characters and the underscore. *)
Definition is_word (c : ascii) : bool :=
  is_digit c || is_upper c || is_lower c || (code c =? 95)
  || (code c =? 170) || (code c =? 178) || (code c =? 179)
  || (code c =? 181) || (code c =? 185) || (code c =? 186)
  || between 188 190 c || between 192 214 c || between 216 246 c
  || between 248 255 c.

(** [str.lower] on one character. *)
Definition lower (c : ascii) : ascii :=
  if is_upper c || between 192 214 c || between 216 222 c
  then ascii_of_nat (code c + 32) else c.

(** Equality of two characters under [re.I]. *)
Definition eq_nocase (a b : ascii) : bool :=
  bool_decide (lower a = lower b).

Definition newline : ascii := ascii_of_nat 10.

End Chars.

Import Chars.

(** [str.lower()]. *)
Definition lower_text (s : text) : text := map lower s.

(** [str.strip()]: whitespace removed at both ends. *)
Fixpoint lstrip (s : text) : text :=
  match s with
  | c :: s' => if is_space c then lstrip s' else s
  | [] => []
  end.

Definition rstrip (s : text) : text := reverse (lstrip (reverse s)).

Definition strip (s : text) : text := rstrip (lstrip s).

(** [re.sub(r"\s+", " ", s)]: every maximal run of whitespace becomes one
    space; [in_run] tells that the previous character was whitespace. *)
Fixpoint sub_ws (in_run : bool) (s : text) : text :=
  match s with
  | [] => []
  | c :: s' =>
      if is_space c
      then (if in_run then sub_ws true s' else " "%char :: sub_ws true s')
      else c :: sub_ws false s'
  end.

(** [_clean(text)], the same function in both parsers. *)
Definition _clean (s : text) : text := sub_ws false (strip s).

(** [_safe_join(a, b)] of [logan_parse.py]. *)
Definition _safe_join (a b : text) : text :=
  let a := _clean a in
  let b := _clean b in
  if bool_decide (a = []) then b
  else if bool_decide (b = []) then a
  else _clean (a ++ txt " " ++ b).

(** [sep in s]. *)
Definition contains_char (sep : ascii) (s : text) : bool :=
  bool_decide (sep ∈ s).

(** [s.split(sep)] for a one-character separator. *)
Fixpoint split_on (sep : ascii) (s : text) : list text :=
  match s with
  | [] => [[]]
  | c :: s' =>
      if bool_decide (c = sep) then [] :: split_on sep s'
      else match split_on sep s' with
           | h :: t => (c :: h) :: t
           | [] => [[c]]
           end
  end.

(** [s.split(sep, 1)]: the text before the first separator and the text
    after it, or [None] when [s] has no separator. *)
Fixpoint split_once (sep : ascii) (s : text) : option (text * text) :=
  match s with
  | [] => None
  | c :: s' =>
      if bool_decide (c = sep) then Some ([], s')
      else match split_once sep s' with
           | Some (l, r) => Some (c :: l, r)
           | None => None
           end
  end.

(** [sep.join(parts)]. *)
Fixpoint join (sep : ascii) (parts : list text) : text :=
  match parts with
  | [] => []
  | [p] => p
  | p :: ps => p ++ sep :: join sep ps
  end.

(** [s.startswith(p)] and [s.endswith(p)]. *)
Fixpoint startswith (p s : text) : bool :=
  match p, s with
  | [], _ => true
  | a :: p', b :: s' => bool_decide (a = b) && startswith p' s'
  | _ :: _, [] => false
  end.

Definition endswith (p s : text) : bool := startswith (reverse p) (reverse s).

(* ================================================================== *)
(** * Regular expressions as backtracking matchers                      *)
(* ================================================================== *)

Module Re.

(** Where the engine stands: the character just before the position
    (needed by [\b] and [^]) and the text still to read. *)
Record cursor := Cursor { before : option ascii; rest : text }.

(** A matcher lists its successes, most preferred first. *)
Definition matcher (A : Type) : Type := cursor → list (A * cursor).

Definition ret {A} (a : A) : matcher A := λ c, [(a, c)].

Definition bind {A B} (m : matcher A) (k : A → matcher B) : matcher B :=
  λ c, m c ≫= (λ r, k r.1 r.2).

(** [m1|m2]: every way of [m1] is tried before [m2]. *)
Definition alt {A} (m1 m2 : matcher A) : matcher A := λ c, m1 c ++ m2 c.

(** [m?], greedy. *)
Definition opt {A} (m : matcher A) : matcher (option A) :=
  alt (bind m (λ a, ret (Some a))) (ret None).

(** One character of a class. *)
Definition sat (p : ascii → bool) : matcher ascii :=
  λ c, match rest c with
       | x :: r => if p x then [(x, Cursor (Some x) r)] else []
       | [] => []
       end.

(** A literal character. *)
Definition chr (a : ascii) : matcher ascii := sat (λ x, bool_decide (x = a)).

(** A literal, compared exactly or under [re.I]; the matched text is
    returned. *)
Fixpoint lit_with (eqc : ascii → ascii → bool) (s : text) : matcher text :=
  match s with
  | [] => ret []
  | a :: s' =>
      bind (sat (eqc a)) (λ x, bind (lit_with eqc s') (λ t, ret (x :: t)))
  end.

Definition lit : text → matcher text :=
  lit_with (λ a x, bool_decide (x = a)).

Definition lit_nocase : text → matcher text := lit_with eq_nocase.

(** [p*] for a character class, greedy: the longest run first, then
    each shorter one down to the empty run. *)
Fixpoint star_run (p : ascii → bool) (b : option ascii) (s : text)
  : list (text * cursor) :=
  match s with
  | x :: s' =>
      if p x
      then map (λ r, (x :: r.1, r.2)) (star_run p (Some x) s')
           ++ [([], Cursor b s)]
      else [([], Cursor b s)]
  | [] => [([], Cursor b [])]
  end.

Definition star (p : ascii → bool) : matcher text :=
  λ c, star_run p (before c) (rest c).

(** [p+] for a character class, greedy. *)
Definition plus (p : ascii → bool) : matcher text :=
  bind (sat p) (λ x, bind (star p) (λ t, ret (x :: t))).

(** [p*?] for a character class, lazy: the empty run first. *)
Fixpoint lazy_run (p : ascii → bool) (b : option ascii) (s : text)
  : list (text * cursor) :=
  ([], Cursor b s) ::
  match s with
  | x :: s' =>
      if p x then map (λ r, (x :: r.1, r.2)) (lazy_run p (Some x) s')
      else []
  | [] => []
  end.

Definition lazy_star (p : ascii → bool) : matcher text :=
  λ c, lazy_run p (before c) (rest c).

(** [(?:m)*] for a matcher [m] that consumes at least one character
    each time, greedy; [fuel] bounds the number of repetitions. *)
Fixpoint star_of_fuel (fuel : nat) (m : matcher text) : matcher text :=
  match fuel with
  | 0 => ret []
  | S n =>
      alt (bind m (λ a, bind (star_of_fuel n m) (λ t, ret (a ++ t))))
          (ret [])
  end.

(** [(?:m)+]: the text left bounds the number of repetitions. *)
Definition plus_of (m : matcher text) : matcher text :=
  λ c, bind m (λ a, bind (star_of_fuel (length (rest c)) m)
                      (λ t, ret (a ++ t))) c.

Definition is_word_at (o : option ascii) : bool :=
  match o with Some x => is_word x | None => false end.

(** [\b]: exactly one of the two neighbours is a word character. *)
Definition wordb : matcher unit :=
  λ c, if xorb (is_word_at (before c)) (is_word_at (head (rest c)))
       then [((), c)] else [].

(** [$] without [re.M]: the end of the text, or just before a newline
    that ends it. *)
Definition eol : matcher unit :=
  λ c, match rest c with
       | [] => [((), c)]
       | [x] => if bool_decide (x = newline) then [((), c)] else []
       | _ => []
       end.

(** [^] without [re.M]. *)
Definition bol : matcher unit :=
  λ c, match before c with None => [((), c)] | Some _ => [] end.

(** [.] without [re.S], and with it. *)
Definition not_newline (x : ascii) : bool := negb (bool_decide (x = newline)).
Definition any_char (x : ascii) : bool := true.

(** [pattern.match(s)]: the most preferred success from the start. *)
Definition match_ {A} (m : matcher A) (s : text) : option A :=
  fst <$> head (m (Cursor None s)).

(** [pattern.search(s)]: the first start position with a success; the
    position is [m.start()]. *)
Fixpoint search_from {A} (m : matcher A) (b : option ascii) (pos : nat)
    (s : text) : option (nat * A) :=
  match head (m (Cursor b s)) with
  | Some r => Some (pos, r.1)
  | None =>
      match s with
      | [] => None
      | x :: s' => search_from m (Some x) (S pos) s'
      end
  end.

Definition search {A} (m : matcher A) (s : text) : option (nat * A) :=
  search_from m None 0 s.

End Re.

(* ================================================================== *)
(** * The common output schema                                          *)
(* ================================================================== *)

(** The [material] dictionary of a condition:
    [{"required": True, "description": ..., "timing": ...}]. *)
Module Material.
Record t := Make { required : bool; description : text; timing : text }.
End Material.

(** A condition dictionary.  [parentNumber] is a key that only some
    dictionaries carry, hence the option. *)
Inductive condition := Condition {
  number : text;
  title : text;
  description : text;
  timing : text;
  timingSource : text;
  timingColumn : text;
  timingInline : text;
  material : option Material.t;
  children : list condition;
  parentNumber : option text
}.

(** A section dictionary, [{"title": ..., "conditions": [...]}]. *)
Module Sec.
Record t := Make { title : text; conditions : list condition }.
Definition set_conditions (cs : list condition) (s : t) : t :=
  Make (title s) cs.
End Sec.

(** A document dictionary of the plans table. *)
Module Doc.
Record t := Make {
  title : text; number : text; planDate : text;
  revision : text; preparedBy : text
}.
End Doc.

(** The [summary] dictionary. *)
Module Summary.
Record t := Make { numberOfConditions : nat; numberOfPlans : nat }.
End Summary.

(** What an adapter returns: the keys of the result that both adapters
    produce and that the properties below read.  ([projectTeam],
    [permitInfo] and [headingElements] are computed independently of
    these and are left out.) *)
Module Parsed.
Record t := Make {
  council : text;
  summary : Summary.t;
  applicationDetails : gmap string text;
  documents : list Doc.t;
  sections : list Sec.t
}.
End Parsed.

(** ** Updates of a condition dictionary *)

Definition set_children (ch : list condition) (c : condition) : condition :=
  Condition (number c) (title c) (description c) (timing c) (timingSource c)
            (timingColumn c) (timingInline c) (material c) ch (parentNumber c).

Definition set_description (d : text) (c : condition) : condition :=
  Condition (number c) (title c) d (timing c) (timingSource c)
            (timingColumn c) (timingInline c) (material c) (children c)
            (parentNumber c).

Definition set_parentNumber (p : text) (c : condition) : condition :=
  Condition (number c) (title c) (description c) (timing c) (timingSource c)
            (timingColumn c) (timingInline c) (material c) (children c)
            (Some p).

(** [parent["children"].append(c)]. *)
Definition append_child (c parent : condition) : condition :=
  set_children (children parent ++ [c]) parent.

(** ** Aliases into the tree

    A reference names a condition dictionary that already sits in the
    tree: the section it was put in, its position among the top-level
    conditions of that section, and from there the positions through the
    [children] lists. *)
Record ref := Ref { ref_section : nat; ref_top : nat; ref_path : list nat }.

(** The dictionary at the end of a path below [c], updated in place. *)
Fixpoint alter_at (f : condition → condition) (p : list nat) (c : condition)
  : condition :=
  match p with
  | [] => f c
  | j :: p' => set_children (alter (alter_at f p') j (children c)) c
  end.

Fixpoint node_at (p : list nat) (c : condition) : option condition :=
  match p with
  | [] => Some c
  | j :: p' => children c !! j ≫= node_at p'
  end.

(** The same inside a list of top-level conditions and inside a list of
    sections. *)
Definition alter_top (f : condition → condition) (j : nat) (p : list nat)
    (cs : list condition) : list condition :=
  alter (alter_at f p) j cs.

Definition alter_ref (f : condition → condition) (r : ref)
    (secs : list Sec.t) : list Sec.t :=
  alter (λ s, Sec.set_conditions
                (alter_top f (ref_top r) (ref_path r) (Sec.conditions s)) s)
        (ref_section r) secs.

Definition node_top (j : nat) (p : list nat) (cs : list condition)
  : option condition :=
  cs !! j ≫= node_at p.

Definition node_ref (r : ref) (secs : list Sec.t) : option condition :=
  secs !! ref_section r ≫= λ s, node_top (ref_top r) (ref_path r) (Sec.conditions s).

(** ** Traversals of the tree *)

(** Every node below and including [c], parents before children. *)
Fixpoint all_nodes (c : condition) : list condition :=
  c :: flat_map all_nodes (children c).

(** Every node of the tree under [conditions.sections]. *)
Definition tree_nodes (secs : list Sec.t) : list condition :=
  flat_map (λ s, flat_map all_nodes (Sec.conditions s)) secs.

(** The top-level conditions of all sections. *)
Definition top_level (secs : list Sec.t) : list condition :=
  flat_map Sec.conditions secs.

(** Matchers are written with the monad notation, in the order of the
    pattern. *)
#[global] Instance matcher_bind : MBind Re.matcher := λ A B k m, Re.bind m k.
#[global] Instance matcher_ret : MRet Re.matcher := @Re.ret.

(** What the code reads of a match object. *)
Record match_obj := MatchObj { lastindex : option nat; group1 : option text }.

(* ================================================================== *)
(** * [parsers/logan_parse.py]                                          *)
(* ================================================================== *)

Module Logan.
Import Re.

(** [_next_meaningful(lines, start)]. *)
Fixpoint first_meaningful (ls : list text) : text :=
  match ls with
  | [] => []
  | raw :: ls' =>
      let t := _clean raw in
      if bool_decide (t = []) then first_meaningful ls' else t
  end.

Definition _next_meaningful (lines : list text) (start : nat) : text :=
  first_meaningful (drop start lines).

(** The loop of [_find_value_after_label]: [i] is the index of the head
    of [window] in [lines]. *)
Fixpoint find_value_loop (lines : list text)
    (label_re : text → option match_obj) (i : nat) (window : list text)
  : text :=
  match window with
  | [] => []
  | raw :: window' =>
      let line := _clean raw in
      if bool_decide (line = []) then
        find_value_loop lines label_re (S i) window'
      else
        match label_re line with
        | None => find_value_loop lines label_re (S i) window'
        | Some m =>
            let val :=
              match lastindex m with
              | Some n => if 1 <=? n then _clean (default [] (group1 m)) else []
              | None => []
              end in
            if negb (bool_decide (val = [])) then val
            else
              let after :=
                match split_once ":"%char line with
                | Some (_, a) => _clean a
                | None => []
                end in
              if negb (bool_decide (after = [])) then after
              else _clean (_next_meaningful lines (S i))
        end
  end.

(** [_find_value_after_label(lines, label_re, scan_limit)]. *)
Definition _find_value_after_label (lines : list text)
    (label_re : text → option match_obj) (scan_limit : nat) : text :=
  find_value_loop lines label_re 0 (take scan_limit lines).

(** [SECTION_LINE_RE = ^(\d+)\.\s+([A-Z][A-Z\s&/\-]+)\s*$] *)
Definition section_title_char (c : ascii) : bool :=
  is_upper c || is_space c
  || bool_decide (c = "&"%char) || bool_decide (c = "/"%char)
  || bool_decide (c = "-"%char).

Definition SECTION_LINE_RE : matcher (text * text) :=
  g1 ← plus is_digit; chr ".";; plus is_space;;
  h ← sat is_upper; t ← plus section_title_char;
  star is_space;; eol;; mret (g1, h :: t).

(** The number of a condition, [\d+(?:\.\d+)+]; [dot_digits] is the
    repeated group [\.\d+]. *)
Definition dot_digits : matcher text :=
  a ← chr "."; ds ← plus is_digit; mret (a :: ds).

Definition dotted_number : matcher text :=
  d ← plus is_digit; gs ← plus_of dot_digits; mret (d ++ gs).

(** [COND_INLINE_RE]: the pattern [^(\d+(?:\.\d+)+)\.\s+] followed by a
    second group that takes the rest of the line up to [$]. *)
Definition COND_INLINE_RE : matcher (text * text) :=
  num ← dotted_number; chr ".";; plus is_space;;
  body ← star not_newline; eol;; mret (num, body).

(** [COND_NUM_ONLY_RE = ^(\d+(?:\.\d+)+)\.\s*$] *)
Definition COND_NUM_ONLY_RE : matcher text :=
  num ← dotted_number; chr ".";; star is_space;; eol;; mret num.

(** [NOTE_START_RE], with [re.I]. *)
Definition NOTE_START_RE : matcher text :=
  g ← alt (lit_nocase (txt "This condition is imposed under"))
        (alt (lit_nocase (txt "Further Advice:"))
          (alt (lit_nocase (txt "Advice Note:"))
               (lit_nocase (txt "Note:"))));
  wordb;; mret g.

(** [FURTHER_ADVICE_RE] and [FURTHER_ADVICE_TO_APPLICANT_RE], with [re.I]. *)
Definition FURTHER_ADVICE_RE : matcher text :=
  g ← lit_nocase (txt "FURTHER ADVICE"); wordb;; mret g.

Definition FURTHER_ADVICE_TO_APPLICANT_RE : matcher text :=
  g ← lit_nocase (txt "FURTHER ADVICE TO THE APPLICANT"); wordb;; mret g.

(** [pattern.match(line)] as a truth value. *)
Definition matches {A} (m : matcher A) (line : text) : bool :=
  bool_decide (is_Some (match_ m line)).

(** [_new_condition(num, title, desc)]. *)
Definition _new_condition (num title desc : text) : condition :=
  Condition (_clean num) (_clean title) (_clean desc) [] [] [] [] None [] None.

(** The scan of [_prev_topic_title], over the lines before [idx] from the
    nearest one backwards. *)
Fixpoint topic_scan (back : list text) : text :=
  match back with
  | [] => []
  | raw :: back' =>
      let t := _clean raw in
      if bool_decide (t = []) then topic_scan back'
      else if matches SECTION_LINE_RE t then topic_scan back'
      else if matches COND_INLINE_RE t || matches COND_NUM_ONLY_RE t
           then topic_scan back'
      else if matches NOTE_START_RE t then topic_scan back'
      else if matches (sat is_digit) t then topic_scan back'
      else if (120 <? length t)
              && (endswith (txt ".") t || endswith (txt ";") t)
           then topic_scan back'
      else t
  end.

(** [_prev_topic_title(lines, idx)], for [idx] at most the number of lines,
    as in the two calls of the walk; beyond it the source raises
    [IndexError] at [lines[idx - 1]]. *)
Definition _prev_topic_title (lines : list text) (idx : nat) : text :=
  topic_scan (reverse (take idx lines)).

(** ** The conditions state machine *)

(** The variables of [_parse_conditions]: the list [sections], the alias
    [current_section] (the index of the dictionary it names, which is the
    one appended last) and the dictionary [cond_index] of aliases. *)
Record state := State {
  sections : list Sec.t;
  current_section : option nat;
  cond_index : gmap text ref
}.

Definition initial : state := State [] None ∅.

(** [ensure_section(title)]. *)
Definition ensure_section (title : text) (st : state) : state :=
  State (sections st ++ [Sec.Make (_clean title) []])
        (Some (length (sections st)))
        (cond_index st).

(** [".".join(num.split(".")[:-1])]. *)
Definition parent_number (num : text) : text :=
  join "."%char (removelast (split_on "."%char num)).

(** [attach_condition(c)]; the reference of [c] in the tree is returned
    with the new state, since the caller keeps the alias [c]. *)
Definition attach_condition (c : condition) (st : state) : state * ref :=
  let num := number c in
  let parent :=
    if contains_char "."%char num
    then cond_index st !! parent_number num else None in
  match parent with
  | Some r =>
      let pos := match node_ref r (sections st) with
                 | Some p => length (children p)
                 | None => 0
                 end in
      (State (alter_ref (append_child c) r (sections st))
             (current_section st) (cond_index st),
       Ref (ref_section r) (ref_top r) (ref_path r ++ [pos]))
  | None =>
      let st1 := match current_section st with
                 | None => ensure_section (txt "UNSORTED") st
                 | Some _ => st
                 end in
      let k := default 0 (current_section st1) in
      let pos := match sections st1 !! k with
                 | Some s => length (Sec.conditions s)
                 | None => 0
                 end in
      (State (alter (λ s, Sec.set_conditions (Sec.conditions s ++ [c]) s)
                    k (sections st1))
             (current_section st1) (cond_index st1),
       Ref k pos [])
  end.

(** The three statements that open a condition:
    [c = _new_condition(num, title, desc)], [cond_index[num] = c] and
    [attach_condition(c)].  The source writes the index entry first; the
    entry that [attach_condition] reads is the one of [parent_number num],
    a different key (lemma [parent_number_neq]), so writing the entry once
    the place of [c] is known gives the same state. *)
Definition open_condition (num title desc : text) (st : state)
  : state * ref :=
  let c := _new_condition num title desc in
  let (st', r) := attach_condition c st in
  (State (sections st') (current_section st') (<[num := r]> (cond_index st')),
   r).

(** [c["description"] = _safe_join(c["description"], nxt)]. *)
Definition extend_description (r : ref) (nxt : text) (st : state) : state :=
  State (alter_ref (λ c, set_description (_safe_join (description c) nxt) c)
                   r (sections st))
        (current_section st) (cond_index st).

(** The test that ends the inner [while] of a condition. *)
Definition is_marker (line : text) : bool :=
  matches SECTION_LINE_RE line || matches COND_INLINE_RE line
  || matches COND_NUM_ONLY_RE line.

(** Where the walk stands: in the outer [while], or in the inner [while]
    that collects the continuation lines of the condition [r]. *)
Inductive mode := Outer | Continuation (r : ref).

(** One turn of the outer [while] on the non-blank line [line] at index
    [i]; [None] is [break]. *)
Definition outer_turn (lines : list text) (i : nat) (line : text)
    (st : state) : option (mode * state) :=
  if matches FURTHER_ADVICE_TO_APPLICANT_RE line
     || matches FURTHER_ADVICE_RE line
  then None
  else
    match match_ SECTION_LINE_RE line with
    | Some (g1, g2) =>
        Some (Outer, ensure_section (g1 ++ txt ". " ++ g2) st)
    | None =>
        match match_ COND_INLINE_RE line with
        | Some (num, desc) =>
            let (st', r) :=
              open_condition num (_prev_topic_title lines i) desc st in
            Some (Continuation r, st')
        | None =>
            match match_ COND_NUM_ONLY_RE line with
            | Some num =>
                let (st', r) :=
                  open_condition num (_prev_topic_title lines i) [] st in
                Some (Continuation r, st')
            | None => Some (Outer, st)
            end
        end
    end.

(** One line of the two nested [while] loops: the raw line at index [i],
    met in mode [m].  A blank line is skipped in either loop; a line met
    in the inner loop is absorbed into the description unless it is a
    marker, which ends the inner loop and is left to the outer one;
    [None] is the [break] of the outer loop. *)
Definition turn (lines : list text) (i : nat) (raw : text) (m : mode)
    (st : state) : option (mode * state) :=
  let line := _clean raw in
  if bool_decide (line = []) then Some (m, st)
  else
    let absorbed :=
      match m with
      | Continuation r => if is_marker line then None else Some r
      | Outer => None
      end in
    match absorbed with
    | Some r => Some (m, extend_description r line st)
    | None => outer_turn lines i line st
    end.

(** The loops over [lines] from index [i] on; [todo] is [lines[i:]]. *)
Fixpoint walk_lines (lines : list text) (m : mode) (i : nat)
    (todo : list text) (st : state) : state :=
  match todo with
  | [] => st
  | raw :: todo' =>
      match turn lines i raw m st with
      | None => st
      | Some (m', st') => walk_lines lines m' (S i) todo' st'
      end
  end.

(** The last statement of [_parse_conditions]: an empty leading UNSORTED
    section is dropped when a real section exists. *)
Definition drop_empty_unsorted (secs : list Sec.t) : list Sec.t :=
  match secs with
  | s0 :: others =>
      if bool_decide (Sec.title s0 = txt "UNSORTED") then
        let has_real :=
          existsb (λ s, negb (bool_decide (Sec.title s = txt "UNSORTED")))
                  secs in
        if has_real && match Sec.conditions s0 with [] => true | _ => false end
        then others else secs
      else secs
  | [] => []
  end.

(** [_parse_conditions(lines)]. *)
Definition _parse_conditions (lines : list text) : list Sec.t :=
  drop_empty_unsorted (sections (walk_lines lines Outer 0 lines initial)).

(** [_count_conditions(sections)], with its inner [walk]. *)
Fixpoint walk (c : condition) : nat :=
  foldl (λ n ch, n + walk ch) 1 (children c).

Definition _count_conditions (secs : list Sec.t) : nat :=
  foldl (λ total s, foldl (λ total c, total + walk c) total (Sec.conditions s))
        0 secs.

(** ** The cover page *)

Definition cat (m1 m2 : matcher text) : matcher text :=
  a ← m1; b ← m2; mret (a ++ b).

(** The common tail [\s*:?\s*] of the label patterns, then a group that
    takes the rest of the line up to [$]. *)
Definition label_tail : matcher text :=
  star is_space;; opt (chr ":");; star is_space;;
  g ← star not_newline; eol;; mret g.

(** A compiled label pattern with one group, under [re.I]. *)
Definition label_re (label : matcher text) (line : text) : option match_obj :=
  (λ g, MatchObj (Some 1) (Some g)) <$> match_ (label;; label_tail) line.

Definition words2 (a b : string) : matcher text :=
  cat (lit_nocase (txt a)) (cat (plus is_space) (lit_nocase (txt b))).

Definition APPLICANT_RE := label_re (lit_nocase (txt "APPLICANT")).
Definition APPLICATION_NUMBER_RE := label_re (words2 "APPLICATION" "NUMBER").
Definition OFFICER_NAME_RE := label_re (words2 "Officer" "Name").
Definition CONTACT_NUMBER_RE := label_re (words2 "Contact" "Number").
Definition DOCUMENT_NUMBER_RE := label_re (words2 "Document" "Number").
Definition STREET_ADDRESS_RE := label_re (words2 "Street" "Address").
Definition REAL_PROPERTY_RE :=
  label_re (cat (words2 "Real" "Property")
                (cat (plus is_space) (lit_nocase (txt "Description")))).

(** The pattern for TYPE & DESCRIPTION has two groups, the first of which
    is the label itself. *)
Definition type_label (ws : matcher text) : matcher text :=
  cat (lit_nocase (txt "TYPE"))
      (cat ws (cat (lit_nocase (txt "&"))
                   (cat ws (lit_nocase (txt "DESCRIPTION"))))).

Definition TYPE_DESCRIPTION_RE (line : text) : option match_obj :=
  (λ g, MatchObj (Some 2) (Some g))
    <$> match_ (g1 ← alt (type_label (star is_space))
                        (type_label (plus is_space));
                label_tail;; mret g1) line.

(** The fallback loop for [type_desc]. *)
Fixpoint type_desc_fallback (window : list text) (type_desc : text) : text :=
  match window with
  | [] => type_desc
  | ln :: window' =>
      if bool_decide (is_Some (search (type_label (star is_space)) ln)) then
        match split_once ":"%char ln with
        | Some (_, a) => _clean a
        | None => type_desc
        end
      else type_desc_fallback window' type_desc
  end.

(** [_extract_logan_application_details(lines)]: the pair
    [(application_details, extracted)]. *)
Definition _extract_logan_application_details (lines : list text)
  : gmap string text * gmap string text :=
  let scan_limit := 120 in
  let applicant := _find_value_after_label lines APPLICANT_RE scan_limit in
  let app_no :=
    _find_value_after_label lines APPLICATION_NUMBER_RE scan_limit in
  let type_desc :=
    _find_value_after_label lines TYPE_DESCRIPTION_RE scan_limit in
  let officer_name :=
    _find_value_after_label lines OFFICER_NAME_RE scan_limit in
  let contact_number :=
    _find_value_after_label lines CONTACT_NUMBER_RE scan_limit in
  let document_number :=
    _find_value_after_label lines DOCUMENT_NUMBER_RE scan_limit in
  let street_address :=
    _find_value_after_label lines STREET_ADDRESS_RE scan_limit in
  let real_prop := _find_value_after_label lines REAL_PROPERTY_RE scan_limit in
  let type_desc :=
    if startswith (txt "type") (lower_text type_desc)
    then type_desc_fallback (take scan_limit lines) type_desc
    else type_desc in
  let extracted : gmap string text :=
    list_to_map [
      ("applicant", applicant); ("applicationNumber", app_no);
      ("typeAndDescription", type_desc); ("officerName", officer_name);
      ("contactNumber", contact_number); ("documentNumber", document_number);
      ("streetAddress", street_address);
      ("realPropertyDescription", real_prop) ] in
  let application_details : gmap string text :=
    list_to_map [
      ("addressOfSite", street_address);
      ("realPropertyDescriptionOfSite", real_prop);
      ("aspectsOfDevelopmentAndTypeOfApproval", type_desc);
      ("councilFileReference", app_no);
      ("permitReferenceNumbers", document_number);
      ("packageStatus", []); ("packageGenerated", []);
      ("applicant", applicant); ("officerName", officer_name);
      ("contactNumber", contact_number);
      ("documentNumber", document_number) ] in
  (application_details, extracted).

(** ** The plans table *)

(** A row of [_extract_plans_table_best_effort], which reads the geometry
    of the page and is input here. *)
Module Plan.
Record t := Make {
  title : text; planNumber : text; revision : text;
  date : text; preparedBy : text
}.
End Plan.

(** [_map_plans_to_working_documents(plans)]. *)
Fixpoint _map_plans_to_working_documents (plans : list Plan.t) : list Doc.t :=
  match plans with
  | [] => []
  | p :: plans' =>
      let title := _clean (Plan.title p) in
      let number := _clean (Plan.planNumber p) in
      let revision := _clean (Plan.revision p) in
      let plan_date := _clean (Plan.date p) in
      let prepared_by := _clean (Plan.preparedBy p) in
      if bool_decide (title = []) && bool_decide (number = [])
      then _map_plans_to_working_documents plans'
      else Doc.Make title number plan_date revision prepared_by
             :: _map_plans_to_working_documents plans'
  end.

(** ** The entry point *)

(** [parse_logan_conditions_pdf], from the normalised lines of the
    document and the rows of its plans table. *)
Definition parse_logan_conditions_pdf (lines : list text)
    (plans_raw : list Plan.t) : Parsed.t :=
  let (application_details, extracted_cover) :=
    _extract_logan_application_details lines in
  let documents := _map_plans_to_working_documents plans_raw in
  let sections := _parse_conditions lines in
  Parsed.Make (txt "LOGAN")
    (Summary.Make (_count_conditions sections) (length documents))
    application_details documents sections.

(** ** The lines of the document *)

(** [SECTION_NUM_ONLY_RE = ^(\d+)\.\s*$] *)
Definition SECTION_NUM_ONLY_RE : matcher text :=
  g1 ← plus is_digit; chr ".";; star is_space;; eol;; mret g1.

(** [UPPER_TITLE_RE = ^[A-Z][A-Z\s&/\-]{2,}$].  The repetition [{2,}] of
    a character class is written as two characters of the class and a
    greedy star, which tries the same runs in the same order. *)
Definition UPPER_TITLE_RE : matcher unit :=
  sat is_upper;; sat section_title_char;; sat section_title_char;;
  star section_title_char;; eol;; mret ().

(** The pattern [inline_section] of [_normalise_lines]: a lazy group of
    any characters, the group [\b\d+\.\s+[A-Z][A-Z\s&/\-]+\b] and a greedy
    group of any characters. *)
Definition inline_section : matcher (text * text * text) :=
  g1 ← lazy_star not_newline; wordb;;
  d ← plus is_digit; p ← chr "."; sp ← plus is_space;
  h ← sat is_upper; t ← plus section_title_char; wordb;;
  g3 ← star not_newline; mret (g1, d ++ p :: sp ++ h :: t, g3).

(** The loop of [_normalise_lines] from index [i] on; [todo] is
    [lines[i:]] and the result is what the loop appends to [out].  After
    a number line has been combined with the title that follows, the loop
    goes on two lines further. *)
Fixpoint normalise_from (lines : list text) (i : nat) (todo : list text)
  : list text :=
  match todo with
  | [] => []
  | raw :: rest =>
      let l := _clean raw in
      if bool_decide (l = []) then normalise_from lines (S i) rest
      else
        let combined :=
          match match_ SECTION_NUM_ONLY_RE l with
          | Some g1 =>
              let nxt := _next_meaningful lines (S i) in
              if negb (bool_decide (nxt = []))
                 && matches UPPER_TITLE_RE (_clean nxt)
              then Some (g1 ++ txt ". " ++ _clean nxt)
              else None
          | None => None
          end in
        match combined with
        | Some line =>
            line :: match rest with
                    | [] => []
                    | _ :: rest' => normalise_from lines (S (S i)) rest'
                    end
        | None =>
            let split :=
              match match_ inline_section l with
              | Some (g1, g2, g3) =>
                  if matches SECTION_LINE_RE (_clean g2)
                  then Some (_clean g1, _clean g2, _clean g3)
                  else None
              | None => None
              end in
            match split with
            | Some (a, b, c) =>
                (if bool_decide (a = []) then [] else [a])
                ++ b :: (if bool_decide (c = []) then [] else [c])
                ++ normalise_from lines (S i) rest
            | None => l :: normalise_from lines (S i) rest
            end
        end
  end.

(** [_normalise_lines(lines)]. *)
Definition _normalise_lines (lines : list text) : list text :=
  normalise_from lines 0 lines.

(** [str.splitlines()]: the line boundaries are line feed, carriage
    return (with a line feed that follows it), vertical tab, form feed,
    the file, group and record separators and the next-line character. *)
Definition is_linebreak (c : ascii) : bool :=
  between 10 13 c || between 28 30 c || (code c =? 133).

Fixpoint splitlines_from (cur : text) (s : text) : list text :=
  match s with
  | [] => if bool_decide (cur = []) then [] else [cur]
  | c :: s' =>
      if is_linebreak c then
        cur :: match s' with
               | d :: s'' =>
                   if bool_decide (c = ascii_of_nat 13)
                      && bool_decide (d = newline)
                   then splitlines_from [] s''
                   else splitlines_from [] s'
               | [] => []
               end
      else splitlines_from (cur ++ [c]) s'
  end.

Definition splitlines (s : text) : list text := splitlines_from [] s.

(** [_extract_lines_from_pdf_bytes], from the text of each page as
    [page.get_text("text")] gives it. *)
Definition _extract_lines_from_pdf_bytes (pages : list text) : list text :=
  let raw :=
    flat_map (λ text, List.filter (λ t, negb (bool_decide (t = [])))
                                  (map _clean (splitlines text))) pages in
  _normalise_lines raw.

(** [_collect_section_headings(sections)]. *)
Definition _collect_section_headings (secs : list Sec.t) : list text :=
  map Sec.title
      (List.filter (λ s, negb (bool_decide (Sec.title s = []))) secs).

End Logan.

(* ================================================================== *)
(** * [parsers/bcc_parse.py]                                            *)
(* ================================================================== *)

Module Bcc.
Import Re.

(** ** What the walk reads of the parsed page *)

(** A [<td>]: its text, [get_text(" ", strip=True)], and the same text
    once the first [<b>] of the cell has been taken out (the reading of
    [_extract_desc_excluding_header_bold] before its [_clean]). *)
Record cell := Cell { cell_text : text; cell_body_text : text }.

(** A [<b>] of [root.find_all_next("b")]: its text, the cells of the row
    around it ([find_parent("tr")] then [find_all("td")]; [None] when no
    row encloses it) and the text of the table that follows it
    ([find_next("table")]; [None] when there is none). *)
Record bold := Bold {
  b_text : text;
  b_row : option (list cell);
  b_next_table : option text
}.

(** A table as its rows of cell texts. *)
Definition table : Type := list (list text).

(** The page: for each marker, whether [_find_marker] finds it and the
    table that [find_next("table")] then gives; and the bold runs that
    follow the root of the conditions. *)
Record soup := Soup {
  application_details_marker : option (option table);
  drawings_marker : option (option table);
  bolds : list bold
}.

(** ** Project details *)

(** [s.rstrip(":")]. *)
Fixpoint lstrip_char (a : ascii) (s : text) : text :=
  match s with
  | c :: s' => if bool_decide (c = a) then lstrip_char a s' else s
  | [] => []
  end.

Definition rstrip_char (a : ascii) (s : text) : text :=
  reverse (lstrip_char a (reverse s)).

(** [_parse_2col_table(table)], over the [<td>] texts of each row. *)
Fixpoint fill_2col (rows : table) (out : gmap text text) : gmap text text :=
  match rows with
  | [] => out
  | tds :: rows' =>
      match tds with
      | td0 :: td1 :: _ =>
          let label := rstrip_char ":"%char (_clean td0) in
          let value := _clean td1 in
          if bool_decide (label = []) then fill_2col rows' out
          else fill_2col rows' (<[label := value]> out)
      | _ => fill_2col rows' out
      end
  end.

Definition _parse_2col_table (t : option table) : gmap text text :=
  match t with
  | None => ∅
  | Some rows => fill_2col rows ∅
  end.

(** The inner function [get] of [_parse_application_details], which takes
    any number of keys. *)
Fixpoint get (raw : gmap text text) (keys : list text) : text :=
  match keys with
  | [] => []
  | k :: keys' =>
      match raw !! k with
      | Some v => if bool_decide (v = []) then get raw keys' else v
      | None => get raw keys'
      end
  end.

(** [p in s] for texts. *)
Fixpoint contains_sub (p s : text) : bool :=
  startswith p s ||
  match s with
  | [] => false
  | _ :: s' => contains_sub p s'
  end.

(** The pattern that splits a permit reference out of the file reference:
    [^(.*?)\s*Permit Reference Number/s:\s*(.+)$] under [re.I]. *)
Definition PERMIT_INLINE_RE : matcher (text * text) :=
  bol;; g1 ← lazy_star not_newline; star is_space;;
  lit_nocase (txt "Permit Reference Number/s:");; star is_space;;
  g2 ← plus not_newline; eol;; mret (g1, g2).

(** [_parse_application_details(soup)]. *)
Definition _parse_application_details (s : soup) : gmap string text :=
  match application_details_marker s with
  | None => ∅
  | Some t =>
      let raw := _parse_2col_table t in
      let address := get raw [txt "Address of Site"] in
      let rpd := get raw [txt "Real Property Description of Site"] in
      let aspects :=
        get raw [txt "Aspects of development and type of approval"] in
      let council_ref := get raw [txt "Council File Reference"] in
      let permit_refs :=
        get raw [txt "Permit Reference Number/s";
                 txt "Permit Reference Numbers"] in
      let status := get raw [txt "Package Status"] in
      let generated := get raw [txt "Package Generated"] in
      let fixed :=
        if negb (bool_decide (council_ref = []))
           && contains_sub (txt "permit reference") (lower_text council_ref)
           && bool_decide (permit_refs = [])
        then match search PERMIT_INLINE_RE council_ref with
             | Some (_, (g1, g2)) => (_clean g1, _clean g2)
             | None => (council_ref, permit_refs)
             end
        else (council_ref, permit_refs) in
      list_to_map [
        ("addressOfSite", address);
        ("realPropertyDescriptionOfSite", rpd);
        ("aspectsOfDevelopmentAndTypeOfApproval", aspects);
        ("councilFileReference", fixed.1);
        ("permitReferenceNumbers", fixed.2);
        ("packageStatus", status);
        ("packageGenerated", generated) ]
  end.

(** ** Documents *)

(** The revision pattern
    [\b(Rev\s+[A-Z0-9]+|Issue\s+[A-Z0-9]+|CO\s+Issue\s+[A-Z0-9]+)\b]
    under [re.I]. *)
Definition is_alnum (c : ascii) : bool := is_digit c || is_upper c || is_lower c.

Definition word_then_code (w : matcher text) : matcher text :=
  a ← w; s ← plus is_space; c ← plus is_alnum; mret (a ++ s ++ c).

Definition REVISION_RE : matcher text :=
  wordb;;
  g ← alt (word_then_code (lit_nocase (txt "Rev")))
       (alt (word_then_code (lit_nocase (txt "Issue")))
            (word_then_code
               (a ← lit_nocase (txt "CO"); s ← plus is_space;
                i ← lit_nocase (txt "Issue"); mret (a ++ s ++ i))));
  wordb;; mret g.

(** [_extract_revision_and_prepared_by(number_str)]: the pair
    [(rev, prepared_by)]. *)
Definition _extract_revision_and_prepared_by (number_str : text)
  : text * text :=
  let s := number_str in
  let rev := match search REVISION_RE s with
             | Some (_, g) => _clean g
             | None => []
             end in
  let prepared_by :=
    match split_once "|"%char s with
    | Some (before_bar, _) =>
        let left := _clean before_bar in
        if negb (bool_decide (left = [])) && (length left <=? 60)
        then left else []
    | None => []
    end in
  (rev, prepared_by).

(** [_parse_drawings_and_documents(soup)]; a row is the list of the texts
    of its [<td>] and [<th>] cells. *)
Fixpoint document_rows (rows : table) : list Doc.t :=
  match rows with
  | [] => []
  | cells :: rows' =>
      match cells with
      | c0 :: c1 :: c2 :: _ =>
          let title := _clean c0 in
          let number := _clean c1 in
          let plan_date := _clean c2 in
          if bool_decide (title = []) && bool_decide (number = [])
             && bool_decide (plan_date = [])
          then document_rows rows'
          else
            let (rev, prepared_by) :=
              _extract_revision_and_prepared_by number in
            Doc.Make title number plan_date rev prepared_by
              :: document_rows rows'
      | _ => document_rows rows'
      end
  end.

Definition _parse_drawings_and_documents (s : soup) : list Doc.t :=
  match drawings_marker s with
  | Some (Some rows) => document_rows (drop 1 rows)
  | _ => []
  end.

(** ** Conditions *)

(** The pattern of [_extract_inline_timing], [\bTiming:\s*(.+)$] under
    [re.I | re.S]. *)
Definition TIMING_RE : matcher text :=
  wordb;; lit_nocase (txt "Timing:");; star is_space;;
  g ← plus any_char; eol;; mret g.

(** [_extract_inline_timing(text)]: the pair
    [(clean_text_without_inline_timing, inline_timing)]. *)
Definition _extract_inline_timing (t : text) : text * text :=
  if bool_decide (t = []) then (t, [])
  else
    match search TIMING_RE t with
    | None => (t, [])
    | Some (start, g) =>
        let inline_timing := _clean g in
        let clean_text := _clean (take start t) in
        (clean_text, inline_timing)
    end.

(** The pattern of [_extract_proof_of_fulfilment],
    [\bPROOF OF FULFILMENT\b\s*(.+)$] under [re.I | re.S]. *)
Definition PROOF_RE : matcher text :=
  wordb;; lit_nocase (txt "PROOF OF FULFILMENT");; wordb;; star is_space;;
  g ← plus any_char; eol;; mret g.

(** [_extract_proof_of_fulfilment(text)]: the pair
    [(clean_desc, material)]. *)
Definition _extract_proof_of_fulfilment (t : text)
  : text * option Material.t :=
  if bool_decide (t = []) then (t, None)
  else
    match search PROOF_RE t with
    | None => (t, None)
    | Some (start, g) =>
        let proof_block := _clean g in
        let clean_desc := _clean (take start t) in
        let (proof_desc, proof_timing) := _extract_inline_timing proof_block in
        (clean_desc, Some (Material.Make true proof_desc proof_timing))
    end.

(** [_table_looks_like_timing_header(table)], on the text of the table. *)
Definition _table_looks_like_timing_header (t : option text) : bool :=
  match t with
  | None => false
  | Some tab => contains_sub (txt "timing") (lower_text (_clean tab))
  end.

(** [_extract_desc_excluding_header_bold(desc_cell)]. *)
Definition _extract_desc_excluding_header_bold (desc_cell : cell) : text :=
  _clean (cell_body_text desc_cell).

(** The pattern of a condition header,
    [^(\d+)(\([a-z]\))?\s*\)?\s*(.+)$] under [re.I]. *)
Definition is_letter (c : ascii) : bool := is_upper c || is_lower c.

Definition COND_RE : matcher (text * option text * text) :=
  g1 ← plus is_digit;
  g2 ← opt (a ← chr "("; l ← sat is_letter; b ← chr ")"; mret [a; l; b]);
  star is_space;; opt (chr ")");; star is_space;;
  g3 ← plus not_newline; eol;; mret (g1, g2, g3).

(** The choice between the timing column and the inline timing, as
    [_parse_conditions] makes it: the pair [(timing, timing_source)]. *)
Definition resolve_timing (timing_col inline_timing : text) : text * text :=
  if negb (bool_decide (inline_timing = []))
     && (bool_decide (lower_text timing_col = txt "as indicated")
         || bool_decide (lower_text timing_col = []))
  then (inline_timing, txt "inline")
  else (timing_col, txt "column").

(** The variables of [_parse_conditions].  [condition_index] holds
    aliases of dictionaries that sit in [current_conditions] or, once
    flushed, in [sections]: a reference whose section is
    [length sections] names a condition of [current_conditions], which
    [flush] appends to [sections] at that very index. *)
Record state := State {
  sections : list Sec.t;
  current_section_title : text;
  current_conditions : list condition;
  condition_index : gmap text ref;
  total_conditions : nat
}.

Definition initial : state := State [] (txt "General") [] ∅ 0.

(** The inner [flush()]. *)
Definition flush (st : state) : state :=
  match current_conditions st with
  | [] => st
  | _ :: _ =>
      State (sections st
               ++ [Sec.Make (current_section_title st) (current_conditions st)])
            (current_section_title st) [] (condition_index st)
            (total_conditions st)
  end.

(** [parent["children"].append(condition)] through the alias [r]. *)
Definition append_to_parent (r : ref) (c : condition) (st : state) : state :=
  if ref_section r <? length (sections st)
  then State (alter_ref (append_child c) r (sections st))
             (current_section_title st) (current_conditions st)
             (condition_index st) (total_conditions st)
  else State (sections st) (current_section_title st)
             (alter_top (append_child c) (ref_top r) (ref_path r)
                        (current_conditions st))
             (condition_index st) (total_conditions st).

(** [current_conditions.append(condition)]. *)
Definition append_current (c : condition) (st : state) : state :=
  State (sections st) (current_section_title st)
        (current_conditions st ++ [c]) (condition_index st)
        (total_conditions st).

Definition count_one (st : state) : state :=
  State (sections st) (current_section_title st) (current_conditions st)
        (condition_index st) (S (total_conditions st)).

(** The condition dictionary built from a header match and the two cells
    of its row. *)
Definition build_condition (number title : text) (c0 c1 : cell) : condition :=
  let raw_desc := _extract_desc_excluding_header_bold c0 in
  let timing_col := _clean (cell_text c1) in
  let (desc_wo_proof, material) := _extract_proof_of_fulfilment raw_desc in
  let (clean_desc, inline_timing) := _extract_inline_timing desc_wo_proof in
  let (timing, timing_source) := resolve_timing timing_col inline_timing in
  Condition number title clean_desc timing timing_source timing_col
            inline_timing material [] None.

(** The part of the loop body that places a condition: under its parent,
    or in [current_conditions]. *)
Definition place_condition (base_num suffix : text) (c : condition)
    (st : state) : state :=
  if negb (bool_decide (suffix = [])) then
    match condition_index st !! base_num with
    | Some r => count_one (append_to_parent r (set_parentNumber base_num c) st)
    | None => count_one (append_current c st)
    end
  else
    let r := Ref (length (sections st)) (length (current_conditions st)) [] in
    let st1 := append_current c st in
    count_one (State (sections st1) (current_section_title st1)
                     (current_conditions st1)
                     (<[base_num := r]> (condition_index st1))
                     (total_conditions st1)).

(** One turn of the loop [for b in root.find_all_next("b")]. *)
Definition visit (b : bold) (st : state) : state :=
  let t := _clean (b_text b) in
  if bool_decide (t = []) then st
  else
    match match_ COND_RE t with
    | Some (base_num, g2, g3) =>
        let suffix := lower_text (default [] g2) in
        let number := base_num ++ suffix in
        let title := _clean g3 in
        match b_row b with
        | None => st
        | Some cells =>
            match cells with
            | c0 :: c1 :: _ =>
                place_condition base_num suffix
                                (build_condition number title c0 c1) st
            | _ => st
            end
        end
    | None =>
        if _table_looks_like_timing_header (b_next_table b) then
          let st1 := flush st in
          State (sections st1) t (current_conditions st1)
                (condition_index st1) (total_conditions st1)
        else st
    end.

(** [_parse_conditions(soup)]: the pair [(sections, total_conditions)]. *)
Definition run (bs : list bold) : state := foldl (λ st b, visit b st) initial bs.

Definition _parse_conditions (bs : list bold) : list Sec.t * nat :=
  let st := flush (run bs) in
  (sections st, total_conditions st).

(** [parse_bcc_conditions_html], from the parsed page. *)
Definition parse_bcc_conditions_html (s : soup) : Parsed.t :=
  let application_details := _parse_application_details s in
  let documents := _parse_drawings_and_documents s in
  let (condition_sections, total_conditions) := _parse_conditions (bolds s) in
  Parsed.Make (txt "BCC")
    (Summary.Make total_conditions (length documents))
    application_details documents condition_sections.

(** ** The header of the conditions *)

(** A [<td>] of the header table: its text read with a space between its
    strings, [get_text(" ", strip=True)], and read with a line feed
    between them, [get_text("\n", strip=True)]. *)
Record header_cell := HeaderCell { text_spaced : text; text_lined : text }.

(** The dictionary of the permit:
    [{"permitToWhichTheseConditionsRelate": ..., "activities": [...],
    "stage": ...}]. *)
Module PermitInfo.
Record t := Make {
  permitToWhichTheseConditionsRelate : text;
  activities : list text;
  stage : text
}.
End PermitInfo.

(** [[p.strip() for p in s.split(sep) if p.strip()]]. *)
Definition stripped_parts (sep : ascii) (s : text) : list text :=
  List.filter (λ p, negb (bool_decide (p = []))) (map strip (split_on sep s)).

(** The loop of [_parse_permit_info_from_approval_conditions_header] over
    the rows of the header table, with its three variables. *)
Fixpoint permit_rows (rows : list (list header_cell)) (permit stage : text)
    (activities : list text) : PermitInfo.t :=
  match rows with
  | [] => PermitInfo.Make permit activities stage
  | tds :: rows' =>
      match tds with
      | td0 :: td1 :: _ =>
          let label := rstrip_char ":"%char (_clean (text_spaced td0)) in
          let value_lines := stripped_parts newline (text_lined td1) in
          let value_clean := _clean (join " "%char value_lines) in
          let ll := lower_text label in
          if startswith (txt "permit to which") ll then
            permit_rows rows' value_clean stage activities
          else if startswith (txt "stage") ll then
            permit_rows rows' permit
              (if bool_decide (value_clean = [ascii_of_nat 160])
                  || bool_decide (value_clean = txt "&nbsp;")
               then [] else value_clean)
              activities
          else if startswith (txt "activity") ll then
            permit_rows rows' permit stage
              (if 1 <? length value_lines then value_lines
               else match stripped_parts ","%char value_clean with
                    | [] => if bool_decide (value_clean = []) then []
                            else [value_clean]
                    | parts => parts
                    end)
          else permit_rows rows' permit stage activities
      | _ => permit_rows rows' permit stage activities
      end
  end.

(** [_parse_permit_info_from_approval_conditions_header(soup)], from what
    [_find_marker] and [find_next("table")] give: no marker, a marker
    without a table after it, or the rows of the table. *)
Definition _parse_permit_info_from_approval_conditions_header
    (marker : option (option (list (list header_cell)))) : PermitInfo.t :=
  match marker with
  | Some (Some rows) => permit_rows rows [] [] []
  | _ => PermitInfo.Make [] [] []
  end.

End Bcc.

(* ================================================================== *)
(** * The vocabulary of the properties                                  *)
(* ================================================================== *)

Module Spec.

(** ** PDF lines *)

(** The number that a raw line shows when its cleaned form matches one of
    the two condition-number patterns, tried in the order of the walk. *)
Definition condition_number (raw : text) : option text :=
  match Re.match_ Logan.COND_INLINE_RE (_clean raw) with
  | Some (num, _) => Some num
  | None => Re.match_ Logan.COND_NUM_ONLY_RE (_clean raw)
  end.

Definition is_condition_line (raw : text) : bool :=
  match condition_number raw with Some _ => true | None => false end.

(** A raw line whose cleaned form matches an end-of-conditions pattern. *)
Definition is_end_marker (raw : text) : bool :=
  Logan.matches Logan.FURTHER_ADVICE_TO_APPLICANT_RE (_clean raw)
  || Logan.matches Logan.FURTHER_ADVICE_RE (_clean raw).

(** How many lines match a condition-number pattern. *)
Definition condition_lines (lines : list text) : nat :=
  length (List.filter is_condition_line lines).

(** The configuration in which the walk of [lines] stands once it has read
    the lines [pre] that start at index [i]; [None] when it has stopped
    within them. *)
Fixpoint reach (lines : list text) (m : Logan.mode) (i : nat)
    (pre : list text) (st : Logan.state) : option (Logan.mode * Logan.state) :=
  match pre with
  | [] => Some (m, st)
  | raw :: pre' =>
      match Logan.turn lines i raw m st with
      | None => None
      | Some (m', st') => reach lines m' (S i) pre' st'
      end
  end.

(** A run of decimal digits, and a number of the form [\d+(\.\d+)+]. *)
Definition digits (t : text) : Prop :=
  t ≠ [] ∧ Forall (λ c, is_digit c = true) t.

Definition dotted (t : text) : Prop :=
  ∃ d gs, digits d ∧ gs ≠ [] ∧ Forall digits gs
          ∧ t = d ++ concat (map (λ g, "."%char :: g) gs).

(** ** HTML bold runs *)

(** The base number, suffix and title that a bold run shows when its
    cleaned text matches the condition-header pattern. *)
Definition header (b : Bcc.bold) : option (text * text * text) :=
  if bool_decide (_clean (Bcc.b_text b) = []) then None
  else match Re.match_ Bcc.COND_RE (_clean (Bcc.b_text b)) with
       | Some (base_num, g2, g3) =>
           Some (base_num, lower_text (default [] g2), _clean g3)
       | None => None
       end.

(** The two cells that the walk reads for a header: the first two [<td>]
    of the row around the bold run, when there is a row with two cells. *)
Definition row_cells (b : Bcc.bold) : option (Bcc.cell * Bcc.cell) :=
  match Bcc.b_row b with
  | Some (c0 :: c1 :: _) => Some (c0, c1)
  | _ => None
  end.

(** A bold run that matches the header pattern. *)
Definition is_header (b : Bcc.bold) : bool :=
  match header b with Some _ => true | None => false end.

(** A header that the walk turns into a condition: it sits in a row with
    at least two cells. *)
Definition accepted (b : Bcc.bold) : bool :=
  is_header b && match row_cells b with Some _ => true | None => false end.

(** The keys of [applicationDetails] that the HTML adapter fills. *)
Definition header_fields : list string :=
  [ "addressOfSite"; "realPropertyDescriptionOfSite";
    "aspectsOfDevelopmentAndTypeOfApproval"; "councilFileReference";
    "permitReferenceNumbers"; "packageStatus"; "packageGenerated" ].

End Spec.

(** ** Invariants of the two walks *)

(** An update that keeps every node that was reachable below a node. *)
Definition keeps_nodes (f : condition → condition) : Prop :=
  ∀ x q, is_Some (node_at q x) → is_Some (node_at q (f x)).

(** The invariant of the PDF walk: every alias of [cond_index] names a
    node of the tree, and [current_section] names a section of the list. *)
Definition logan_inv (st : Logan.state) : Prop :=
  map_Forall (λ _ r, is_Some (node_ref r (Logan.sections st)))
             (Logan.cond_index st)
  ∧ (∀ k, Logan.current_section st = Some k → k < length (Logan.sections st)).

(** A property of nodes that does not look at [children] nor at
    [description], the two keys that the walks update in place. *)
Definition stable (P : condition → Prop) : Prop :=
  (∀ x ch, P x → P (set_children ch x))
  ∧ (∀ x d, P x → P (set_description d x)).

(** The invariant of the HTML walk: every alias of [condition_index]
    names a node of a flushed section or of [current_conditions]. *)
Definition bcc_valid (r : ref) (st : Bcc.state) : Prop :=
  if ref_section r <? length (Bcc.sections st)
  then is_Some (node_ref r (Bcc.sections st))
  else ref_section r = length (Bcc.sections st)
       ∧ is_Some (node_top (ref_top r) (ref_path r)
                           (Bcc.current_conditions st)).

Definition bcc_inv (st : Bcc.state) : Prop :=
  map_Forall (λ _ r, bcc_valid r st) (Bcc.condition_index st).

(** The nodes that the HTML walk holds: those of the flushed sections and
    those of the conditions not yet flushed. *)
Definition bcc_nodes (st : Bcc.state) : list condition :=
  tree_nodes (Bcc.sections st) ++ flat_map all_nodes (Bcc.current_conditions st).

(** The state after a heading: the conditions so far are flushed and the
    title is replaced. *)
Definition retitled (t : text) (st : Bcc.state) : Bcc.state :=
  Bcc.State (Bcc.sections (Bcc.flush st)) t
            (Bcc.current_conditions (Bcc.flush st))
            (Bcc.condition_index (Bcc.flush st))
            (Bcc.total_conditions (Bcc.flush st)).

(** ** Timing *)

(** A timing-column value that is empty or the placeholder, whatever its
    case. *)
Definition placeholder_or_empty (col : text) : Prop :=
  col = [] ∨ lower_text col = txt "as indicated".

(** How the timing of a condition follows from its two raw values. *)
Definition timing_rule (c : condition) : Prop :=
  (¬ placeholder_or_empty (timingColumn c) →
     timing c = timingColumn c ∧ timingSource c = txt "column")
  ∧ (placeholder_or_empty (timingColumn c) → timingInline c ≠ [] →
     timing c = timingInline c ∧ timingSource c = txt "inline")
  ∧ (placeholder_or_empty (timingColumn c) → timingInline c = [] →
     timing c = timingColumn c ∧ timingSource c = txt "column").

(** ** The field extractor *)

(** The value that a match object captures: its first group, cleaned,
    when the pattern has a group that took part in the match. *)
Definition captured (m : match_obj) : text :=
  match lastindex m with
  | Some n => if 1 <=? n then _clean (default [] (group1 m)) else []
  | None => []
  end.

(** A line that is blank or that the label pattern does not match. *)
Definition not_label (label_re : text → option match_obj) (raw : text) : Prop :=
  _clean raw = [] ∨ label_re (_clean raw) = None.

(** ** Unrecognised input *)

(** The label patterns of the PDF cover page. *)
Definition logan_labels : list (text → option match_obj) :=
  [ Logan.APPLICANT_RE; Logan.APPLICATION_NUMBER_RE;
    Logan.TYPE_DESCRIPTION_RE; Logan.OFFICER_NAME_RE;
    Logan.CONTACT_NUMBER_RE; Logan.DOCUMENT_NUMBER_RE;
    Logan.STREET_ADDRESS_RE; Logan.REAL_PROPERTY_RE ].

(** A PDF line that shows no header label, no section header and no
    condition number. *)
Definition unrecognised (raw : text) : Prop :=
  Forall (λ re, not_label re raw) logan_labels
  ∧ Re.match_ Logan.SECTION_LINE_RE (_clean raw) = None
  ∧ Spec.condition_number raw = None.

(** The keys of [applicationDetails] that the PDF adapter fills. *)
Definition logan_fields : list string :=
  Spec.header_fields
  ++ [ "applicant"; "officerName"; "contactNumber"; "documentNumber" ].

(** ** Top-level entries *)

(** The sections hold a section titled [T] with a top-level condition
    numbered [n]. *)
Definition has_top (T n : text) (secs : list Sec.t) : Prop :=
  ∃ s c, s ∈ secs ∧ Sec.title s = T ∧ c ∈ Sec.conditions s ∧ number c = n.

(** The same for the HTML walk, whose current section is not yet in
    [sections]. *)
Definition bcc_has_top (T n : text) (st : Bcc.state) : Prop :=
  has_top T n (Bcc.sections st)
  ∨ (Bcc.current_section_title st = T
     ∧ ∃ c, c ∈ Bcc.current_conditions st ∧ number c = n).

(** The title of the section that is current in the PDF walk: the one
    that [current_section] names, or the UNSORTED section that a condition
    met before any header opens. *)
Definition logan_current_title (st : Logan.state) : text :=
  match Logan.current_section st with
  | Some k => default [] (Sec.title <$> Logan.sections st !! k)
  | None => _clean (txt "UNSORTED")
  end.

(** ** The lines that the PDF walk reads *)

(** The lines of [todo] that the walk reads before it stops: all of them,
    or those before the line at which the outer loop breaks. *)
Fixpoint read_lines (lines : list text) (m : Logan.mode) (i : nat)
    (todo : list text) (st : Logan.state) : list text :=
  match todo with
  | [] => []
  | raw :: todo' =>
      match Logan.turn lines i raw m st with
      | None => []
      | Some (m', st') => raw :: read_lines lines m' (S i) todo' st'
      end
  end.

Definition lines_read (lines : list text) : list text :=
  read_lines lines Logan.Outer 0 lines Logan.initial.

(** ** The form of a cleaned text *)

(** Every whitespace character is a single space that a character other
    than whitespace follows. *)
Fixpoint single_spaced (s : text) : bool :=
  match s with
  | [] => true
  | c :: s' =>
      (if is_space c
       then bool_decide (c = " "%char)
            && match s' with d :: _ => negb (is_space d) | [] => false end
       else true)
      && single_spaced s'
  end.

(** What [_clean] returns: single-spaced, with no whitespace at either
    end. *)
Definition clean_form (s : text) : bool :=
  single_spaced s && match s with c :: _ => negb (is_space c) | [] => true end.

(** The character at an end of a text, when there is one, is not
    whitespace. *)
Definition no_space_at (o : option ascii) : Prop :=
  match o with Some c => is_space c = false | None => True end.

(** A text that is not empty, as a truth value. *)
Definition nonblank (t : text) : bool := negb (bool_decide (t = [])).

(** ** The sections of the PDF walk *)

(** A section whose title starts with a digit, as the title made from a
    section header does. *)
Definition numbered (s : Sec.t) : Prop :=
  ∃ d r, Sec.title s = d :: r ∧ is_digit d = true.

(** The shape of the list of sections: an UNSORTED section can only come
    first, and then it holds a condition; every other section is
    numbered. *)
Definition sections_shape (secs : list Sec.t) : Prop :=
  match secs with
  | [] => True
  | s0 :: others =>
      ((Sec.title s0 = txt "UNSORTED" ∧ Sec.conditions s0 ≠ []) ∨ numbered s0)
      ∧ Forall numbered others
  end.

Definition logan_sections_inv (st : Logan.state) : Prop :=
  sections_shape (Logan.sections st)
  ∧ (Logan.current_section st = None → Logan.sections st = []).

(** A section after an update in place: the same title, and conditions
    if it had some. *)
Definition grows (s s' : Sec.t) : Prop :=
  Sec.title s' = Sec.title s
  ∧ (Sec.conditions s ≠ [] → Sec.conditions s' ≠ []).

(** ** Parents and children in the PDF tree *)

(** An update that keeps every node below a node where it is, with its
    number. *)
Definition keeps_numbers (f : condition → condition) : Prop :=
  ∀ x q y, node_at q x = Some y →
           ∃ y', node_at q (f x) = Some y' ∧ number y' = number y.

(** Every alias of [cond_index] names a node of the tree that carries the
    number it is filed under. *)
Definition logan_index_inv (st : Logan.state) : Prop :=
  map_Forall (λ k r, ∃ x, node_ref r (Logan.sections st) = Some x
                          ∧ number x = k)
             (Logan.cond_index st).

(** [ch] is numbered as a child of [p]: the number of [p], a dot and one
    more group of digits. *)
Definition child_of (p ch : condition) : Prop :=
  ∃ g, Spec.digits g ∧ number ch = number p ++ "."%char :: g.

Definition well_parented (c : condition) : Prop :=
  Forall (child_of c) (children c).

(** The invariant of the PDF walk that ties the tree to the numbers. *)
Definition logan_family_inv (st : Logan.state) : Prop :=
  logan_inv st ∧ logan_index_inv st
  ∧ Forall well_parented (tree_nodes (Logan.sections st)).

(** ** Topic titles *)

(** A cleaned line that can serve as the topic title of a condition: it is
    not blank, not a section or condition header, not a note, does not
    start with a digit, and is not a long sentence (more than 120
    characters, ending in a full stop or a semicolon). *)
Definition topic_candidate (t : text) : bool :=
  negb (bool_decide (t = []))
  && negb (Logan.matches Logan.SECTION_LINE_RE t)
  && negb (Logan.matches Logan.COND_INLINE_RE t
           || Logan.matches Logan.COND_NUM_ONLY_RE t)
  && negb (Logan.matches Logan.NOTE_START_RE t)
  && negb (Logan.matches (Re.sat is_digit) t)
  && negb ((120 <? length t)
           && (endswith (txt ".") t || endswith (txt ";") t)).

(** The title of a condition comes from a line of the document that is a
    topic candidate, or is empty. *)
Definition titled_from (lines : list text) (c : condition) : Prop :=
  title c = []
  ∨ ∃ j raw, lines !! j = Some raw ∧ title c = _clean raw
             ∧ topic_candidate (_clean raw) = true.

(** ** Parents and subconditions in the HTML tree *)

(** The suffix of a subcondition: a letter in parentheses, in lower
    case. *)
Definition letter_suffix (suf : text) : Prop :=
  ∃ l, Bcc.is_letter l = true ∧ suf = ["("%char; lower l; ")"%char].

(** A number of the HTML adapter: digits, then possibly such a suffix. *)
Definition bcc_number (n : text) : Prop :=
  ∃ base suf, Spec.digits base ∧ (suf = [] ∨ letter_suffix suf)
              ∧ n = base ++ suf.

(** [ch] sits under [p] as a subcondition: it has no children of its own,
    its [parentNumber] is the number of [p], and its number is that number
    with a letter suffix. *)
Definition bcc_child_of (p ch : condition) : Prop :=
  children ch = [] ∧ parentNumber ch = Some (number p)
  ∧ ∃ suf, letter_suffix suf ∧ number ch = number p ++ suf.

(** A top-level condition of the HTML result. *)
Definition bcc_top (c : condition) : Prop :=
  parentNumber c = None ∧ bcc_number (number c)
  ∧ Forall (bcc_child_of c) (children c)
  ∧ (children c ≠ [] → Spec.digits (number c)).

(** An entry of [condition_index]: the key is a run of digits and the
    alias names a top-level condition that carries it as its number. *)
Definition bcc_index_ok (st : Bcc.state) (k : text) (r : ref) : Prop :=
  ref_path r = [] ∧ Spec.digits k
  ∧ ∃ x, number x = k
         ∧ if ref_section r <? length (Bcc.sections st)
           then node_ref r (Bcc.sections st) = Some x
           else ref_section r = length (Bcc.sections st)
                ∧ node_top (ref_top r) (ref_path r)
                           (Bcc.current_conditions st) = Some x.

Definition bcc_family_inv (st : Bcc.state) : Prop :=
  Forall bcc_top (top_level (Bcc.sections st))
  ∧ Forall bcc_top (Bcc.current_conditions st)
  ∧ map_Forall (bcc_index_ok st) (Bcc.condition_index st).

(** ** The sections of the HTML walk *)

(** Where the title of a section of the HTML result comes from: the
    initial title, or the cleaned text of a bold run that is not a
    condition header and that a table mentioning timing follows. *)
Definition bcc_heading (bs : list Bcc.bold) (t : text) : Prop :=
  t = txt "General"
  ∨ ∃ b, b ∈ bs ∧ t = _clean (Bcc.b_text b) ∧ t ≠ []
         ∧ Spec.is_header b = false
         ∧ Bcc._table_looks_like_timing_header (Bcc.b_next_table b) = true.

Definition bcc_section_ok (bs : list Bcc.bold) (s : Sec.t) : Prop :=
  Sec.conditions s ≠ [] ∧ bcc_heading bs (Sec.title s).

Definition bcc_sections_inv (bs : list Bcc.bold) (st : Bcc.state) : Prop :=
  Forall (bcc_section_ok bs) (Bcc.sections st)
  ∧ bcc_heading bs (Bcc.current_section_title st).

(** ** Two-column tables *)

(** The label and the value that a row of a two-column table gives: the
    cleaned text of its first cell without the colons that end it, and the
    cleaned text of its second cell; none when the row has fewer than two
    cells. *)
Definition row_label (row : list text) : option text :=
  match row with
  | td0 :: _ :: _ => Some (Bcc.rstrip_char ":"%char (_clean td0))
  | _ => None
  end.

Definition row_value (row : list text) : option text :=
  match row with
  | _ :: td1 :: _ => Some (_clean td1)
  | _ => None
  end.

(** ** Documents *)

(** The three texts of a document that come from the cells of its row are
    in clean form, and one of them at least is not empty. *)
Definition doc_row_ok (d : Doc.t) : Prop :=
  clean_form (Doc.title d) = true ∧ clean_form (Doc.number d) = true
  ∧ clean_form (Doc.planDate d) = true
  ∧ (Doc.title d ≠ [] ∨ Doc.number d ≠ [] ∨ Doc.planDate d ≠ []).

(** [preparedBy] is short and holds no bar: it is empty, or the cleaned
    text that stands before the first bar of the number. *)
Definition prepared_by_ok (d : Doc.t) : Prop :=
  length (Doc.preparedBy d) ≤ 60 ∧ ("|"%char ∉ Doc.preparedBy d)
  ∧ (Doc.preparedBy d = []
     ∨ ∃ l r, (Doc.number d = l ++ "|"%char :: r) ∧ ("|"%char ∉ l)
              ∧ Doc.preparedBy d = _clean l).

(** ** Normalised lines *)

(** A line as the parsers expect it: not empty and in clean form. *)
Definition line_ok (l : text) : Prop := l ≠ [] ∧ clean_form l = true.

(** A text without any decimal digit. *)
Definition no_digit (s : text) : Prop := Forall (λ c, is_digit c = false) s.

(** ** The type and description of the application *)

(** The value that the PDF adapter files under
    [aspectsOfDevelopmentAndTypeOfApproval]. *)
Definition logan_type_desc (lines : list text) (plans : list Logan.Plan.t)
  : text :=
  default [] (Parsed.applicationDetails
                (Logan.parse_logan_conditions_pdf lines plans)
              !! "aspectsOfDevelopmentAndTypeOfApproval").

(** A raw line in which the label TYPE & DESCRIPTION is found. *)
Definition has_type_label (ln : text) : Prop :=
  is_Some (Re.search (Logan.type_label (Re.star is_space)) ln).

(** ** The permit of the conditions *)

(** A text that [str.strip] leaves as it is, and that is not empty. *)
Definition stripped (a : text) : Prop := a ≠ [] ∧ strip a = a.

(** What the header of the conditions gives: cleaned texts for the permit
    and the stage, the stage never the placeholder, and activities that
    are stripped and not empty. *)
Definition permit_info_ok (p : Bcc.PermitInfo.t) : Prop :=
  clean_form (Bcc.PermitInfo.permitToWhichTheseConditionsRelate p) = true
  ∧ clean_form (Bcc.PermitInfo.stage p) = true
  ∧ Bcc.PermitInfo.stage p ≠ txt "&nbsp;"
  ∧ Forall stripped (Bcc.PermitInfo.activities p).

(** ** Revision codes in a number field *)

(** The engine at position [k] of [s]: the character before the position
    and the text from it on. *)
Definition cursor_at (s : text) (k : nat) : Re.cursor :=
  Re.Cursor (last (take k s)) (drop k s).

(** The keyword of a revision code, in any case: Rev, Issue, or CO and
    Issue with whitespace between them. *)
Definition revision_keyword (w : text) : Prop :=
  lower_text w = txt "rev" ∨ lower_text w = txt "issue"
  ∨ ∃ sp', sp' ≠ [] ∧ Forall (λ x, is_space x = true) sp'
           ∧ lower_text w = txt "co" ++ sp' ++ txt "issue".

(** A revision code: a keyword, whitespace, and a code of letters and
    digits. *)
Definition revision_code (g : text) : Prop :=
  ∃ w sp code,
    g = w ++ sp ++ code ∧ revision_keyword w
    ∧ sp ≠ [] ∧ Forall (λ x, is_space x = true) sp
    ∧ code ≠ [] ∧ Forall (λ x, Bcc.is_alnum x = true) code.

(** The revision code [g] stands in [s] at position [k]: no word
    character touches it on either side. *)
Definition revision_at (s : text) (k : nat) (g : text) : Prop :=
  ∃ pre post,
    s = pre ++ g ++ post ∧ length pre = k ∧ revision_code g
    ∧ Re.is_word_at (last pre) = false
    ∧ Re.is_word_at (head post) = false.

(** No revision code stands in [s] before position [k]. *)
Definition first_revision_at (s : text) (k : nat) (g : text) : Prop :=
  revision_at s k g ∧ ∀ k' g', k' < k → ¬ revision_at s k' g'.

(** What [NOTE_START_RE] takes for the start of a note: one of its four
    openings, in any case, and a word boundary after it.  After the
    opening that ends in a letter the boundary asks for a character that
    is not a word character (or the end of the line); after the three that
    end in a colon it asks for a word character, so a colon followed by a
    space does not start a note. *)
Definition note_start (t : text) : Prop :=
  ∃ g r, t = g ++ r
    ∧ ((lower_text g = txt "this condition is imposed under"
        ∧ Re.is_word_at (head r) = false)
       ∨ ((lower_text g = txt "further advice:"
           ∨ lower_text g = txt "advice note:"
           ∨ lower_text g = txt "note:")
          ∧ Re.is_word_at (head r) = true)).

(** ** The permit reference inside the file reference *)

(** The label that [PERMIT_INLINE_RE] looks for, in lower case. *)
Definition permit_label : text := txt "permit reference number/s:".

(** The label stands in [cr] between [a] and [b], in any case, with some
    text after it, and no place further to the left holds the label with
    text after it. *)
Definition inline_permit (cr a b : text) : Prop :=
  ∃ l, cr = a ++ l ++ b ∧ lower_text l = permit_label ∧ b ≠ []
       ∧ ∀ a' l' b', cr = a' ++ l' ++ b' → lower_text l' = permit_label →
                     b' ≠ [] → length a ≤ length a'.

(* ================================================================== *)
(** * Lemmas on lists and on the condition tree                         *)
(* ================================================================== *)

Lemma condition_ind' (P : condition → Prop) :
  (∀ c, Forall P (children c) → P c) → ∀ c, P c.
Proof.
  intros H. fix IH 1. intros [n t d ti ts tc tin m ch pn].
  apply H. simpl. induction ch as [|x ch IHch]; constructor; auto.
Qed.

Lemma foldl_add_sum {A} (f : A → nat) (l : list A) (a : nat) :
  foldl (λ n x, n + f x) a l = a + sum_list (map f l).
Proof.
  revert a. induction l as [|x l IH]; intros a; simpl; [lia|].
  rewrite IH. lia.
Qed.

Lemma length_flat_map {A B} (f : A → list B) (l : list A) :
  length (flat_map f l) = sum_list (map (λ x, length (f x)) l).
Proof.
  induction l as [|x l IH]; simpl; [done|]. rewrite length_app, IH. done.
Qed.

Lemma all_nodes_unfold (c : condition) :
  all_nodes c = c :: flat_map all_nodes (children c).
Proof. destruct c; reflexivity. Qed.

Lemma walk_unfold (c : condition) :
  Logan.walk c = foldl (λ n ch, n + Logan.walk ch) 1 (children c).
Proof. destruct c; reflexivity. Qed.

Lemma walk_all_nodes (c : condition) : Logan.walk c = length (all_nodes c).
Proof.
  induction c as [c IH] using condition_ind'.
  rewrite walk_unfold, all_nodes_unfold, foldl_add_sum. simpl.
  rewrite length_flat_map. f_equal.
  induction IH as [|x l Hx _ IHl]; simpl; [done|]. by rewrite Hx, IHl.
Qed.

Lemma count_conditions_tree_nodes (secs : list Sec.t) :
  Logan._count_conditions secs = length (tree_nodes secs).
Proof.
  unfold Logan._count_conditions, tree_nodes.
  assert (∀ a, foldl (λ total s,
             foldl (λ total c, total + Logan.walk c) total (Sec.conditions s))
             a secs
           = a + length (flat_map (λ s, flat_map all_nodes (Sec.conditions s))
                                  secs)) as H; [|by rewrite H].
  induction secs as [|s secs IH]; intros a; simpl; [lia|].
  rewrite IH, foldl_add_sum, length_app, (length_flat_map all_nodes).
  rewrite (map_ext _ _ walk_all_nodes). lia.
Qed.

(** ** The size of the tree under an update in place *)

Lemma flat_map_alter_length {A B} (F : A → list B) (g : A → A) (j : nat)
    (l : list A) (x : A) (d : nat) :
  l !! j = Some x →
  length (F (g x)) = length (F x) + d →
  length (flat_map F (alter g j l)) = length (flat_map F l) + d.
Proof.
  revert j. induction l as [|y l IH]; intros [|j] Hj Hg; simplify_eq/=.
  - rewrite !length_app. lia.
  - rewrite !length_app, (IH j) by done. lia.
Qed.

Lemma flat_map_alter_length_same {A B} (F : A → list B) (g : A → A)
    (j : nat) (l : list A) :
  (∀ x, length (F (g x)) = length (F x)) →
  length (flat_map F (alter g j l)) = length (flat_map F l).
Proof.
  intros Hg. revert j. induction l as [|y l IH]; intros [|j]; simpl; [done..| |].
  - rewrite !length_app. by rewrite Hg.
  - rewrite !length_app. f_equal. apply IH.
Qed.

Lemma all_nodes_set_children (ch : list condition) (c : condition) :
  all_nodes (set_children ch c) = set_children ch c :: flat_map all_nodes ch.
Proof. reflexivity. Qed.

Lemma size_alter_at (f : condition → condition) (d : nat) (p : list nat) :
  (∀ x, length (all_nodes (f x)) = length (all_nodes x) + d) →
  ∀ c, is_Some (node_at p c) →
  length (all_nodes (alter_at f p c)) = length (all_nodes c) + d.
Proof.
  intros Hf. induction p as [|j p IH]; intros c Hc; [apply Hf|].
  cbn [alter_at node_at] in *.
  destruct (children c !! j) as [x|] eqn:Hx; simpl in Hc;
    [|by destruct Hc].
  rewrite all_nodes_set_children, (all_nodes_unfold c).
  cbn [length]. rewrite (flat_map_alter_length _ _ _ _ x d); [lia|done|].
  by apply IH.
Qed.

Lemma size_alter_at_same (f : condition → condition) (p : list nat) :
  (∀ x, length (all_nodes (f x)) = length (all_nodes x)) →
  ∀ c, length (all_nodes (alter_at f p c)) = length (all_nodes c).
Proof.
  intros Hf. induction p as [|j p IH]; intros c; [apply Hf|].
  cbn [alter_at]. rewrite all_nodes_set_children, (all_nodes_unfold c).
  cbn [length]. by rewrite flat_map_alter_length_same.
Qed.

Lemma size_alter_top f d j p cs :
  (∀ x, length (all_nodes (f x)) = length (all_nodes x) + d) →
  is_Some (node_top j p cs) →
  length (flat_map all_nodes (alter_top f j p cs))
  = length (flat_map all_nodes cs) + d.
Proof.
  intros Hf Hn. unfold node_top in Hn. unfold alter_top.
  destruct (cs !! j) as [x|] eqn:Hx; simpl in Hn; [|by destruct Hn].
  apply (flat_map_alter_length _ _ _ _ x); [done|]. by apply size_alter_at.
Qed.

Lemma size_alter_top_same f j p cs :
  (∀ x, length (all_nodes (f x)) = length (all_nodes x)) →
  length (flat_map all_nodes (alter_top f j p cs))
  = length (flat_map all_nodes cs).
Proof.
  intros Hf. unfold alter_top. apply flat_map_alter_length_same.
  intros x. by apply size_alter_at_same.
Qed.

Lemma size_alter_ref f d r secs :
  (∀ x, length (all_nodes (f x)) = length (all_nodes x) + d) →
  is_Some (node_ref r secs) →
  length (tree_nodes (alter_ref f r secs)) = length (tree_nodes secs) + d.
Proof.
  intros Hf Hn. unfold node_ref in Hn. unfold alter_ref, tree_nodes.
  destruct (secs !! ref_section r) as [s|] eqn:Hs; simpl in Hn;
    [|by destruct Hn].
  apply (flat_map_alter_length _ _ _ _ s); [done|]. simpl.
  by apply size_alter_top.
Qed.

Lemma size_alter_ref_same f r secs :
  (∀ x, length (all_nodes (f x)) = length (all_nodes x)) →
  length (tree_nodes (alter_ref f r secs)) = length (tree_nodes secs).
Proof.
  intros Hf. unfold alter_ref, tree_nodes. apply flat_map_alter_length_same.
  intros s. simpl. by apply size_alter_top_same.
Qed.

Lemma size_append_child (c x : condition) :
  length (all_nodes (append_child c x))
  = length (all_nodes x) + length (all_nodes c).
Proof.
  unfold append_child. rewrite all_nodes_set_children, (all_nodes_unfold x).
  simpl. rewrite flat_map_app, length_app. simpl. rewrite app_nil_r. lia.
Qed.

Lemma size_set_description (d : text) (x : condition) :
  length (all_nodes (set_description d x)) = length (all_nodes x).
Proof. by rewrite (all_nodes_unfold x). Qed.

Lemma tree_nodes_app (s1 s2 : list Sec.t) :
  tree_nodes (s1 ++ s2) = tree_nodes s1 ++ tree_nodes s2.
Proof. unfold tree_nodes. apply flat_map_app. Qed.

(** ** References stay valid under updates in place *)

Lemma node_at_alter_at (f : condition → condition) (p : list nat) :
  keeps_nodes f →
  ∀ q c, is_Some (node_at q c) → is_Some (node_at q (alter_at f p c)).
Proof.
  intros Hf. induction p as [|j p IH]; intros q c Hq; [by apply Hf|].
  destruct q as [|i q]; [by eexists|].
  cbn [alter_at node_at] in *. destruct c as [n t d ti ts tc tin m ch pn].
  cbn [children set_children] in *.
  destruct (decide (i = j)) as [->|Hne].
  - rewrite list_lookup_alter_eq. destruct (ch !! j) as [x|]; simpl in *;
      [by apply IH|done].
  - by rewrite list_lookup_alter_ne.
Qed.

Lemma node_top_alter_top f j p i q cs :
  keeps_nodes f →
  is_Some (node_top i q cs) → is_Some (node_top i q (alter_top f j p cs)).
Proof.
  intros Hf. unfold node_top, alter_top. destruct (decide (i = j)) as [->|Hne].
  - rewrite list_lookup_alter_eq. destruct (cs !! j) as [x|]; simpl; [|done].
    by apply node_at_alter_at.
  - by rewrite list_lookup_alter_ne.
Qed.

Lemma node_ref_alter_ref f r q secs :
  keeps_nodes f →
  is_Some (node_ref q secs) → is_Some (node_ref q (alter_ref f r secs)).
Proof.
  intros Hf. unfold node_ref, alter_ref.
  destruct (decide (ref_section q = ref_section r)) as [->|Hne].
  - rewrite list_lookup_alter_eq. destruct (secs !! ref_section r) as [s|];
      simpl; [|done]. by apply node_top_alter_top.
  - by rewrite list_lookup_alter_ne.
Qed.

Lemma keeps_nodes_append_child (c : condition) : keeps_nodes (append_child c).
Proof.
  intros x [|i q] Hq; [by eexists|].
  destruct x as [n t d ti ts tc tin m ch pn]. cbn in *.
  destruct (ch !! i) as [y|] eqn:Hy; simpl in Hq; [|by destruct Hq].
  by rewrite (lookup_app_l_Some _ _ _ _ Hy).
Qed.

Lemma keeps_nodes_set_description (g : condition → text) :
  keeps_nodes (λ c, set_description (g c) c).
Proof. intros x [|i q] Hq; [by eexists|]. by destruct x. Qed.

(** The child appended below the node at [p] is the last child there. *)
Lemma node_at_appended (c : condition) (p : list nat) :
  ∀ x y, node_at p x = Some y →
  node_at (p ++ [length (children y)]) (alter_at (append_child c) p x)
  = Some c.
Proof.
  induction p as [|j p IH]; intros x y Hy.
  - simplify_eq/=. destruct y as [n t d ti ts tc tin m ch pn]. cbn.
    by rewrite list_lookup_middle.
  - cbn [alter_at node_at app] in *.
    destruct x as [n t d ti ts tc tin m ch pn].
    cbn [children set_children] in *.
    destruct (ch !! j) as [z|] eqn:Hz; simpl in Hy; [|done].
    rewrite list_lookup_alter_eq, Hz. simpl. by apply IH.
Qed.

Lemma node_ref_appended (c : condition) (r : ref) (secs : list Sec.t) y :
  node_ref r secs = Some y →
  node_ref (Ref (ref_section r) (ref_top r)
                (ref_path r ++ [length (children y)]))
           (alter_ref (append_child c) r secs) = Some c.
Proof.
  unfold node_ref, alter_ref, node_top, alter_top. cbn [ref_section ref_top ref_path].
  intros Hy. rewrite list_lookup_alter_eq.
  destruct (secs !! ref_section r) as [s|]; simpl in *; [|done].
  rewrite list_lookup_alter_eq.
  destruct (Sec.conditions s !! ref_top r) as [x|]; simpl in *; [|done].
  by apply node_at_appended.
Qed.

(** ** A property of every node, under updates in place *)

Lemma Forall_flat_map_alter {A B} (P : B → Prop) (F : A → list B)
    (g : A → A) (j : nat) (l : list A) :
  (∀ x, Forall P (F x) → Forall P (F (g x))) →
  Forall P (flat_map F l) → Forall P (flat_map F (alter g j l)).
Proof.
  intros Hg. revert j. induction l as [|y l IH]; intros [|j] H; simpl in *;
    try done; apply Forall_app in H as [H1 H2]; apply Forall_app; split; auto.
  apply IH. done.
Qed.

Lemma Forall_nodes_alter_at (P : condition → Prop) f p :
  (∀ x ch, P x → P (set_children ch x)) →
  (∀ x, Forall P (all_nodes x) → Forall P (all_nodes (f x))) →
  ∀ c, Forall P (all_nodes c) → Forall P (all_nodes (alter_at f p c)).
Proof.
  intros HP Hf. induction p as [|j p IH]; intros c Hc; [by apply Hf|].
  cbn [alter_at]. rewrite all_nodes_set_children.
  rewrite (all_nodes_unfold c) in Hc. apply Forall_cons in Hc as [Hc1 Hc2].
  constructor; [by apply HP|]. by apply Forall_flat_map_alter.
Qed.

Lemma Forall_nodes_alter_top (P : condition → Prop) f j p cs :
  (∀ x ch, P x → P (set_children ch x)) →
  (∀ x, Forall P (all_nodes x) → Forall P (all_nodes (f x))) →
  Forall P (flat_map all_nodes cs) →
  Forall P (flat_map all_nodes (alter_top f j p cs)).
Proof.
  intros HP Hf. unfold alter_top. apply Forall_flat_map_alter.
  by apply Forall_nodes_alter_at.
Qed.

Lemma Forall_nodes_alter_ref (P : condition → Prop) f r secs :
  (∀ x ch, P x → P (set_children ch x)) →
  (∀ x, Forall P (all_nodes x) → Forall P (all_nodes (f x))) →
  Forall P (tree_nodes secs) → Forall P (tree_nodes (alter_ref f r secs)).
Proof.
  intros HP Hf. unfold alter_ref, tree_nodes. apply Forall_flat_map_alter.
  intros s. simpl. by apply Forall_nodes_alter_top.
Qed.

Lemma Forall_nodes_append_child (P : condition → Prop) c x :
  (∀ x ch, P x → P (set_children ch x)) →
  Forall P (all_nodes c) →
  Forall P (all_nodes x) → Forall P (all_nodes (append_child c x)).
Proof.
  intros HP Hc Hx. unfold append_child. rewrite all_nodes_set_children.
  rewrite (all_nodes_unfold x) in Hx. apply Forall_cons in Hx as [Hx1 Hx2].
  constructor; [by apply HP|]. rewrite flat_map_app. apply Forall_app.
  split; [done|]. simpl. by rewrite app_nil_r.
Qed.

(* ================================================================== *)
(** * What a success of a matcher tells                                 *)
(* ================================================================== *)

Section matcher_lemmas.
Import Re.

Lemma in_ret {A} (a x : A) (c c' : cursor) :
  (a, c') ∈ ret x c ↔ a = x ∧ c' = c.
Proof.
  unfold ret. rewrite list_elem_of_singleton. split; [by intros [= -> ->]|].
  by intros [-> ->].
Qed.

Lemma in_bind {A B} (m : matcher A) (k : A → matcher B) b c c'' :
  (b, c'') ∈ bind m k c ↔ ∃ a c', (a, c') ∈ m c ∧ (b, c'') ∈ k a c'.
Proof.
  unfold bind. rewrite list_elem_of_bind. split.
  - intros [[a c'] [H1 H2]]. eauto.
  - intros (a & c' & H1 & H2). exists (a, c'). eauto.
Qed.

Lemma in_mbind {A B} (m : matcher A) (k : A → matcher B) b c c'' :
  (b, c'') ∈ (m ≫= k) c ↔ ∃ a c', (a, c') ∈ m c ∧ (b, c'') ∈ k a c'.
Proof. apply in_bind. Qed.

Lemma in_mret {A} (a x : A) (c c' : cursor) :
  (a, c') ∈ (mret x : matcher A) c ↔ a = x ∧ c' = c.
Proof. apply in_ret. Qed.

Lemma in_alt {A} (m1 m2 : matcher A) a c c' :
  (a, c') ∈ alt m1 m2 c ↔ (a, c') ∈ m1 c ∨ (a, c') ∈ m2 c.
Proof. unfold alt. apply elem_of_app. Qed.

Lemma in_sat p x c c' :
  (x, c') ∈ sat p c ↔ p x = true ∧ rest c = x :: rest c' ∧ before c' = Some x.
Proof.
  unfold sat. destruct c as [b [|y r]]; simpl.
  - split; [by intros ?%elem_of_nil|by intros (_ & ? & _)].
  - destruct (p y) eqn:Hp.
    + rewrite list_elem_of_singleton. split.
      * by intros [= -> ->].
      * destruct c' as [b' r']. simpl. intros (_ & [= -> ->] & ->). done.
    + split; [by intros ?%elem_of_nil|].
      intros (Hx & [= -> _] & _). congruence.
Qed.

Lemma in_chr a x c c' :
  (x, c') ∈ chr a c ↔ x = a ∧ rest c = a :: rest c' ∧ before c' = Some a.
Proof.
  unfold chr. rewrite in_sat, bool_decide_eq_true.
  split; intros (-> & ? & ?); done.
Qed.

Lemma in_star_run p b s t c' :
  (t, c') ∈ star_run p b s → Forall (λ x, p x = true) t ∧ s = t ++ rest c'.
Proof.
  revert b t. induction s as [|x s IH]; intros b t; simpl.
  - rewrite list_elem_of_singleton. by intros [= -> ->].
  - destruct (p x) eqn:Hp.
    + rewrite elem_of_app, list_elem_of_fmap, list_elem_of_singleton.
      intros [([t' c''] & [= -> ->] & Hin)|[= -> ->]]; [|done].
      apply IH in Hin as [? ?]. simpl in *. split; [by constructor|].
      by f_equal.
    + rewrite list_elem_of_singleton. by intros [= -> ->].
Qed.

Lemma in_star p t c c' :
  (t, c') ∈ star p c → Forall (λ x, p x = true) t ∧ rest c = t ++ rest c'.
Proof. apply in_star_run. Qed.

Lemma in_plus p t c c' :
  (t, c') ∈ plus p c →
  t ≠ [] ∧ Forall (λ x, p x = true) t ∧ rest c = t ++ rest c'.
Proof.
  unfold plus. rewrite in_bind. intros (x & c1 & Hx & H).
  apply in_bind in H as (t' & c2 & Ht & H). apply in_ret in H as [-> ->].
  apply in_sat in Hx as (Hp & Hr & _). apply in_star in Ht as [Hall Hr'].
  split; [done|]. split; [by constructor|]. rewrite Hr, Hr'. done.
Qed.

Lemma in_lit_with eqc s t c c' :
  (t, c') ∈ lit_with eqc s c →
  Forall2 (λ a x, eqc a x = true) s t ∧ rest c = t ++ rest c'.
Proof.
  revert t c. induction s as [|a s IH]; intros t c; simpl.
  - rewrite in_ret. by intros [-> ->].
  - rewrite in_bind. intros (x & c1 & Hx & H).
    apply in_bind in H as (t' & c2 & Ht & H). apply in_ret in H as [-> ->].
    apply in_sat in Hx as (Hp & Hr & _). apply IH in Ht as [Hall Hr'].
    split; [by constructor|]. rewrite Hr, Hr'. done.
Qed.

Lemma in_eol u c c' :
  (u, c') ∈ eol c → c' = c ∧ (rest c = [] ∨ rest c = [newline]).
Proof.
  unfold eol. destruct c as [b [|x [|y r]]]; simpl.
  - rewrite list_elem_of_singleton. intros [= -> ->]. auto.
  - case_bool_decide as Hx; [|by intros ?%elem_of_nil].
    rewrite list_elem_of_singleton. intros [= -> ->]. subst. auto.
  - by intros ?%elem_of_nil.
Qed.

Lemma in_wordb u c c' : (u, c') ∈ wordb c → c' = c.
Proof.
  unfold wordb. destruct (xorb _ _); [|by intros ?%elem_of_nil].
  rewrite list_elem_of_singleton. by intros [= -> ->].
Qed.

Lemma match_Some {A} (m : matcher A) s a :
  match_ m s = Some a → ∃ c', (a, c') ∈ m (Cursor None s).
Proof.
  unfold match_. destruct (m (Cursor None s)) as [|[a' c'] l]; [done|].
  simpl. intros [= ->]. exists c'. apply list_elem_of_here.
Qed.

Lemma search_from_Some {A} (m : matcher A) b pos s p a :
  search_from m b pos s = Some (p, a) →
  ∃ k b' c', p = pos + k ∧ k ≤ length s ∧ (a, c') ∈ m (Cursor b' (drop k s)).
Proof.
  revert b pos. induction s as [|x s IH]; intros b pos; simpl.
  - destruct (m (Cursor b [])) as [|[a' c'] l] eqn:Hm; simpl; [done|].
    intros [= <- <-]. exists 0, b, c'. simpl. rewrite Hm.
    split; [lia|]. split; [done|]. apply list_elem_of_here.
  - destruct (m (Cursor b (x :: s))) as [|[a' c'] l] eqn:Hm; simpl.
    + intros H. apply IH in H as (k & b' & c' & -> & Hk & Hin).
      exists (S k), b', c'. split; [lia|]. split; [lia|done].
    + intros [= <- <-]. exists 0, b, c'. simpl. rewrite Hm.
      split; [lia|]. split; [lia|]. apply list_elem_of_here.
Qed.

Lemma search_Some {A} (m : matcher A) s p a :
  search m s = Some (p, a) →
  p ≤ length s ∧ ∃ b' c', (a, c') ∈ m (Cursor b' (drop p s)).
Proof.
  intros H. apply search_from_Some in H as (k & b' & c' & -> & Hk & Hin).
  eauto.
Qed.

End matcher_lemmas.

(* ================================================================== *)
(** * The patterns of the PDF adapter                                   *)
(* ================================================================== *)

Section logan_patterns.
Import Re Logan.

Ltac all_chars x :=
  destruct x as [[] [] [] [] [] [] [] []]; vm_compute; try done.

Lemma digit_not_space x : is_digit x = true → is_space x = false.
Proof. all_chars x. Qed.

Lemma digit_not_dot x : is_digit x = true → x ≠ "."%char.
Proof. all_chars x. Qed.

Lemma space_not_dot x : is_space x = true → x ≠ "."%char.
Proof. all_chars x. Qed.

Lemma nocase_F_not_digit x : eq_nocase "F"%char x = true → is_digit x = false.
Proof. all_chars x. Qed.

Lemma in_dot_digits t c c' :
  (t, c') ∈ dot_digits c →
  ∃ g, Spec.digits g ∧ t = "."%char :: g ∧ rest c = t ++ rest c'.
Proof.
  unfold dot_digits. rewrite in_mbind. intros (a & c1 & Ha & H).
  apply in_mbind in H as (ds & c2 & Hds & H). apply in_mret in H as [-> ->].
  apply in_chr in Ha as (-> & Hr & _). apply in_plus in Hds as (Hne & Hall & Hr').
  exists ds. split; [by split|]. split; [done|]. rewrite Hr, Hr'. done.
Qed.

Lemma in_dot_groups n t c c' :
  (t, c') ∈ star_of_fuel n dot_digits c →
  ∃ gs, Forall Spec.digits gs
        ∧ t = concat (map (λ g, "."%char :: g) gs)
        ∧ rest c = t ++ rest c'.
Proof.
  revert t c. induction n as [|n IH]; intros t c; simpl.
  - rewrite in_ret. intros [-> ->]. exists []. by split; [constructor|].
  - rewrite in_alt, in_bind, in_ret.
    intros [(a & c1 & Ha & H)|[-> ->]];
      [|exists []; by split; [constructor|]].
    apply in_bind in H as (t' & c2 & Ht & H). apply in_ret in H as [-> ->].
    apply in_dot_digits in Ha as (g & Hg & -> & Hr).
    apply IH in Ht as (gs & Hgs & -> & Hr').
    exists (g :: gs). split; [by constructor|]. split; [done|].
    rewrite Hr, Hr'. simpl. by rewrite <-app_assoc.
Qed.

Lemma in_dotted_number t c c' :
  (t, c') ∈ dotted_number c → Spec.dotted t ∧ rest c = t ++ rest c'.
Proof.
  unfold dotted_number. rewrite in_mbind. intros (d & c1 & Hd & H).
  apply in_mbind in H as (gs & c2 & Hgs & H). apply in_mret in H as [-> ->].
  apply in_plus in Hd as (Hne & Hall & Hr).
  unfold plus_of in Hgs. apply in_bind in Hgs as (a & c3 & Ha & H).
  apply in_bind in H as (t' & c4 & Ht & H). apply in_ret in H as [-> ->].
  apply in_dot_digits in Ha as (g & Hg & -> & Hr1).
  apply in_dot_groups in Ht as (gl & Hgl & -> & Hr2).
  split.
  - exists d, (g :: gl). split; [by split|]. split; [done|].
    split; [by constructor|done].
  - rewrite Hr, Hr1, Hr2. rewrite <-(app_assoc d). f_equal. simpl.
    by rewrite <-app_assoc.
Qed.

(** A dotted number holds a dot and no whitespace, so [_clean] leaves it
    as it is. *)
Lemma dotted_has_dot t : Spec.dotted t → "."%char ∈ t.
Proof.
  intros (d & gs & _ & Hne & _ & ->). destruct gs as [|g gs]; [done|].
  simpl. rewrite !elem_of_app, elem_of_cons. auto.
Qed.

Lemma digits_no_space g : Spec.digits g → Forall (λ x, is_space x = false) g.
Proof. intros [_ H]. eapply Forall_impl; [done|]. apply digit_not_space. Qed.

Lemma dotted_no_space t : Spec.dotted t → Forall (λ x, is_space x = false) t.
Proof.
  intros (d & gs & Hd & _ & Hgs & ->). apply Forall_app. split.
  - by apply digits_no_space.
  - clear Hd. induction Hgs as [|g gs Hg _ IH]; simpl; [done|].
    constructor; [done|]. apply Forall_app. split; [|done].
    by apply digits_no_space.
Qed.

Lemma lstrip_no_space t : Forall (λ x, is_space x = false) t → lstrip t = t.
Proof. intros [|x l Hx _]; simpl; [done|]. by rewrite Hx. Qed.

Lemma sub_ws_no_space t b :
  Forall (λ x, is_space x = false) t → sub_ws b t = t.
Proof.
  intros H. revert b. induction H as [|x l Hx _ IH]; intros b; simpl; [done|].
  by rewrite Hx, IH.
Qed.

Lemma clean_no_space t : Forall (λ x, is_space x = false) t → _clean t = t.
Proof.
  intros H. unfold _clean, strip, rstrip.
  rewrite (lstrip_no_space t H), (lstrip_no_space (reverse t)).
  - rewrite reverse_involutive. by apply sub_ws_no_space.
  - by apply Forall_reverse.
Qed.

Lemma clean_dotted t : Spec.dotted t → _clean t = t.
Proof. intros H. by apply clean_no_space, dotted_no_space. Qed.

End logan_patterns.

Section logan_lines.
Import Re Logan.

Lemma digits_prefix_unique (a b r1 r2 : text) (x y : ascii) :
  Forall (λ c, is_digit c = true) a → Forall (λ c, is_digit c = true) b →
  is_digit x = false → is_digit y = false →
  a ++ x :: r1 = b ++ y :: r2 → a = b ∧ x = y ∧ r1 = r2.
Proof.
  intros Ha. revert b. induction Ha as [|c a Hc _ IH]; intros b Hb Hx Hy.
  - destruct Hb as [|c' b Hc' _]; simpl; [by intros [= -> ->]|].
    intros [= -> _]. congruence.
  - destruct Hb as [|c' b Hc' Hb]; simpl.
    + intros [= -> _]. congruence.
    + intros [= -> H]. apply IH in H as (-> & -> & ->); done.
Qed.

Lemma dotted_shape num :
  Spec.dotted num →
  ∃ d x r, d ≠ [] ∧ Forall (λ c, is_digit c = true) d ∧ is_digit x = true
           ∧ num = d ++ "."%char :: x :: r.
Proof.
  intros (d & gs & [Hdne Hd] & Hne & Hgs & ->).
  destruct Hgs as [|g gs [Hg1 Hg2] _]; [done|].
  destruct Hg2 as [|x g Hx _]; [done|].
  exists d, x, (g ++ concat (map (λ g, "."%char :: g) gs)). done.
Qed.

Lemma cond_inline_inv line num body :
  match_ COND_INLINE_RE line = Some (num, body) →
  Spec.dotted num ∧ ∃ w r, line = num ++ "."%char :: w :: r
                           ∧ is_space w = true.
Proof.
  intros (c' & H)%match_Some. unfold COND_INLINE_RE in H.
  apply in_mbind in H as (n & c1 & Hn & H).
  apply in_mbind in H as (a & c2 & Ha & H).
  apply in_mbind in H as (ws & c3 & Hws & H).
  apply in_mbind in H as (bd & c4 & Hbd & H).
  apply in_mbind in H as (u & c5 & Hu & H).
  apply in_mret in H as [[= -> ->] ->].
  apply in_dotted_number in Hn as [Hd Hr]. simpl in Hr.
  apply in_chr in Ha as (_ & Hr1 & _).
  apply in_plus in Hws as (Hne & Hall & Hr2).
  split; [done|]. destruct Hall as [|w ws Hw _]; [done|].
  exists w, (ws ++ rest c3). split; [|done]. rewrite Hr, Hr1, Hr2. done.
Qed.

Lemma cond_num_only_inv line num :
  match_ COND_NUM_ONLY_RE line = Some num →
  Spec.dotted num ∧ ∃ r, line = num ++ "."%char :: r
                         ∧ Forall (λ x, is_space x = true) r.
Proof.
  intros (c' & H)%match_Some. unfold COND_NUM_ONLY_RE in H.
  apply in_mbind in H as (n & c1 & Hn & H).
  apply in_mbind in H as (a & c2 & Ha & H).
  apply in_mbind in H as (ws & c3 & Hws & H).
  apply in_mbind in H as (u & c5 & Hu & H).
  apply in_mret in H as [-> ->].
  apply in_dotted_number in Hn as [Hd Hr]. simpl in Hr.
  apply in_chr in Ha as (_ & Hr1 & _).
  apply in_star in Hws as (Hall & Hr2).
  apply in_eol in Hu as [-> Hend].
  split; [done|]. exists (ws ++ rest c3). split.
  - rewrite Hr, Hr1, Hr2. done.
  - apply Forall_app. split; [done|].
    destruct Hend as [->| ->]; [done|]. by repeat constructor.
Qed.

Lemma section_inv line g1 g2 :
  match_ SECTION_LINE_RE line = Some (g1, g2) →
  Forall (λ c, is_digit c = true) g1
  ∧ ∃ w r, line = g1 ++ "."%char :: w :: r ∧ is_space w = true.
Proof.
  intros (c' & H)%match_Some. unfold SECTION_LINE_RE in H.
  apply in_mbind in H as (n & c1 & Hn & H).
  apply in_mbind in H as (a & c2 & Ha & H).
  apply in_mbind in H as (ws & c3 & Hws & H).
  apply in_mbind in H as (h & c4 & Hh & H).
  apply in_mbind in H as (t & c5 & Ht & H).
  apply in_mbind in H as (ws' & c6 & Hws' & H).
  apply in_mbind in H as (u & c7 & Hu & H).
  apply in_mret in H as [[= -> ->] ->].
  apply in_plus in Hn as (_ & Hd & Hr). simpl in Hr.
  apply in_chr in Ha as (_ & Hr1 & _).
  apply in_plus in Hws as (Hne & Hall & Hr2).
  split; [done|]. destruct Hall as [|w ws Hw _]; [done|].
  exists w, (ws ++ rest c3). split; [|done]. rewrite Hr, Hr1, Hr2. done.
Qed.

(** A section header is not a condition line: after the first run of
    digits and the dot, the one shows whitespace and the other a digit. *)
Lemma section_not_dotted line g1 w r num rest' :
  Forall (λ c, is_digit c = true) g1 → is_space w = true →
  line = g1 ++ "."%char :: w :: r →
  Spec.dotted num → line = num ++ rest' → False.
Proof.
  intros Hg1 Hw -> (d & x & r' & _ & Hd & Hx & ->)%dotted_shape Heq.
  rewrite <-app_assoc in Heq. simpl in Heq.
  apply digits_prefix_unique in Heq as (_ & _ & [= -> _]); try done.
  by rewrite (digit_not_space _ Hx) in Hw.
Qed.

Lemma section_not_cond_inline line :
  is_Some (match_ SECTION_LINE_RE line) → match_ COND_INLINE_RE line = None.
Proof.
  intros [[g1 g2] (Hg1 & w & r & Hl & Hw)%section_inv].
  destruct (match_ COND_INLINE_RE line) as [[num body]|] eqn:Hc; [|done].
  apply cond_inline_inv in Hc as (Hd & w' & r' & Hl' & _).
  by destruct (section_not_dotted _ _ _ _ _ _ Hg1 Hw Hl Hd Hl').
Qed.

Lemma section_not_cond_num_only line :
  is_Some (match_ SECTION_LINE_RE line) → match_ COND_NUM_ONLY_RE line = None.
Proof.
  intros [[g1 g2] (Hg1 & w & r & Hl & Hw)%section_inv].
  destruct (match_ COND_NUM_ONLY_RE line) as [num|] eqn:Hc; [|done].
  apply cond_num_only_inv in Hc as (Hd & r' & Hl' & _).
  by destruct (section_not_dotted _ _ _ _ _ _ Hg1 Hw Hl Hd Hl').
Qed.

Lemma matches_true {A} (m : matcher A) line :
  matches m line = true ↔ is_Some (match_ m line).
Proof. unfold matches. apply bool_decide_eq_true. Qed.

Lemma matches_false {A} (m : matcher A) line :
  matches m line = false ↔ match_ m line = None.
Proof.
  unfold matches. rewrite bool_decide_eq_false, <-eq_None_not_Some. done.
Qed.

End logan_lines.

(* ================================================================== *)
(** * The PDF walk, step by step                                        *)
(* ================================================================== *)

Section logan_steps.
Import Re Logan.

Lemma tree_nodes_snoc_empty secs t :
  tree_nodes (secs ++ [Sec.Make t []]) = tree_nodes secs.
Proof. rewrite tree_nodes_app. simpl. by rewrite app_nil_r. Qed.

Lemma node_ref_app_l r secs more :
  is_Some (node_ref r secs) → is_Some (node_ref r (secs ++ more)).
Proof.
  unfold node_ref. destruct (secs !! ref_section r) as [s|] eqn:Hs;
    simpl; [|by intros []].
  by rewrite (lookup_app_l_Some _ _ _ _ Hs).
Qed.

Lemma ensure_section_inv t st : logan_inv st → logan_inv (ensure_section t st).
Proof.
  intros [Hi Hc]. split; simpl.
  - eapply map_Forall_impl; [done|]. intros ? r. apply node_ref_app_l.
  - intros k [= <-]. rewrite length_app. simpl. lia.
Qed.

(** The section that receives a top-level condition. *)
Lemma size_push c k secs s :
  secs !! k = Some s →
  length (tree_nodes
    (alter (λ s, Sec.set_conditions (Sec.conditions s ++ [c]) s) k secs))
  = length (tree_nodes secs) + length (all_nodes c).
Proof.
  intros Hs. unfold tree_nodes.
  apply (flat_map_alter_length _ _ _ _ s); [done|]. simpl.
  rewrite flat_map_app, length_app. simpl. by rewrite app_nil_r.
Qed.

Lemma Forall_nodes_push (P : condition → Prop) c k secs :
  Forall P (all_nodes c) → Forall P (tree_nodes secs) →
  Forall P (tree_nodes
    (alter (λ s, Sec.set_conditions (Sec.conditions s ++ [c]) s) k secs)).
Proof.
  intros Hc. unfold tree_nodes. apply Forall_flat_map_alter.
  intros s Hs. simpl. rewrite flat_map_app. apply Forall_app.
  split; [done|]. simpl. by rewrite app_nil_r.
Qed.

Lemma node_ref_push c k secs r :
  is_Some (node_ref r secs) →
  is_Some (node_ref r
     (alter (λ s, Sec.set_conditions (Sec.conditions s ++ [c]) s) k secs)).
Proof.
  unfold node_ref. destruct (decide (ref_section r = k)) as [<-|Hne].
  - rewrite list_lookup_alter_eq.
    destruct (secs !! ref_section r) as [s|]; simpl; [|done].
    unfold node_top. simpl.
    destruct (Sec.conditions s !! ref_top r) as [x|] eqn:Hx; simpl;
      [|by intros []].
    by rewrite (lookup_app_l_Some _ _ _ _ Hx).
  - by rewrite list_lookup_alter_ne.
Qed.

Lemma node_ref_pushed c k secs s :
  secs !! k = Some s →
  node_ref (Ref k (length (Sec.conditions s)) [])
     (alter (λ s, Sec.set_conditions (Sec.conditions s ++ [c]) s) k secs)
  = Some c.
Proof.
  intros Hs. unfold node_ref, node_top. simpl.
  rewrite list_lookup_alter_eq, Hs. simpl. by rewrite list_lookup_middle.
Qed.

(** [attach_condition] puts a childless condition into the tree: the
    tree gains exactly that node, every alias stays valid and the alias
    returned names the new node. *)
Lemma attach_condition_spec c st st' r :
  logan_inv st → children c = [] →
  attach_condition c st = (st', r) →
  logan_inv st'
  ∧ length (tree_nodes (sections st')) = S (length (tree_nodes (sections st)))
  ∧ node_ref r (sections st') = Some c
  ∧ cond_index st' = cond_index st
  ∧ (∀ P : condition → Prop, stable P → P c →
       Forall P (tree_nodes (sections st)) →
       Forall P (tree_nodes (sections st'))).
Proof.
  intros Hinv Hch. unfold attach_condition.
  assert (all_nodes c = [c]) as Hc by (by rewrite all_nodes_unfold, Hch).
  destruct (if contains_char "." (number c)
            then cond_index st !! parent_number (number c) else None)
    as [r0|] eqn:Hp.
  - intros [= <- <-]. simpl.
    assert (is_Some (node_ref r0 (sections st))) as [y Hy].
    { destruct (contains_char "." (number c)); [|done].
      by apply (proj1 Hinv) in Hp. }
    rewrite Hy. repeat split; [| | |by apply node_ref_appended|].
    + eapply map_Forall_impl; [apply Hinv|]. intros ? q.
      apply node_ref_alter_ref, keeps_nodes_append_child.
    + simpl. intros k Hk. unfold alter_ref. rewrite length_alter.
      by apply Hinv.
    + rewrite (size_alter_ref _ 1); [lia| |by rewrite Hy].
      intros x. by rewrite size_append_child, Hc.
    + intros P [HP1 HP2] HPc. apply Forall_nodes_alter_ref; [done|].
      intros x. apply Forall_nodes_append_child; [done|].
      rewrite Hc. by constructor.
  - set (st1 := match current_section st with
                | Some _ => st
                | None => ensure_section (txt "UNSORTED") st
                end).
    assert (logan_inv st1) as [Hi1 Hc1].
    { unfold st1. destruct (current_section st); [done|].
      by apply ensure_section_inv. }
    assert (length (tree_nodes (sections st1))
            = length (tree_nodes (sections st))) as Hsz.
    { unfold st1. destruct (current_section st); [done|].
      simpl. by rewrite tree_nodes_snoc_empty. }
    assert (∀ P : condition → Prop, Forall P (tree_nodes (sections st)) →
              Forall P (tree_nodes (sections st1))) as HF.
    { intros P. unfold st1. destruct (current_section st); [done|].
      simpl. by rewrite tree_nodes_snoc_empty. }
    assert (cond_index st1 = cond_index st) as Hidx.
    { unfold st1. by destruct (current_section st). }
    assert (∃ k, current_section st1 = Some k) as [k Hk].
    { unfold st1. destruct (current_section st) eqn:E; simpl; eauto. }
    rewrite Hk. simpl. pose proof (Hc1 k Hk) as Hlt.
    destruct (lookup_lt_is_Some_2 _ _ Hlt) as [s Hs]. rewrite Hs.
    intros [= <- <-]. simpl. repeat split; [| | |by apply node_ref_pushed| |].
    + eapply map_Forall_impl; [apply Hi1|]. intros ? q. apply node_ref_push.
    + simpl. intros k' [= <-]. by rewrite length_alter.
    + rewrite (size_push _ _ _ s), Hc by done. simpl. lia.
    + done.
    + intros P _ HPc HPs. apply Forall_nodes_push; [|by apply HF].
      rewrite Hc. by constructor.
Qed.

Lemma new_condition_childless num t d : children (_new_condition num t d) = [].
Proof. reflexivity. Qed.

Lemma open_condition_spec num t d st st' r :
  logan_inv st →
  open_condition num t d st = (st', r) →
  logan_inv st'
  ∧ length (tree_nodes (sections st')) = S (length (tree_nodes (sections st)))
  ∧ node_ref r (sections st') = Some (_new_condition num t d)
  ∧ cond_index st' = <[num := r]> (cond_index st)
  ∧ (∀ P : condition → Prop, stable P → P (_new_condition num t d) →
       Forall P (tree_nodes (sections st)) →
       Forall P (tree_nodes (sections st'))).
Proof.
  intros Hinv. unfold open_condition.
  destruct (attach_condition (_new_condition num t d) st) as [st1 r1] eqn:Ha.
  intros [= <- <-].
  apply attach_condition_spec in Ha as ([Hi Hc] & Hsz & Hr & Hidx & HF);
    [|done|done].
  simpl. split_and!; [|done|done|by rewrite Hidx|done].
  split; [|done]. simpl. apply map_Forall_insert_2; [by rewrite Hr|done].
Qed.

Lemma extend_description_spec r nxt st :
  logan_inv st →
  logan_inv (extend_description r nxt st)
  ∧ length (tree_nodes (sections (extend_description r nxt st)))
    = length (tree_nodes (sections st))
  ∧ (∀ P : condition → Prop, stable P →
       Forall P (tree_nodes (sections st)) →
       Forall P (tree_nodes (sections (extend_description r nxt st)))).
Proof.
  intros [Hi Hc]. unfold extend_description. simpl. split_and!.
  - split; simpl.
    + eapply map_Forall_impl; [done|]. intros ? q.
      apply (node_ref_alter_ref (λ c, set_description _ c)).
      apply (keeps_nodes_set_description
               (λ c, _safe_join (description c) nxt)).
    + intros k Hk. unfold alter_ref. rewrite length_alter. by apply Hc.
  - apply size_alter_ref_same. intros x. apply size_set_description.
  - intros P [HP1 HP2]. apply Forall_nodes_alter_ref; [done|].
    intros x. rewrite (all_nodes_unfold x). intros [Hx Hch]%Forall_cons.
    constructor; [by apply HP2|done].
Qed.

Lemma clean_empty_not_condition raw :
  _clean raw = [] → Spec.condition_number raw = None.
Proof. intros H. unfold Spec.condition_number. by rewrite H. Qed.

(** What one turn of the outer loop, and what one line, does to the
    state. *)
Lemma outer_turn_cases lines i raw st m' st' :
  outer_turn lines i (_clean raw) st = Some (m', st') →
  (st' = st ∧ Spec.condition_number raw = None)
  ∨ (∃ r nxt, st' = extend_description r nxt st
              ∧ Spec.condition_number raw = None)
  ∨ (∃ t, st' = ensure_section t st ∧ Spec.condition_number raw = None)
  ∨ (∃ num t d r, open_condition num t d st = (st', r)
                  ∧ m' = Continuation r
                  ∧ Spec.condition_number raw = Some num
                  ∧ Spec.dotted num).
Proof.
  unfold outer_turn.
  destruct (matches FURTHER_ADVICE_TO_APPLICANT_RE (_clean raw)
            || matches FURTHER_ADVICE_RE (_clean raw)); [done|].
  destruct (match_ SECTION_LINE_RE (_clean raw)) as [[g1 g2]|] eqn:Hs.
  { intros [= <- <-]. right. right. left. eexists. split; [done|].
    unfold Spec.condition_number.
    rewrite section_not_cond_inline, section_not_cond_num_only; eauto. }
  unfold Spec.condition_number.
  destruct (match_ COND_INLINE_RE (_clean raw)) as [[num desc]|] eqn:Hci.
  { destruct (open_condition num _ desc st) as [st1 r] eqn:Ho.
    intros [= <- <-]. right. right. right. eexists _, _, _, _.
    split; [done|]. split; [done|]. split; [done|].
    by apply cond_inline_inv in Hci as [? _]. }
  destruct (match_ COND_NUM_ONLY_RE (_clean raw)) as [num|] eqn:Hcn.
  { destruct (open_condition num _ [] st) as [st1 r] eqn:Ho.
    intros [= <- <-]. right. right. right. eexists _, _, _, _.
    split; [done|]. split; [done|]. split; [done|].
    by apply cond_num_only_inv in Hcn as [? _]. }
  intros [= <- <-]. by left.
Qed.

Lemma turn_cases lines i raw m st m' st' :
  turn lines i raw m st = Some (m', st') →
  (st' = st ∧ Spec.condition_number raw = None)
  ∨ (∃ r nxt, st' = extend_description r nxt st
              ∧ Spec.condition_number raw = None)
  ∨ (∃ t, st' = ensure_section t st ∧ Spec.condition_number raw = None)
  ∨ (∃ num t d r, open_condition num t d st = (st', r)
                  ∧ m' = Continuation r
                  ∧ Spec.condition_number raw = Some num
                  ∧ Spec.dotted num).
Proof.
  unfold turn. case_bool_decide as Hline.
  { intros [= <- <-]. left. split; [done|].
    by apply clean_empty_not_condition. }
  destruct m as [|r]; [apply outer_turn_cases|].
  destruct (is_marker (_clean raw)) eqn:Hm; [apply outer_turn_cases|].
  intros [= <- <-]. right. left. eexists _, _. split; [done|].
  revert Hm. unfold is_marker. rewrite !orb_false_iff, !matches_false.
  intros [[_ H1] H2]. unfold Spec.condition_number. by rewrite H1, H2.
Qed.

(** The walk stops only at an end marker. *)
Lemma turn_None lines i raw m st :
  turn lines i raw m st = None → Spec.is_end_marker raw = true.
Proof.
  unfold turn. case_bool_decide; [done|].
  assert (outer_turn lines i (_clean raw) st = None →
          Spec.is_end_marker raw = true) as Hout.
  { unfold outer_turn, Spec.is_end_marker.
    destruct (matches FURTHER_ADVICE_TO_APPLICANT_RE (_clean raw)
              || matches FURTHER_ADVICE_RE (_clean raw)); [done|].
    destruct (match_ SECTION_LINE_RE _) as [[??]|]; [done|].
    destruct (match_ COND_INLINE_RE _) as [[??]|];
      [by destruct (open_condition _ _ _ _)|].
    destruct (match_ COND_NUM_ONLY_RE _); [by destruct (open_condition _ _ _ _)|].
    done. }
  destruct m as [|r]; [done|]. by destruct (is_marker _).
Qed.

Lemma number_new_condition num t d :
  Spec.dotted num → number (_new_condition num t d) = num.
Proof. intros H. simpl. by apply clean_dotted. Qed.

(** One line keeps the invariant; it adds one node exactly when it is a
    condition line; and it keeps every stable property of the nodes that
    the new conditions have. *)
Lemma turn_spec lines i raw m st m' st' :
  logan_inv st →
  turn lines i raw m st = Some (m', st') →
  logan_inv st'
  ∧ length (tree_nodes (sections st'))
    = length (tree_nodes (sections st))
      + (if Spec.is_condition_line raw then 1 else 0)
  ∧ (∀ P : condition → Prop, stable P →
       (∀ num t d, Spec.dotted num → P (_new_condition num t d)) →
       Forall P (tree_nodes (sections st)) →
       Forall P (tree_nodes (sections st'))).
Proof.
  intros Hinv Ht. unfold Spec.is_condition_line.
  apply turn_cases in Ht
    as [[-> ->]|[(r & nxt & -> & ->)|[(t & -> & ->)
       |(num & t & d & r & Ho & _ & -> & Hd)]]].
  - split_and!; [done|lia|done].
  - destruct (extend_description_spec r nxt st Hinv) as (? & ? & ?).
    split_and!; [done|lia|auto].
  - pose proof (ensure_section_inv t st Hinv).
    split_and!; [done| |]; simpl; rewrite tree_nodes_snoc_empty;
      [lia|done].
  - apply open_condition_spec in Ho as (? & ? & _ & _ & HF); [|done].
    split_and!; [done|lia|]. intros P HP Hnew. apply HF; auto.
Qed.

Lemma walk_lines_spec lines todo :
  ∀ m i st, logan_inv st →
  logan_inv (walk_lines lines m i todo st)
  ∧ (Forall (λ raw, Spec.is_end_marker raw = false) todo →
     length (tree_nodes (sections (walk_lines lines m i todo st)))
     = length (tree_nodes (sections st)) + Spec.condition_lines todo)
  ∧ (∀ P : condition → Prop, stable P →
       (∀ num t d, Spec.dotted num → P (_new_condition num t d)) →
       Forall P (tree_nodes (sections st)) →
       Forall P (tree_nodes (sections (walk_lines lines m i todo st)))).
Proof.
  induction todo as [|raw todo IH]; intros m i st Hinv; simpl.
  { unfold Spec.condition_lines. simpl. split_and!; [done|lia|done]. }
  destruct (turn lines i raw m st) as [[m' st']|] eqn:Ht.
  - apply turn_spec in Ht as (Hinv' & Hsz & HF); [|done].
    destruct (IH m' (S i) st' Hinv') as (Hinv'' & Hsz' & HF').
    split; [done|]. split.
    + intros [Hraw Htodo]%Forall_cons. rewrite Hsz' by done. rewrite Hsz.
      unfold Spec.condition_lines. simpl.
      destruct (Spec.is_condition_line raw); simpl; lia.
    + intros P HP Hnew HPs. apply HF'; auto.
  - split; [done|]. split; [|done].
    intros [Hraw _]%Forall_cons. apply turn_None in Ht. congruence.
Qed.

Lemma tree_nodes_drop_empty_unsorted secs :
  tree_nodes (drop_empty_unsorted secs) = tree_nodes secs.
Proof.
  unfold drop_empty_unsorted. destruct secs as [|s0 others]; [done|].
  case_bool_decide; [|done].
  destruct (Sec.conditions s0) as [|c cs] eqn:Hc;
    [|by rewrite andb_false_r].
  destruct (existsb _ _); [|done]. simpl.
  unfold tree_nodes. simpl. by rewrite Hc.
Qed.

Lemma initial_inv : logan_inv initial.
Proof. split; [apply map_Forall_empty|done]. Qed.

(** The walk adds one node for each condition line that it reads. *)
Lemma walk_lines_read lines todo :
  ∀ m i st, logan_inv st →
  length (tree_nodes (sections (walk_lines lines m i todo st)))
  = length (tree_nodes (sections st))
    + Spec.condition_lines (read_lines lines m i todo st).
Proof.
  induction todo as [|raw todo IH]; intros m i st Hinv; simpl.
  { unfold Spec.condition_lines. simpl. lia. }
  destruct (turn lines i raw m st) as [[m' st']|] eqn:Ht.
  - apply turn_spec in Ht as (Hinv' & Hsz & _); [|done].
    rewrite (IH m' (S i) st' Hinv'), Hsz.
    unfold Spec.condition_lines. simpl.
    destruct (Spec.is_condition_line raw); simpl; lia.
  - unfold Spec.condition_lines. simpl. lia.
Qed.

(** The lines read are a prefix of the lines, and the line that follows
    them, when there is one, is an end marker. *)
Lemma read_lines_prefix lines todo :
  ∀ m i st,
    ∃ rest, todo = read_lines lines m i todo st ++ rest
            ∧ (rest = [] ∨ ∃ raw rest', rest = raw :: rest'
                                        ∧ Spec.is_end_marker raw = true).
Proof.
  induction todo as [|raw todo IH]; intros m i st; simpl.
  { exists []. by split; [|left]. }
  destruct (turn lines i raw m st) as [[m' st']|] eqn:Ht.
  - destruct (IH m' (S i) st') as (rest & Heq & Hrest).
    exists rest. split; [|done]. simpl. by rewrite <-Heq.
  - exists (raw :: todo). split; [done|]. right.
    exists raw, todo. split; [done|]. by eapply turn_None.
Qed.

Lemma read_lines_all lines todo :
  ∀ m i st, Forall (λ raw, Spec.is_end_marker raw = false) todo →
            read_lines lines m i todo st = todo.
Proof.
  induction todo as [|raw todo IH]; intros m i st Hall; simpl; [done|].
  apply Forall_cons in Hall as [Hraw Hall].
  destruct (turn lines i raw m st) as [[m' st']|] eqn:Ht.
  - by rewrite IH.
  - apply turn_None in Ht. congruence.
Qed.

End logan_steps.

(* ================================================================== *)
(** * The HTML walk, step by step                                       *)
(* ================================================================== *)

Section bcc_steps.
Import Re Bcc.

Lemma flush_spec st :
  bcc_inv st →
  bcc_inv (flush st)
  ∧ bcc_nodes (flush st) = bcc_nodes st
  ∧ total_conditions (flush st) = total_conditions st
  ∧ current_conditions (flush st) = [].
Proof.
  intros Hinv. unfold flush.
  destruct (current_conditions st) as [|c cs] eqn:Hcur; [by rewrite Hcur|].
  split_and!; [| |done..].
  - eapply map_Forall_impl; [done|]. intros ? r. unfold bcc_valid. simpl.
    rewrite length_app. simpl.
    destruct (ref_section r <? length (sections st)) eqn:Hlt.
    + apply Nat.ltb_lt in Hlt.
      replace (ref_section r <? length (sections st) + 1) with true
        by (symmetry; apply Nat.ltb_lt; lia).
      apply node_ref_app_l.
    + intros [Heq Hn].
      replace (ref_section r <? length (sections st) + 1) with true
        by (symmetry; apply Nat.ltb_lt; lia).
      unfold node_ref. rewrite Heq, list_lookup_middle by done. simpl.
      by rewrite <-Hcur.
  - unfold bcc_nodes. simpl. rewrite tree_nodes_app, Hcur. simpl.
    unfold tree_nodes. simpl. by rewrite !app_nil_r.
Qed.

Lemma append_to_parent_spec r c st :
  bcc_inv st → bcc_valid r st →
  bcc_inv (append_to_parent r c st)
  ∧ length (bcc_nodes (append_to_parent r c st))
    = length (bcc_nodes st) + length (all_nodes c)
  ∧ total_conditions (append_to_parent r c st) = total_conditions st
  ∧ (∀ P : condition → Prop, stable P → Forall P (all_nodes c) →
       Forall P (bcc_nodes st) →
       Forall P (bcc_nodes (append_to_parent r c st))).
Proof.
  intros Hinv Hr. unfold append_to_parent, bcc_valid in *.
  destruct (ref_section r <? length (sections st)) eqn:Hlt.
  - split_and!; [| |done|].
    + eapply map_Forall_impl; [done|]. intros ? q. unfold bcc_valid. simpl.
      unfold alter_ref at 1 3. rewrite length_alter.
      destruct (ref_section q <? length (sections st)); [|done].
      apply node_ref_alter_ref, keeps_nodes_append_child.
    + unfold bcc_nodes. simpl. rewrite !length_app.
      rewrite (size_alter_ref _ (length (all_nodes c))); [lia| |done].
      apply size_append_child.
    + intros P [HP1 HP2] HPc. unfold bcc_nodes. simpl.
      intros [H1 H2]%Forall_app. apply Forall_app. split; [|done].
      apply Forall_nodes_alter_ref; [done| |done].
      intros x. by apply Forall_nodes_append_child.
  - destruct Hr as [Heq Hn]. split_and!; [| |done|].
    + eapply map_Forall_impl; [done|]. intros ? q. unfold bcc_valid. simpl.
      destruct (ref_section q <? length (sections st)); [done|].
      intros [? ?]. split; [done|].
      apply node_top_alter_top; [apply keeps_nodes_append_child|done].
    + unfold bcc_nodes. simpl. rewrite !length_app.
      rewrite (size_alter_top _ (length (all_nodes c))); [lia| |done].
      apply size_append_child.
    + intros P [HP1 HP2] HPc. unfold bcc_nodes. simpl.
      intros [H1 H2]%Forall_app. apply Forall_app. split; [done|].
      apply Forall_nodes_alter_top; [done| |done].
      intros x. by apply Forall_nodes_append_child.
Qed.

Lemma append_current_spec c st :
  bcc_inv st →
  bcc_inv (append_current c st)
  ∧ length (bcc_nodes (append_current c st))
    = length (bcc_nodes st) + length (all_nodes c)
  ∧ total_conditions (append_current c st) = total_conditions st
  ∧ bcc_valid (Ref (length (sections st)) (length (current_conditions st)) [])
              (append_current c st)
  ∧ (∀ P : condition → Prop, Forall P (all_nodes c) →
       Forall P (bcc_nodes st) → Forall P (bcc_nodes (append_current c st))).
Proof.
  intros Hinv. unfold append_current. split_and!; [| |done| |].
  - eapply map_Forall_impl; [done|]. intros ? q. unfold bcc_valid. simpl.
    destruct (ref_section q <? length (sections st)); [done|].
    intros [? Hn]. split; [done|]. unfold node_top in *.
    destruct (current_conditions st !! ref_top q) as [x|] eqn:Hx;
      simpl in Hn; [|by destruct Hn].
    by rewrite (lookup_app_l_Some _ _ _ _ Hx).
  - unfold bcc_nodes. simpl. rewrite flat_map_app, !length_app. simpl.
    rewrite app_nil_r. lia.
  - unfold bcc_valid. simpl. rewrite Nat.ltb_irrefl. split; [done|].
    unfold node_top. by rewrite list_lookup_middle.
  - intros P HPc. unfold bcc_nodes. simpl.
    intros [H1 H2]%Forall_app. rewrite flat_map_app. simpl.
    rewrite app_nil_r. rewrite !Forall_app. done.
Qed.

Lemma all_nodes_childless c : children c = [] → all_nodes c = [c].
Proof. intros H. by rewrite all_nodes_unfold, H. Qed.

(** Placing a childless condition adds exactly that node and counts it. *)
Lemma place_condition_spec base suffix c st :
  bcc_inv st → children c = [] →
  bcc_inv (place_condition base suffix c st)
  ∧ length (bcc_nodes (place_condition base suffix c st))
    = S (length (bcc_nodes st))
  ∧ total_conditions (place_condition base suffix c st)
    = S (total_conditions st)
  ∧ (∀ P : condition → Prop, stable P →
       P c → P (set_parentNumber base c) →
       Forall P (bcc_nodes st) →
       Forall P (bcc_nodes (place_condition base suffix c st))).
Proof.
  intros Hinv Hch. unfold place_condition.
  pose proof (all_nodes_childless c Hch) as Hc.
  destruct (negb (bool_decide (suffix = []))).
  - destruct (condition_index st !! base) as [r|] eqn:Hr.
    + pose proof (Hinv _ _ Hr) as Hv.
      destruct (append_to_parent_spec r (set_parentNumber base c) st Hinv Hv)
        as (Hi & Hsz & Htot & HF).
      split_and!; [done| | |].
      * change (length (bcc_nodes (append_to_parent r
                  (set_parentNumber base c) st))
                = S (length (bcc_nodes st))).
        rewrite Hsz. rewrite all_nodes_childless by done. simpl. lia.
      * simpl in *. congruence.
      * intros P HP _ HPc. apply HF; [done|].
        rewrite all_nodes_childless by done. by constructor.
    + destruct (append_current_spec c st Hinv) as (Hi & Hsz & Htot & _ & HF).
      split_and!; [done| | |].
      * change (length (bcc_nodes (append_current c st))
                = S (length (bcc_nodes st))).
        rewrite Hsz, Hc. simpl. lia.
      * simpl in *. congruence.
      * intros P _ HPc _. apply HF. rewrite Hc. by constructor.
  - destruct (append_current_spec c st Hinv) as (Hi & Hsz & Htot & Hv & HF).
    split_and!.
    + unfold bcc_inv. simpl. apply map_Forall_insert_2; [done|].
      eapply map_Forall_impl; [exact Hi|]. done.
    + change (length (bcc_nodes (append_current c st))
              = S (length (bcc_nodes st))).
      rewrite Hsz, Hc. simpl. lia.
    + simpl in *. congruence.
    + intros P _ HPc _. apply HF. rewrite Hc. by constructor.
Qed.

Lemma build_condition_children n t c0 c1 :
  children (build_condition n t c0 c1) = [].
Proof.
  unfold build_condition.
  destruct (_extract_proof_of_fulfilment _) as [d m].
  destruct (_extract_inline_timing d) as [cd it].
  by destruct (resolve_timing _ it).
Qed.

(** What one bold run does to the state. *)
Lemma visit_cases b st :
  (Spec.accepted b = false
   ∧ (visit b st = st ∨ ∃ t, visit b st = retitled t st))
  ∨ (Spec.accepted b = true
     ∧ ∃ base suffix title c0 c1,
         Spec.header b = Some (base, suffix, title)
         ∧ Spec.row_cells b = Some (c0, c1)
         ∧ visit b st
           = place_condition base suffix
               (build_condition (base ++ suffix) title c0 c1) st).
Proof.
  unfold visit, Spec.accepted, Spec.is_header, Spec.header, Spec.row_cells.
  case_bool_decide as Ht; [left; auto|].
  destruct (match_ COND_RE (_clean (b_text b))) as [[[base g2] g3]|].
  - destruct (b_row b) as [[|c0 [|c1 cells]]|]; [left; auto..| |left; auto].
    right. split; [done|]. by eexists _, _, _, _, _.
  - left. split; [done|].
    destruct (_table_looks_like_timing_header _); [right; by eexists|by left].
Qed.

Lemma retitled_spec t st :
  bcc_inv st →
  bcc_inv (retitled t st)
  ∧ bcc_nodes (retitled t st) = bcc_nodes st
  ∧ total_conditions (retitled t st) = total_conditions st.
Proof.
  intros Hinv. destruct (flush_spec st Hinv) as (Hi & Hn & Ht & _).
  split_and!; [exact Hi|exact Hn|exact Ht].
Qed.

Lemma visit_spec b st :
  bcc_inv st →
  bcc_inv (visit b st)
  ∧ length (bcc_nodes (visit b st))
    = length (bcc_nodes st) + (if Spec.accepted b then 1 else 0)
  ∧ total_conditions (visit b st)
    = total_conditions st + (if Spec.accepted b then 1 else 0)
  ∧ (∀ P : condition → Prop, stable P →
       (∀ n t c0 c1, P (build_condition n t c0 c1)) →
       (∀ x p, P x → P (set_parentNumber p x)) →
       Forall P (bcc_nodes st) → Forall P (bcc_nodes (visit b st))).
Proof.
  intros Hinv.
  destruct (visit_cases b st)
    as [[-> [->|[t ->]]]|[-> (base & sf & ti & c0 & c1 & _ & _ & ->)]].
  - split_and!; [done|lia|lia|done].
  - destruct (retitled_spec t st Hinv) as (? & Hn & ?).
    rewrite Hn. split_and!; [done|lia|lia|done].
  - destruct (place_condition_spec base sf
                (build_condition (base ++ sf) ti c0 c1) st Hinv
                (build_condition_children _ _ _ _)) as (? & ? & ? & HF).
    split_and!; [done|lia|lia|]. intros P HP Hb Hp. apply HF; auto.
Qed.

Lemma foldl_visit_spec bs :
  ∀ st, bcc_inv st →
  let st' := foldl (λ st b, visit b st) st bs in
  bcc_inv st'
  ∧ length (bcc_nodes st')
    = length (bcc_nodes st) + length (List.filter Spec.accepted bs)
  ∧ total_conditions st'
    = total_conditions st + length (List.filter Spec.accepted bs)
  ∧ (∀ P : condition → Prop, stable P →
       (∀ n t c0 c1, P (build_condition n t c0 c1)) →
       (∀ x p, P x → P (set_parentNumber p x)) →
       Forall P (bcc_nodes st) → Forall P (bcc_nodes st')).
Proof.
  induction bs as [|b bs IH]; intros st Hinv; simpl.
  { split_and!; [done|lia|lia|done]. }
  destruct (visit_spec b st Hinv) as (Hi & Hsz & Htot & HF).
  destruct (IH (visit b st) Hi) as (Hi' & Hsz' & Htot' & HF').
  split_and!; [done| | |].
  - rewrite Hsz', Hsz. destruct (Spec.accepted b); simpl; lia.
  - rewrite Htot', Htot. destruct (Spec.accepted b); simpl; lia.
  - intros P HP Hb Hp HPs. apply HF'; auto.
Qed.

Lemma bcc_initial_inv : bcc_inv initial.
Proof. apply map_Forall_empty. Qed.

(** The pair that [_parse_conditions] returns, in terms of the bold runs
    that the walk accepts. *)
Lemma bcc_parse_conditions_spec bs :
  length (tree_nodes (_parse_conditions bs).1)
  = length (List.filter Spec.accepted bs)
  ∧ (_parse_conditions bs).2 = length (List.filter Spec.accepted bs)
  ∧ (∀ P : condition → Prop, stable P →
       (∀ n t c0 c1, P (build_condition n t c0 c1)) →
       (∀ x p, P x → P (set_parentNumber p x)) →
       Forall P (tree_nodes (_parse_conditions bs).1)).
Proof.
  unfold _parse_conditions, run. simpl.
  destruct (foldl_visit_spec bs initial bcc_initial_inv)
    as (Hi & Hsz & Htot & HF). simpl in *.
  destruct (flush_spec _ Hi) as (_ & Hn & Ht & Hcur).
  assert (∀ st, current_conditions st = [] →
            bcc_nodes st = tree_nodes (sections st)) as Hnodes.
  { intros st H. unfold bcc_nodes. rewrite H. simpl. apply app_nil_r. }
  rewrite <-(Hnodes _ Hcur), Hn, Ht. split_and!; [done..|].
  intros P HP Hb Hp. apply HF; auto.
Qed.

End bcc_steps.

(* ================================================================== *)
(** * The count of conditions                                           *)
(* ================================================================== *)

(** C2 — for both adapters, [summary.numberOfConditions] of the result is
    the number of condition nodes that a full traversal of
    [conditions.sections] reaches, every top-level condition and every
    nested child counted once. *)
Theorem C2_count_is_full_traversal :
  (∀ page : Bcc.soup,
     Summary.numberOfConditions
       (Parsed.summary (Bcc.parse_bcc_conditions_html page))
     = length (tree_nodes
                 (Parsed.sections (Bcc.parse_bcc_conditions_html page))))
  ∧ (∀ (lines : list text) (plans : list Logan.Plan.t),
       Summary.numberOfConditions
         (Parsed.summary (Logan.parse_logan_conditions_pdf lines plans))
       = length (tree_nodes
                   (Parsed.sections
                      (Logan.parse_logan_conditions_pdf lines plans)))).
Proof.
  split.
  - intros page. unfold Bcc.parse_bcc_conditions_html.
    destruct (bcc_parse_conditions_spec (Bcc.bolds page)) as (H1 & H2 & _).
    destruct (Bcc._parse_conditions (Bcc.bolds page)) as [secs total].
    simpl in *. congruence.
  - intros lines plans. unfold Logan.parse_logan_conditions_pdf.
    destruct (Logan._extract_logan_application_details lines) as [ad ex].
    simpl. apply count_conditions_tree_nodes.
Qed.

(** The two places where a walk passes over a marker on purpose: a line
    that matches a condition-number pattern after the end marker gives no
    node, and neither does a bold run that matches the header pattern
    outside a table row. *)
Lemma walk_stop_and_row_guard :
  (Spec.condition_lines [txt "FURTHER ADVICE"; txt "2.1. Build the fence"] = 1
   ∧ length (tree_nodes
       (Logan._parse_conditions
          [txt "FURTHER ADVICE"; txt "2.1. Build the fence"])) = 0)
  ∧ (length (List.filter Spec.is_header
               [Bcc.Bold (txt "8 Fence") None None]) = 1
     ∧ length (tree_nodes
         (Bcc._parse_conditions [Bcc.Bold (txt "8 Fence") None None]).1) = 0).
Proof. vm_compute. done. Qed.

(** What the two walks keep of what they are handed: the tree holds
    exactly one node for each bold run that matches the header pattern and
    sits in a table row with at least two cells, and one for each line
    that matches a condition-number pattern among the lines that the PDF
    walk reads before it stops at an end marker, which are all the lines
    when none of them is an end marker. *)
Lemma walks_keep_accepted_markers :
  (∀ bs : list Bcc.bold,
     length (tree_nodes (Bcc._parse_conditions bs).1)
     = length (List.filter Spec.accepted bs))
  ∧ (∀ lines : list text,
       Forall (λ raw, Spec.is_end_marker raw = false) lines →
       length (tree_nodes (Logan._parse_conditions lines))
       = Spec.condition_lines lines)
  ∧ (∀ lines : list text,
       length (tree_nodes (Logan._parse_conditions lines))
       = Spec.condition_lines (lines_read lines)
       ∧ ∃ rest, lines = lines_read lines ++ rest
                 ∧ (rest = []
                    ∨ (∃ raw rest', rest = raw :: rest'
                                    ∧ Spec.is_end_marker raw = true))).
Proof.
  split_and!.
  - intros bs. apply bcc_parse_conditions_spec.
  - intros lines Hend. unfold Logan._parse_conditions.
    rewrite tree_nodes_drop_empty_unsorted.
    destruct (walk_lines_spec lines lines Logan.Outer 0 Logan.initial
                initial_inv) as (_ & Hsz & _).
    by rewrite Hsz.
  - intros lines. split.
    + unfold Logan._parse_conditions, lines_read.
      rewrite tree_nodes_drop_empty_unsorted.
      by rewrite walk_lines_read by apply initial_inv.
    + apply read_lines_prefix.
Qed.

(** C1 — where the code departs from the claim.  The PDF walk keeps every
    condition line that it reads, but what it reads are the lines that
    [_normalise_lines] returns, and the normaliser takes a condition line
    whose text starts with a word in capitals for a line that holds a
    section header: it splits the line, and the condition is lost.  On a
    page of three lines, two of which match the condition-number pattern
    and none of which is an end marker, the line of 2.1 becomes the three
    lines [2.], [1. NO] and [building work may commence]; the walk opens a
    section titled [1. NO], and the result holds the single condition 2.2
    where the claim counts two. *)
Theorem C1_normaliser_splits_condition_lines :
  (∀ raw : list text,
     length (tree_nodes (Logan._parse_conditions (Logan._normalise_lines raw)))
     = Spec.condition_lines (lines_read (Logan._normalise_lines raw)))
  ∧ (let raw := [ txt "1. GENERAL";
                  txt "2.1. NO building work may commence";
                  txt "2.2. The owner must comply" ] in
     let page := join newline raw in
     Logan._extract_lines_from_pdf_bytes [page] = Logan._normalise_lines raw
     ∧ Spec.condition_lines raw = 2
     ∧ Forall (λ l, Spec.is_end_marker l = false) raw
     ∧ Logan._normalise_lines raw
       = [ txt "1. GENERAL"; txt "2."; txt "1. NO";
           txt "building work may commence";
           txt "2.2. The owner must comply" ]
     ∧ map (λ s, (Sec.title s, map number (Sec.conditions s)))
           (Parsed.sections
              (Logan.parse_logan_conditions_pdf
                 (Logan._extract_lines_from_pdf_bytes [page]) []))
       = [ (txt "1. GENERAL", []); (txt "1. NO", [txt "2.2"]) ]
     ∧ length (tree_nodes
                 (Parsed.sections
                    (Logan.parse_logan_conditions_pdf
                       (Logan._extract_lines_from_pdf_bytes [page]) [])))
       = 1
     ∧ Summary.numberOfConditions
         (Parsed.summary
            (Logan.parse_logan_conditions_pdf
               (Logan._extract_lines_from_pdf_bytes [page]) []))
       = 1).
Proof.
  split.
  - intros raw. apply walks_keep_accepted_markers.
  - cbv zeta. refine (conj _ (conj _ (conj _ (conj _ (conj _ (conj _ _)))))).
    1, 2, 4 - 7: vm_compute; reflexivity.
    repeat (apply Forall_cons; split; [vm_compute; reflexivity|]).
    constructor.
Qed.

(* ================================================================== *)
(** * The numbers of the PDF adapter                                    *)
(* ================================================================== *)

(** C10 — every condition node that the PDF state machine returns has a
    number of the form [\d+(\.\d+)+], which holds at least one dot: a
    bare integer is never the number of a condition. *)
Theorem C10_logan_numbers_are_dotted :
  ∀ lines : list text,
    Forall (λ c, Spec.dotted (number c) ∧ "."%char ∈ number c)
           (tree_nodes (Logan._parse_conditions lines)).
Proof.
  intros lines. unfold Logan._parse_conditions.
  rewrite tree_nodes_drop_empty_unsorted.
  destruct (walk_lines_spec lines lines Logan.Outer 0 Logan.initial
              initial_inv) as (_ & _ & HF).
  eapply Forall_impl.
  - apply (HF (λ c, Spec.dotted (number c))).
    + split; intros x ?; by destruct x.
    + intros num t d Hd. by rewrite number_new_condition.
    + constructor.
  - intros c Hc. split; [done|]. by apply dotted_has_dot.
Qed.

(* ================================================================== *)
(** * Timing resolution                                                 *)
(* ================================================================== *)

Lemma lower_text_nil col : lower_text col = [] ↔ col = [].
Proof. unfold lower_text. split; [apply fmap_nil_inv|by intros ->]. Qed.

Lemma resolve_timing_cases col inl :
  (¬ placeholder_or_empty col →
     Bcc.resolve_timing col inl = (col, txt "column"))
  ∧ (placeholder_or_empty col → inl ≠ [] →
     Bcc.resolve_timing col inl = (inl, txt "inline"))
  ∧ (placeholder_or_empty col → inl = [] →
     Bcc.resolve_timing col inl = (col, txt "column")).
Proof.
  unfold Bcc.resolve_timing, placeholder_or_empty. split_and!.
  - intros Hn. repeat case_bool_decide; simpl; try done; destruct Hn;
      first [by right|left; by apply lower_text_nil].
  - intros Hp Hi. repeat case_bool_decide; simpl; try done.
    destruct Hp as [->|?]; done.
  - intros _ ->. by rewrite bool_decide_eq_true_2.
Qed.

Lemma build_condition_timing n t c0 c1 :
  (timing (Bcc.build_condition n t c0 c1),
   timingSource (Bcc.build_condition n t c0 c1))
  = Bcc.resolve_timing (timingColumn (Bcc.build_condition n t c0 c1))
                       (timingInline (Bcc.build_condition n t c0 c1)).
Proof.
  unfold Bcc.build_condition.
  destruct (Bcc._extract_proof_of_fulfilment _) as [d m].
  destruct (Bcc._extract_inline_timing d) as [cd it].
  by destruct (Bcc.resolve_timing _ it) eqn:E.
Qed.

(** C5, as stated, fails in its last case: with an empty timing column,
    or with the placeholder, and no inline phrase, the source is
    ["column"] and the timing is the column value, not the empty pair. *)
Lemma C5_counterexample :
  map (λ c, (timingColumn c, timingInline c, timing c, timingSource c))
      (tree_nodes
         (Bcc._parse_conditions
            [Bcc.Bold (txt "1 Fence")
               (Some [Bcc.Cell (txt "1 Fence Build it") (txt "Build it");
                      Bcc.Cell (txt "") (txt "")]) None;
             Bcc.Bold (txt "2 Gate")
               (Some [Bcc.Cell (txt "2 Gate Hang it") (txt "Hang it");
                      Bcc.Cell (txt "As indicated") (txt "As indicated")])
               None]).1)
  = [ (txt "", txt "", txt "", txt "column");
      (txt "As indicated", txt "", txt "As indicated", txt "column") ]
  ∧ txt "column" ≠ txt "" ∧ txt "As indicated" ≠ txt "".
Proof. vm_compute. done. Qed.

(** C5, amended — for every condition of the HTML adapter: a timing
    column that is neither empty nor the placeholder gives the timing,
    with source ["column"]; otherwise an inline phrase, when one was
    extracted, gives the timing, with source ["inline"]; otherwise the
    timing is the column value as it is (empty, or the placeholder) and the
    source is ["column"]. *)
Theorem C5_timing_resolution :
  ∀ bs : list Bcc.bold,
    Forall timing_rule (tree_nodes (Bcc._parse_conditions bs).1).
Proof.
  intros bs.
  destruct (bcc_parse_conditions_spec bs) as (_ & _ & HF).
  eapply Forall_impl.
  - apply (HF (λ c, (timing c, timingSource c)
                    = Bcc.resolve_timing (timingColumn c) (timingInline c))).
    + split; intros x ?; by destruct x.
    + apply build_condition_timing.
    + intros x p. by destruct x.
  - intros c Hc. cbv beta in Hc. unfold timing_rule.
    destruct (resolve_timing_cases (timingColumn c) (timingInline c))
      as (H1 & H2 & H3).
    split_and!.
    + intros H. rewrite (H1 H) in Hc. by injection Hc.
    + intros H Hi. rewrite (H2 H Hi) in Hc. by injection Hc.
    + intros H Hi. rewrite (H3 H Hi) in Hc. by injection Hc.
Qed.

Lemma C5_witness :
  Forall timing_rule
    (tree_nodes
       (Bcc._parse_conditions
          [Bcc.Bold (txt "3 Trees")
             (Some [Bcc.Cell (txt "3 Trees Keep them. Timing: prior to commencement")
                             (txt "Keep them. Timing: prior to commencement");
                    Bcc.Cell (txt "As indicated") (txt "As indicated")])
             None;
           Bcc.Bold (txt "4 Roads")
             (Some [Bcc.Cell (txt "4 Roads Seal them.") (txt "Seal them.");
                    Bcc.Cell (txt "Prior to building approval")
                             (txt "Prior to building approval")])
             None]).1)
  ∧ map (λ c, (timing c, timingSource c))
      (tree_nodes
         (Bcc._parse_conditions
            [Bcc.Bold (txt "3 Trees")
               (Some [Bcc.Cell (txt "3 Trees Keep them. Timing: prior to commencement")
                               (txt "Keep them. Timing: prior to commencement");
                      Bcc.Cell (txt "As indicated") (txt "As indicated")])
               None;
             Bcc.Bold (txt "4 Roads")
               (Some [Bcc.Cell (txt "4 Roads Seal them.") (txt "Seal them.");
                      Bcc.Cell (txt "Prior to building approval")
                               (txt "Prior to building approval")])
               None]).1)
    = [ (txt "prior to commencement", txt "inline");
        (txt "Prior to building approval", txt "column") ].
Proof.
  split; [apply C5_timing_resolution|]. vm_compute. reflexivity.
Defined.

(* ================================================================== *)
(** * Proof of fulfilment                                               *)
(* ================================================================== *)

Section proof_of_fulfilment.
Import Re Bcc.

Lemma sub_ws_no_newline b s : newline ∉ sub_ws b s.
Proof.
  revert b. induction s as [|x s IH]; intros b; simpl; [by intros ?%elem_of_nil|].
  destruct (is_space x) eqn:Hx.
  - destruct b; [apply IH|]. intros [?|?]%elem_of_cons; [done|].
    by eapply IH.
  - intros [Heq|?]%elem_of_cons; [by rewrite <-Heq in Hx|]. by eapply IH.
Qed.

Lemma clean_no_newline s : newline ∉ _clean s.
Proof. apply sub_ws_no_newline. Qed.

Lemma nocase_lower (s t : text) :
  Forall2 (λ a x, eq_nocase a x = true) s t → lower_text t = lower_text s.
Proof.
  induction 1 as [|a x s t Hax _ IH]; simpl; [done|].
  apply bool_decide_eq_true in Hax. by rewrite Hax, IH.
Qed.



End proof_of_fulfilment.




(* ================================================================== *)
(** * The number field of a document row                                *)
(* ================================================================== *)

Section document_split.
Import Re Bcc.

Lemma split_once_app sep l r :
  sep ∉ l → split_once sep (l ++ sep :: r) = Some (l, r).
Proof.
  induction l as [|x l IH]; intros Hl; simpl.
  - by rewrite bool_decide_eq_true_2.
  - apply not_elem_of_cons in Hl as [Hx Hl].
    rewrite bool_decide_eq_false_2 by done. by rewrite IH.
Qed.

Lemma split_once_none sep s : sep ∉ s → split_once sep s = None.
Proof.
  induction s as [|x s IH]; intros Hs; simpl; [done|].
  apply not_elem_of_cons in Hs as [Hx Hs].
  rewrite bool_decide_eq_false_2 by done. by rewrite IH.
Qed.

Lemma space_lower x : is_space x = true → lower x = x.
Proof. destruct x as [[] [] [] [] [] [] [] []]; vm_compute; done. Qed.

Lemma lower_text_app a b : lower_text (a ++ b) = lower_text a ++ lower_text b.
Proof. apply fmap_app. Qed.

Lemma lower_text_spaces sp :
  Forall (λ x, is_space x = true) sp → lower_text sp = sp.
Proof.
  induction 1 as [|x sp Hx _ IH]; simpl; [done|].
  by rewrite space_lower, IH.
Qed.

Lemma in_word_then_code (w : matcher text) g c c' :
  (g, c') ∈ word_then_code w c →
  ∃ a sp code c1,
    (a, c1) ∈ w c ∧ g = a ++ sp ++ code
    ∧ sp ≠ [] ∧ Forall (λ x, is_space x = true) sp
    ∧ code ≠ [] ∧ Forall (λ x, is_alnum x = true) code
    ∧ rest c1 = sp ++ code ++ rest c'.
Proof.
  unfold word_then_code. rewrite in_mbind. intros (a & c1 & Ha & H).
  apply in_mbind in H as (sp & c2 & Hsp & H).
  apply in_mbind in H as (code & c3 & Hcode & H).
  apply in_mret in H as [-> ->].
  apply in_plus in Hsp as (? & ? & Hr1). apply in_plus in Hcode as (? & ? & Hr2).
  exists a, sp, code, c1. split_and!; try done. by rewrite Hr1, Hr2.
Qed.

(** A match of the revision pattern: a keyword in any case, whitespace,
    and a code of letters and digits. *)
Lemma revision_re_inv s start g :
  search REVISION_RE s = Some (start, g) →
  ∃ w sp code,
    g = w ++ sp ++ code
    ∧ s = take start s ++ g ++ drop (start + length g) s
    ∧ sp ≠ [] ∧ Forall (λ x, is_space x = true) sp
    ∧ code ≠ [] ∧ Forall (λ x, is_alnum x = true) code
    ∧ (lower_text w = txt "rev" ∨ lower_text w = txt "issue"
       ∨ ∃ sp', sp' ≠ [] ∧ Forall (λ x, is_space x = true) sp'
                ∧ lower_text w = txt "co" ++ sp' ++ txt "issue").
Proof.
  intros (Hle & b & c' & H)%search_Some. unfold REVISION_RE in H.
  apply in_mbind in H as (u1 & c1 & H1 & H).
  apply in_mbind in H as (g' & c2 & Hg & H).
  apply in_mbind in H as (u2 & c3 & H3 & H).
  apply in_mret in H as [-> ->].
  apply in_wordb in H1 as ->. apply in_wordb in H3 as ->.
  assert (∃ w sp code,
    g' = w ++ sp ++ code ∧ drop start s = g' ++ rest c2
    ∧ sp ≠ [] ∧ Forall (λ x, is_space x = true) sp
    ∧ code ≠ [] ∧ Forall (λ x, is_alnum x = true) code
    ∧ (lower_text w = txt "rev" ∨ lower_text w = txt "issue"
       ∨ ∃ sp', sp' ≠ [] ∧ Forall (λ x, is_space x = true) sp'
                ∧ lower_text w = txt "co" ++ sp' ++ txt "issue"))
    as (w & sp & code & -> & Hd & ? & ? & ? & ? & ?).
  { apply in_alt in Hg as [Hg|Hg]; [|apply in_alt in Hg as [Hg|Hg]];
      apply in_word_then_code in Hg
        as (a & sp & code & c1 & Ha & -> & ? & ? & ? & ? & Hr);
      exists a, sp, code.
    - apply in_lit_with in Ha as [Ha Hr0]. simpl in Hr0.
      split_and!; try done; [|left; by rewrite (nocase_lower _ _ Ha)].
      rewrite Hr0, Hr. by rewrite <-!app_assoc.
    - apply in_lit_with in Ha as [Ha Hr0]. simpl in Hr0.
      split_and!; try done; [|right; left; by rewrite (nocase_lower _ _ Ha)].
      rewrite Hr0, Hr. by rewrite <-!app_assoc.
    - apply in_mbind in Ha as (co & c4 & Hco & Ha).
      apply in_mbind in Ha as (sp' & c5 & Hsp' & Ha).
      apply in_mbind in Ha as (iss & c6 & Hiss & Ha).
      apply in_mret in Ha as [-> ->].
      apply in_lit_with in Hco as [Hco Hr0]. simpl in Hr0.
      apply in_plus in Hsp' as (? & ? & Hr1).
      apply in_lit_with in Hiss as [Hiss Hr2].
      split_and!; try done.
      + rewrite Hr0, Hr1, Hr2, Hr. by rewrite <-!app_assoc.
      + right. right. exists sp'. split_and!; try done.
        rewrite !lower_text_app, (nocase_lower _ _ Hco),
          (nocase_lower _ _ Hiss), (lower_text_spaces sp') by done. done. }
  exists w, sp, code. split_and!; try done.
  rewrite <-(take_drop start s) at 1. f_equal.
  rewrite <-drop_drop, Hd. by rewrite drop_app_length.
Qed.

End document_split.

Section search_first.
Import Re.

Lemma head_None_nil {A} (l : list A) : head l = None → l = [].
Proof. by destruct l. Qed.

Lemma last_take_cons (x : ascii) s k :
  k ≤ length s →
  last (take (S k) (x :: s))
  = match k with 0 => Some x | S _ => last (take k s) end.
Proof.
  intros Hk. cbn [take]. destruct k as [|k]; [by rewrite take_0|].
  destruct s as [|y s]; [simpl in Hk; lia|]. done.
Qed.

Lemma search_from_spec {A} (m : matcher A) b pos s :
  let cur k := Cursor (match k with 0 => b | S _ => last (take k s) end)
                      (drop k s) in
  match search_from m b pos s with
  | None => ∀ k, k ≤ length s → m (cur k) = []
  | Some (q, a) =>
      ∃ p, q = pos + p ∧ p ≤ length s
           ∧ (∃ c', head (m (cur p)) = Some (a, c'))
           ∧ ∀ k, k < p → m (cur k) = []
  end.
Proof.
  revert b pos. induction s as [|x s IH]; intros b pos cur; simpl.
  - destruct (head (m (Cursor b []))) as [[a c']|] eqn:Hm.
    + exists 0. subst cur. simpl. split_and!; [lia|lia|eauto|lia].
    + intros k Hk. assert (k = 0) as -> by lia. subst cur. simpl.
      by apply head_None_nil.
  - destruct (head (m (Cursor b (x :: s)))) as [[a c']|] eqn:Hm.
    + exists 0. subst cur. simpl. split_and!; [lia|lia|eauto|lia].
    + specialize (IH (Some x) (S pos)). simpl in IH.
      assert (∀ k, k ≤ length s →
                cur (S k)
                = Cursor (match k with 0 => Some x | S _ => last (take k s) end)
                         (drop k s)) as Hcur.
      { intros k Hk. subst cur. cbv beta. by rewrite last_take_cons. }
      destruct (search_from m (Some x) (S pos) s) as [[q a]|].
      * destruct IH as (p & -> & Hp & (c' & Hh) & Hlt).
        exists (S p). split_and!; [lia|lia| |].
        -- exists c'. by rewrite Hcur.
        -- intros [|k] Hk; [by apply head_None_nil|].
           rewrite Hcur by lia. apply Hlt. lia.
      * intros [|k] Hk; [by apply head_None_nil|].
        rewrite Hcur by lia. apply IH. lia.
Qed.

(** [pattern.search]: the match is the preferred success at the first
    position that has one. *)
Lemma search_spec {A} (m : matcher A) s :
  match search m s with
  | None => ∀ k, k ≤ length s → m (cursor_at s k) = []
  | Some (p, a) =>
      p ≤ length s
      ∧ (∃ c', head (m (cursor_at s p)) = Some (a, c'))
      ∧ ∀ k, k < p → m (cursor_at s k) = []
  end.
Proof.
  assert (∀ k, cursor_at s k
               = Cursor (match k with 0 => None | S _ => last (take k s) end)
                        (drop k s)) as Hcur.
  { intros [|k]; [|done]. unfold cursor_at. by rewrite take_0. }
  pose proof (search_from_spec m None 0 s) as H. unfold search.
  destruct (search_from m None 0 s) as [[q a]|]; simpl in H.
  - destruct H as (p & -> & Hp & (c' & Hh) & Hlt). simpl.
    split_and!; [done| |].
    + exists c'. by rewrite Hcur.
    + intros k Hk. rewrite Hcur. by apply Hlt.
  - intros k Hk. rewrite Hcur. by apply H.
Qed.

Lemma in_wordb_iff u c c' :
  (u, c') ∈ wordb c
  ↔ c' = c ∧ xorb (is_word_at (before c)) (is_word_at (head (rest c))) = true.
Proof.
  unfold wordb. destruct (xorb _ _).
  - rewrite list_elem_of_singleton. split; [by intros [= -> ->]|].
    intros [-> _]. by destruct u.
  - split; [by intros ?%elem_of_nil|by intros [_ ?]].
Qed.

Lemma last_cons_from (x : ascii) t :
  last (x :: t) = Some (default x (last t)).
Proof.
  revert x. induction t as [|y t IH]; intros x; [done|].
  rewrite last_cons_cons, IH. done.
Qed.

Lemma in_star_run_before p b s t c' :
  (t, c') ∈ star_run p b s →
  before c' = match last t with Some x => Some x | None => b end.
Proof.
  revert b t. induction s as [|x s IH]; intros b t; simpl.
  - rewrite list_elem_of_singleton. by intros [= -> ->].
  - destruct (p x) eqn:Hp.
    + rewrite elem_of_app, list_elem_of_fmap, list_elem_of_singleton.
      intros [([t' c''] & [= -> ->] & Hin)|[= -> ->]]; [|done].
      apply IH in Hin. simpl in Hin. rewrite Hin, last_cons_from.
      by destruct (last t').
    + rewrite list_elem_of_singleton. by intros [= -> ->].
Qed.

Lemma in_plus_before p t c c' : (t, c') ∈ plus p c → before c' = last t.
Proof.
  unfold plus. rewrite in_bind. intros (x & c1 & Hx & H).
  apply in_bind in H as (t' & c2 & Ht & H). apply in_ret in H as [-> ->].
  apply in_sat in Hx as (_ & _ & Hb). apply in_star_run_before in Ht.
  rewrite Ht, Hb, last_cons_from. by destruct (last t').
Qed.

Lemma star_run_intro_at p t r :
  ∀ b, Forall (λ x, p x = true) t →
       (t, Cursor (match last t with Some x => Some x | None => b end) r)
       ∈ star_run p b (t ++ r).
Proof.
  induction t as [|x t IH]; intros b Hall.
  { destruct r as [|y r]; simpl; [by left|].
    destruct (p y); [|by left]. apply elem_of_app. right. by left. }
  apply Forall_cons in Hall as [Hx Hall].
  simpl app. cbn [star_run]. rewrite Hx.
  apply elem_of_app. left. apply list_elem_of_fmap.
  eexists (t, _). split; [|apply (IH (Some x) Hall)].
  rewrite last_cons_from. simpl. by destruct (last t).
Qed.

Lemma plus_intro_at p t r b :
  t ≠ [] → Forall (λ x, p x = true) t →
  (t, Cursor (last t) r) ∈ plus p (Cursor b (t ++ r)).
Proof.
  intros Hne Hall. destruct t as [|x t]; [done|].
  apply Forall_cons in Hall as [Hx Hall].
  unfold plus. apply in_bind. exists x, (Cursor (Some x) (t ++ r)).
  split; [by apply in_sat|].
  apply in_bind. eexists t, _. split; [apply (star_run_intro_at p t r _ Hall)|].
  apply in_ret. split; [done|]. rewrite last_cons_from.
  by destruct (last t).
Qed.

Lemma lit_with_intro_at eqc s t r b :
  Forall2 (λ a x, eqc a x = true) s t →
  (t, Cursor (match last t with Some x => Some x | None => b end) r)
  ∈ lit_with eqc s (Cursor b (t ++ r)).
Proof.
  intros H. revert b. induction H as [|a x s t Hax _ IH]; intros b.
  { simpl. by apply in_ret. }
  cbn [lit_with]. apply in_bind. exists x, (Cursor (Some x) (t ++ r)).
  split; [by apply in_sat|].
  apply in_bind. eexists t, _. split; [apply (IH (Some x))|].
  apply in_ret. split; [done|]. rewrite last_cons_from.
  by destruct (last t).
Qed.

End search_first.

Section revision_first.
Import Re Bcc.

Ltac all_chars x :=
  destruct x as [[] [] [] [] [] [] [] []]; vm_compute; try done.

Lemma lower_letter_word x : is_lower (lower x) = true → is_word x = true.
Proof. all_chars x. Qed.

Lemma alnum_word x : is_alnum x = true → is_word x = true.
Proof. all_chars x. Qed.

Lemma alnum_not_space x : is_alnum x = true → is_space x = false.
Proof. all_chars x. Qed.

Lemma lower_space_inv x : is_space (lower x) = true → is_space x = true.
Proof. all_chars x. Qed.

Lemma lower_nonspace w :
  Forall (λ y, is_space y = false) (lower_text w) →
  Forall (λ x, negb (is_space x) = true) w.
Proof.
  induction w as [|x w IH]; simpl; [done|].
  intros [Hx Hw]%Forall_cons. constructor; [|by apply IH].
  destruct (is_space x) eqn:Hs; [|done].
  by rewrite (space_lower x Hs), Hs in Hx.
Qed.

Lemma lower_spaces_inv m sp :
  Forall (λ x, is_space x = true) sp → lower_text m = sp →
  Forall (λ x, is_space x = true) m.
Proof.
  intros Hsp <-. induction m as [|x m IH]; simpl in *; [done|].
  apply Forall_cons in Hsp as [Hx Hm].
  constructor; [by apply lower_space_inv|by apply IH].
Qed.

Lemma lower_nocase (s t : text) :
  lower_text t = lower_text s →
  Forall2 (λ a x, eq_nocase a x = true) s t.
Proof.
  revert t. induction s as [|a s IH]; intros [|x t]; simpl; try done.
  intros [= Hx Ht]. constructor; [|by apply IH].
  unfold eq_nocase. by apply bool_decide_eq_true.
Qed.

Lemma last_Forall {A} (P : A → Prop) l y :
  Forall P l → last l = Some y → P y.
Proof.
  intros Hall [l' ->]%last_Some. apply Forall_app in Hall as [_ Hy].
  by apply Forall_cons in Hy as [Hy _].
Qed.

Lemma last_nonempty {A} (l : list A) : l ≠ [] → is_Some (last l).
Proof.
  induction l as [|x l _] using rev_ind; [done|]. rewrite last_snoc. eauto.
Qed.

Lemma head_app_Forall {A} (P : A → Prop) l r x :
  l ≠ [] → Forall P l → head (l ++ r) = Some x → P x.
Proof. destruct l; [done|]. intros _ [? _]%Forall_cons [= <-]. done. Qed.

(** The keyword starts with a word character. *)
Lemma keyword_head w r :
  revision_keyword w → is_word_at (head (w ++ r)) = true.
Proof.
  intros [H|[H|(sp' & _ & _ & H)]];
    (destruct w as [|x w]; [done|]); simpl in *;
    injection H as Hx _; apply lower_letter_word; by rewrite Hx.
Qed.

(** The keyword in words: one word of three or five characters, or a
    word of two characters, whitespace and a word. *)
Lemma keyword_tokens w :
  revision_keyword w →
  (Forall (λ x, negb (is_space x) = true) w ∧ length w ≠ 2)
  ∨ ∃ c m i,
      w = c ++ m ++ i ∧ length c = 2
      ∧ Forall (λ x, negb (is_space x) = true) c
      ∧ m ≠ [] ∧ Forall (λ x, is_space x = true) m
      ∧ i ≠ [] ∧ Forall (λ x, negb (is_space x) = true) i.
Proof.
  intros [H|[H|(sp' & Hne & Hsp & H)]].
  - left. split.
    + apply lower_nonspace. rewrite H.
      repeat (apply Forall_cons; split; [vm_compute; reflexivity|]).
      constructor.
    + apply (f_equal length) in H. unfold lower_text in H.
      rewrite length_map in H. rewrite H. vm_compute. lia.
  - left. split.
    + apply lower_nonspace. rewrite H.
      repeat (apply Forall_cons; split; [vm_compute; reflexivity|]).
      constructor.
    + apply (f_equal length) in H. unfold lower_text in H.
      rewrite length_map in H. rewrite H. vm_compute. lia.
  - right. unfold lower_text in H.
    apply fmap_app_inv in H as (c & mi & Hc & H & ->).
    symmetry in H. apply fmap_app_inv in H as (m & i & Hm & Hi & ->).
    exists c, m, i. split_and!; try done.
    + apply (f_equal length) in Hc. rewrite length_fmap in Hc.
      rewrite <-Hc. done.
    + apply lower_nonspace. change (lower_text c) with (lower <$> c).
      rewrite <-Hc.
      repeat (apply Forall_cons; split; [vm_compute; reflexivity|]).
      constructor.
    + intros ->. by subst.
    + by apply (lower_spaces_inv m sp').
    + intros ->. done.
    + apply lower_nonspace. change (lower_text i) with (lower <$> i).
      rewrite <-Hi.
      repeat (apply Forall_cons; split; [vm_compute; reflexivity|]).
      constructor.
Qed.

(** A maximal run of a class at the start of a text is unique. *)
Lemma run_unique (p : ascii → bool) a a' r r' :
  Forall (λ x, p x = true) a → Forall (λ x, p x = true) a' →
  (∀ x, head r = Some x → p x = false) →
  (∀ x, head r' = Some x → p x = false) →
  a ++ r = a' ++ r' → a = a' ∧ r = r'.
Proof.
  intros Ha. revert a'. induction Ha as [|x a Hx Ha IH]; intros a' Ha' Hr Hr'.
  - destruct Ha' as [|y a' Hy _]; [done|]. simpl. intros ->.
    specialize (Hr y eq_refl). congruence.
  - destruct Ha' as [|y a' Hy Ha']; simpl.
    + intros <-. specialize (Hr' x eq_refl). congruence.
    + intros [= -> H]. destruct (IH a' Ha' Hr Hr' H) as [-> ->]. done.
Qed.

Lemma head_space_run sp r x :
  sp ≠ [] → Forall (λ x, is_space x = true) sp →
  head (sp ++ r) = Some x → negb (is_space x) = false.
Proof.
  intros Hne Hsp Hh.
  by rewrite (head_app_Forall (λ x, is_space x = true) sp r x Hne Hsp Hh).
Qed.

Lemma head_nonspace_run i r x :
  i ≠ [] → Forall (λ x, negb (is_space x) = true) i →
  head (i ++ r) = Some x → is_space x = false.
Proof.
  intros Hne Hi Hh. apply negb_true_iff.
  apply (head_app_Forall (λ x, negb (is_space x) = true) i r x Hne Hi Hh).
Qed.

(** Two keywords at the start of the same text, each followed by
    whitespace, are the same keyword. *)
Lemma keyword_unique w w' sp sp' r r' :
  revision_keyword w → revision_keyword w' →
  sp ≠ [] → Forall (λ x, is_space x = true) sp →
  sp' ≠ [] → Forall (λ x, is_space x = true) sp' →
  w ++ sp ++ r = w' ++ sp' ++ r' →
  w = w' ∧ sp ++ r = sp' ++ r'.
Proof.
  intros Hw Hw' Hne Hsp Hne' Hsp' Heq.
  apply keyword_tokens in Hw, Hw'.
  destruct Hw as [[Hw Hl]|(c & m & i & -> & Hc2 & Hc & Hm0 & Hm & Hi0 & Hi)];
    destruct Hw'
      as [[Hw' Hl']|(c' & m' & i' & -> & Hc2' & Hc' & Hm0' & Hm' & Hi0' & Hi')].
  - apply (run_unique (λ x, negb (is_space x))) in Heq; try done.
    + intros x. by apply head_space_run.
    + intros x. by apply head_space_run.
  - rewrite <-!app_assoc in Heq.
    apply (run_unique (λ x, negb (is_space x))) in Heq as [-> _]; try done.
    + intros x. by apply head_space_run.
    + intros x. by apply head_space_run.
  - rewrite <-!app_assoc in Heq.
    apply (run_unique (λ x, negb (is_space x))) in Heq as [<- _]; try done.
    + intros x. by apply head_space_run.
    + intros x. by apply head_space_run.
  - rewrite <-!app_assoc in Heq.
    apply (run_unique (λ x, negb (is_space x))) in Heq as [-> Heq]; try done;
      [|intros x; by apply head_space_run..].
    apply (run_unique is_space) in Heq as [-> Heq]; try done;
      [|intros x; by apply head_nonspace_run..].
    apply (run_unique (λ x, negb (is_space x))) in Heq as [-> Heq]; try done;
      intros x; by apply head_space_run.
Qed.

(** At one position a text holds at most one revision code. *)
Lemma revision_at_unique s k g g' :
  revision_at s k g → revision_at s k g' → g = g'.
Proof.
  intros (pre & post & -> & Hk & (w & sp & code & -> & Hw & Hsp0 & Hsp
                                   & Hc0 & Hc) & _ & Hpost)
         (pre' & post' & Heq & Hk' & (w' & sp' & code' & -> & Hw' & Hsp0'
                                      & Hsp' & Hc0' & Hc') & _ & Hpost').
  apply app_inj_1 in Heq as [_ Heq]; [|congruence].
  rewrite <-!app_assoc in Heq.
  apply keyword_unique in Heq as [-> Heq]; try done.
  apply (run_unique is_space) in Heq as [-> Heq]; try done.
  - apply (run_unique is_alnum) in Heq as [-> _]; try done.
    + intros x Hx. rewrite Hx in Hpost. simpl in Hpost.
      destruct (is_alnum x) eqn:Ha; [|done].
      by rewrite (alnum_word x Ha) in Hpost.
    + intros x Hx. rewrite Hx in Hpost'. simpl in Hpost'.
      destruct (is_alnum x) eqn:Ha; [|done].
      by rewrite (alnum_word x Ha) in Hpost'.
  - intros x Hx. apply alnum_not_space.
    apply (head_app_Forall (λ x, is_alnum x = true) code post x Hc0 Hc Hx).
  - intros x Hx. apply alnum_not_space.
    apply (head_app_Forall (λ x, is_alnum x = true) code' post' x Hc0' Hc' Hx).
Qed.


Lemma in_word_then_code_before (w : matcher text) g c c' :
  (g, c') ∈ word_then_code w c → is_word_at (before c') = true.
Proof.
  unfold word_then_code. rewrite in_mbind. intros (a & c1 & Ha & H).
  apply in_mbind in H as (sp & c2 & Hsp & H).
  apply in_mbind in H as (code & c3 & Hcode & H).
  apply in_mret in H as [-> ->].
  rewrite (in_plus_before _ _ _ _ Hcode).
  apply in_plus in Hcode as (Hne & Hall & _).
  destruct (last_nonempty code Hne) as [y Hy]. rewrite Hy. simpl.
  apply alnum_word. by apply (last_Forall (λ x, is_alnum x = true) code).
Qed.

Lemma word_then_code_intro (w : matcher text) a sp code post c b1 :
  (a, Cursor b1 (sp ++ code ++ post)) ∈ w c →
  sp ≠ [] → Forall (λ x, is_space x = true) sp →
  code ≠ [] → Forall (λ x, is_alnum x = true) code →
  (a ++ sp ++ code, Cursor (last code) post) ∈ word_then_code w c.
Proof.
  intros Ha ? ? ? ?. unfold word_then_code.
  apply in_mbind. exists a, (Cursor b1 (sp ++ code ++ post)).
  split; [done|].
  apply in_mbind. exists sp, (Cursor (last sp) (code ++ post)).
  split; [by apply plus_intro_at|].
  apply in_mbind. exists code, (Cursor (last code) post).
  split; [by apply plus_intro_at|]. by apply in_mret.
Qed.

(** Every success of the revision pattern is a revision code between two
    word boundaries. *)
Lemma revision_re_sound g b r c' :
  (g, c') ∈ REVISION_RE (Cursor b r) →
  revision_code g ∧ r = g ++ rest c'
  ∧ is_word_at b = false ∧ is_word_at (head (rest c')) = false.
Proof.
  unfold REVISION_RE. intros H.
  apply in_mbind in H as (u1 & c1 & H1 & H).
  apply in_mbind in H as (g' & c2 & Hg & H).
  apply in_mbind in H as (u2 & c3 & H3 & H).
  apply in_mret in H as [-> ->].
  apply in_wordb_iff in H1 as [-> Hx1]. apply in_wordb_iff in H3 as [-> Hx3].
  simpl in Hx1.
  assert (is_word_at (before c2) = true) as Hb2.
  { apply in_alt in Hg as [Hg|Hg]; [|apply in_alt in Hg as [Hg|Hg]];
      by apply in_word_then_code_before in Hg. }
  assert (∃ w sp code,
    g' = w ++ sp ++ code ∧ r = g' ++ rest c2 ∧ revision_keyword w
    ∧ sp ≠ [] ∧ Forall (λ x, is_space x = true) sp
    ∧ code ≠ [] ∧ Forall (λ x, is_alnum x = true) code)
    as (w & sp & code & -> & Hd & Hw & ? & ? & ? & ?).
  { apply in_alt in Hg as [Hg|Hg]; [|apply in_alt in Hg as [Hg|Hg]];
      apply in_word_then_code in Hg
        as (a & sp & code & c1 & Ha & -> & ? & ? & ? & ? & Hr);
      exists a, sp, code.
    - apply in_lit_with in Ha as [Ha Hr0]. simpl in Hr0.
      split_and!; try done; [|left; by rewrite (nocase_lower _ _ Ha)].
      rewrite Hr0, Hr. by rewrite <-!app_assoc.
    - apply in_lit_with in Ha as [Ha Hr0]. simpl in Hr0.
      split_and!; try done; [|right; left; by rewrite (nocase_lower _ _ Ha)].
      rewrite Hr0, Hr. by rewrite <-!app_assoc.
    - apply in_mbind in Ha as (co & c4 & Hco & Ha).
      apply in_mbind in Ha as (sp' & c5 & Hsp' & Ha).
      apply in_mbind in Ha as (iss & c6 & Hiss & Ha).
      apply in_mret in Ha as [-> ->].
      apply in_lit_with in Hco as [Hco Hr0]. simpl in Hr0.
      apply in_plus in Hsp' as (? & ? & Hr1).
      apply in_lit_with in Hiss as [Hiss Hr2].
      split_and!; try done.
      + rewrite Hr0, Hr1, Hr2, Hr. by rewrite <-!app_assoc.
      + right. right. exists sp'. split_and!; try done.
        rewrite !lower_text_app, (nocase_lower _ _ Hco),
          (nocase_lower _ _ Hiss), (lower_text_spaces sp') by done. done. }
  split_and!.
  - by exists w, sp, code.
  - done.
  - rewrite Hd, <-!app_assoc, (keyword_head w _ Hw) in Hx1.
    by destruct (is_word_at b).
  - rewrite Hb2 in Hx3. by destruct (is_word_at (head (rest c2))).
Qed.

(** A revision code between two word boundaries is a success of the
    revision pattern. *)
Lemma revision_re_complete g b post :
  revision_code g → is_word_at b = false → is_word_at (head post) = false →
  ∃ c', (g, c') ∈ REVISION_RE (Cursor b (g ++ post)).
Proof.
  intros (w & sp & code & -> & Hw & Hsp0 & Hsp & Hc0 & Hc) Hb Hpost.
  exists (Cursor (last code) post). unfold REVISION_RE.
  apply in_mbind. exists (), (Cursor b ((w ++ sp ++ code) ++ post)). split.
  { apply in_wordb_iff. split; [done|]. simpl.
    rewrite Hb, <-!app_assoc, (keyword_head w _ Hw). done. }
  apply in_mbind. exists (w ++ sp ++ code), (Cursor (last code) post).
  split; cycle 1.
  { apply in_mbind. exists (), (Cursor (last code) post).
    split; [|by apply in_mret].
    apply in_wordb_iff. split; [done|]. simpl. rewrite Hpost.
    destruct (last_nonempty code Hc0) as [y Hy]. rewrite Hy. simpl.
    rewrite (alnum_word y); [done|]. by apply (last_Forall (λ x, is_alnum x = true) code). }
  rewrite <-!app_assoc.
  destruct Hw as [Hw|[Hw|(sp' & Hne' & Hsp' & Hw)]].
  - apply in_alt. left.
    eapply word_then_code_intro; try done.
    apply (lit_with_intro_at eq_nocase (txt "Rev") w _ b).
    by apply lower_nocase.
  - apply in_alt. right. apply in_alt. left.
    eapply word_then_code_intro; try done.
    apply (lit_with_intro_at eq_nocase (txt "Issue") w _ b).
    by apply lower_nocase.
  - apply in_alt. right. apply in_alt. right.
    change (lower_text w) with (lower <$> w) in Hw.
    apply fmap_app_inv in Hw as (co & mi & Hco & Hw & ->).
    symmetry in Hw. apply fmap_app_inv in Hw as (m & iss & Hm & Hiss & ->).
    assert (Forall (λ x, is_space x = true) m) as Hmsp
      by by apply (lower_spaces_inv m sp').
    assert (m ≠ []) as Hm0 by (intros ->; by subst).
    eapply word_then_code_intro; try done.
    rewrite <-!app_assoc.
    apply in_mbind. eexists co, _. split.
    { apply (lit_with_intro_at eq_nocase (txt "CO") co _ b).
      apply lower_nocase. symmetry. exact Hco. }
    apply in_mbind. eexists m, _. split; [by apply plus_intro_at|].
    apply in_mbind. eexists iss, _. split.
    { apply (lit_with_intro_at eq_nocase (txt "Issue") iss).
      apply lower_nocase. symmetry. exact Hiss. }
    apply in_mret. split; [|reflexivity]. done.
Qed.

(** What [search] finds for the revision pattern: the revision code at
    the first position that holds one. *)
Lemma revision_search_spec s :
  match search REVISION_RE s with
  | None => ∀ k g, ¬ revision_at s k g
  | Some (p, g) => first_revision_at s p g
  end.
Proof.
  pose proof (search_spec REVISION_RE s) as H.
  assert (∀ k g, revision_at s k g → REVISION_RE (cursor_at s k) ≠ [])
    as Hocc.
  { intros k g (pre & post & -> & <- & Hg & Hpre & Hpost) Hnil.
    unfold cursor_at in Hnil. rewrite take_app_length, drop_app_length in Hnil.
    destruct (revision_re_complete g (last pre) post Hg Hpre Hpost)
      as [c' Hin].
    rewrite Hnil in Hin. by apply elem_of_nil in Hin. }
  destruct (search REVISION_RE s) as [[p g]|].
  - destruct H as (Hp & (c' & Hh) & Hlt). split.
    + assert ((g, c') ∈ REVISION_RE (cursor_at s p)) as Hin.
      { destruct (REVISION_RE (cursor_at s p)); [done|].
        simpl in Hh. injection Hh as ->. left. }
      apply revision_re_sound in Hin as (Hg & Hd & Hb & Ha).
      exists (take p s), (rest c'). split_and!; try done.
      * rewrite <-Hd. by rewrite take_drop.
      * rewrite length_take. lia.
    + intros k' g' Hk Hocc'. apply (Hocc _ _ Hocc'). by apply Hlt.
  - intros k g Hocc'. apply (Hocc _ _ Hocc'). apply H.
    destruct Hocc' as (pre & post & -> & <- & _). rewrite length_app. lia.
Qed.

(** The first revision code of a text is unique. *)
Lemma first_revision_unique s k g k' g' :
  first_revision_at s k g → first_revision_at s k' g' → k = k' ∧ g = g'.
Proof.
  intros [H1 Hf1] [H2 Hf2].
  assert (k = k') as <-.
  { destruct (decide (k < k')) as [Hlt|?]; [by destruct (Hf2 _ _ Hlt H1)|].
    destruct (decide (k' < k)) as [Hlt|?]; [by destruct (Hf1 _ _ Hlt H2)|].
    lia. }
  split; [done|]. by apply (revision_at_unique s k).
Qed.

End revision_first.

(** C7, as stated, fails on its own example: the text taken as
    [preparedBy] is the one to the left of the bar. *)
Lemma C7_counterexample :
  (Bcc._extract_revision_and_prepared_by
     (txt "DA-101 Rev B | ACME Architects")).2 = txt "DA-101 Rev B"
  ∧ txt "DA-101 Rev B" ≠ txt "ACME Architects".
Proof. vm_compute. done. Qed.

(** C7, amended — for every number field: the revision is the revision
    code (a keyword Rev, Issue or CO Issue in any case, whitespace, a code
    of letters and digits, no word character touching it on either side)
    at the first position of the field that holds one, cleaned, and it is
    empty when the field holds none; [preparedBy] is the cleaned text to
    the left of the first bar when that text is not empty and has at most
    60 characters, and empty otherwise or when the field has no bar.  In
    particular ["DA-101 Rev B | ACME Architects"] splits into revision
    ["Rev B"] and preparedBy ["DA-101 Rev B"], and of the two codes of
    ["CO Issue 3 Rev B"] the first one is the revision. *)
Theorem C7_document_number_split :
  (∀ s rev pb : text,
     Bcc._extract_revision_and_prepared_by s = (rev, pb) →
     ((∀ k g, first_revision_at s k g → rev = _clean g)
      ∧ ((∀ k g, ¬ revision_at s k g) → rev = [])
      ∧ ((∃ k g, first_revision_at s k g) ∨ (∀ k g, ¬ revision_at s k g)))
     ∧ (∀ l r, "|"%char ∉ l → s = l ++ "|"%char :: r →
        (_clean l ≠ [] ∧ length (_clean l) ≤ 60 → pb = _clean l)
        ∧ (_clean l = [] ∨ 60 < length (_clean l) → pb = []))
     ∧ ("|"%char ∉ s → pb = []))
  ∧ Bcc._extract_revision_and_prepared_by
      (txt "DA-101 Rev B | ACME Architects")
    = (txt "Rev B", txt "DA-101 Rev B")
  ∧ Bcc._extract_revision_and_prepared_by (txt "CO Issue 3 Rev B")
    = (txt "CO Issue 3", [])
  ∧ Bcc.document_rows
      [[txt "Site plan"; txt "DA-101 Rev B | ACME Architects";
        txt "1 May 2024"]]
    = [Doc.Make (txt "Site plan") (txt "DA-101 Rev B | ACME Architects")
                (txt "1 May 2024") (txt "Rev B") (txt "DA-101 Rev B")].
Proof.
  split_and!; [|vm_compute; done..].
  intros s rev pb. unfold Bcc._extract_revision_and_prepared_by.
  intros [= Hrev Hpb]. split_and!.
  - intros k g Hfirst. pose proof (revision_search_spec s) as H.
    destruct (Re.search Bcc.REVISION_RE s) as [[p g']|].
    + by destruct (first_revision_unique _ _ _ _ _ Hfirst H) as [_ ->].
    + destruct Hfirst as [Hat _]. by destruct (H _ _ Hat).
  - intros Hnone. pose proof (revision_search_spec s) as H.
    destruct (Re.search Bcc.REVISION_RE s) as [[p g']|]; [|done].
    destruct H as [Hat _]. by destruct (Hnone _ _ Hat).
  - pose proof (revision_search_spec s) as H.
    destruct (Re.search Bcc.REVISION_RE s) as [[p g']|]; [left|right]; eauto.
  - intros l r Hl ->. rewrite split_once_app in Hpb by done.
    split.
    + intros [H1 H2]. rewrite bool_decide_eq_false_2 in Hpb by done.
      apply Nat.leb_le in H2. by rewrite H2 in Hpb.
    + intros [H|H].
      * by rewrite bool_decide_eq_true_2 in Hpb.
      * apply Nat.leb_gt in H. rewrite H, andb_false_r in Hpb. done.
  - intros Hs. by rewrite split_once_none in Hpb.
Qed.

Lemma C7_witness :
  Bcc._extract_revision_and_prepared_by (txt "ACME Architects | DA-101 Rev B")
  = (txt "Rev B", txt "ACME Architects")
  ∧ (_clean (txt "ACME Architects ") ≠ []
     ∧ length (_clean (txt "ACME Architects ")) ≤ 60 →
     txt "ACME Architects" = _clean (txt "ACME Architects "))
  ∧ first_revision_at (txt "CO Issue 3 Rev B | ACME") 0 (txt "CO Issue 3")
  ∧ (Bcc._extract_revision_and_prepared_by (txt "CO Issue 3 Rev B | ACME")).1
    = _clean (txt "CO Issue 3").
Proof.
  assert (Bcc._extract_revision_and_prepared_by
            (txt "ACME Architects | DA-101 Rev B")
          = (txt "Rev B", txt "ACME Architects")) as H
    by (vm_compute; reflexivity).
  assert (first_revision_at (txt "CO Issue 3 Rev B | ACME") 0
            (txt "CO Issue 3")) as Hfirst.
  { split; [|intros k' g' Hk; lia].
    exists [], (txt " Rev B | ACME").
    split; [reflexivity|]. split; [reflexivity|].
    split; [|split; vm_compute; reflexivity].
    exists (txt "CO Issue"), (txt " "), (txt "3").
    split; [reflexivity|]. split.
    { right. right. exists (txt " "). split; [done|].
      split; [|vm_compute; reflexivity].
      apply Forall_cons; split; [vm_compute; reflexivity|constructor]. }
    split; [done|]. split.
    { apply Forall_cons; split; [vm_compute; reflexivity|constructor]. }
    split; [done|].
    apply Forall_cons; split; [vm_compute; reflexivity|constructor]. }
  split; [exact H|]. split; [|split; [exact Hfirst|]].
  - destruct (proj1 C7_document_number_split _ _ _ H) as (_ & Hpb & _).
    apply (Hpb (txt "ACME Architects ") (txt " DA-101 Rev B")).
    + vm_compute. intros Hin.
      repeat (apply elem_of_cons in Hin as [Hin|Hin]; [discriminate Hin|]).
      by apply elem_of_nil in Hin.
    + reflexivity.
  - destruct (Bcc._extract_revision_and_prepared_by
                (txt "CO Issue 3 Rev B | ACME")) as [rev pb] eqn:He.
    destruct (proj1 C7_document_number_split _ _ _ He) as ((Hrev & _) & _).
    exact (Hrev 0 _ Hfirst).
Defined.

(* ================================================================== *)
(** * The field extractor                                               *)
(* ================================================================== *)

Section field_extractor.
Import Logan.

Lemma find_value_loop_skip lines re pre :
  ∀ window i0,
    Forall (not_label re) pre →
    find_value_loop lines re i0 (pre ++ window)
    = find_value_loop lines re (i0 + length pre) window.
Proof.
  induction pre as [|raw pre IH]; intros window i0 Hpre; simpl.
  { by rewrite Nat.add_0_r. }
  apply Forall_cons in Hpre as [[Hraw|Hraw] Hpre].
  - rewrite bool_decide_eq_true_2 by done. rewrite IH by done.
    f_equal. lia.
  - case_bool_decide; rewrite ?Hraw; rewrite IH by done; f_equal; lia.
Qed.

Lemma find_value_loop_none lines re window i0 :
  Forall (not_label re) window → find_value_loop lines re i0 window = [].
Proof.
  intros H. rewrite <-(app_nil_r window), find_value_loop_skip by done.
  done.
Qed.

Lemma split_once_Some sep s l r :
  split_once sep s = Some (l, r) ↔ s = l ++ sep :: r ∧ sep ∉ l.
Proof.
  split.
  - revert l. induction s as [|x s IH]; intros l; simpl; [done|].
    case_bool_decide as Hx.
    + intros [= <- <-]. subst. split; [done|]. by intros ?%elem_of_nil.
    + destruct (split_once sep s) as [[l' r']|]; [|done].
      intros [= <- <-]. destruct (IH l' eq_refl) as [-> Hl].
      split; [done|]. by intros [?|?]%elem_of_cons.
  - intros [-> Hl]. by apply split_once_app.
Qed.

Lemma window_split (lines : list text) scan_limit i raw :
  i < scan_limit → lines !! i = Some raw →
  take scan_limit lines
  = take i lines ++ raw :: take (scan_limit - S i) (drop (S i) lines).
Proof.
  intros Hi Hraw.
  rewrite <-(take_drop_middle lines i raw Hraw) at 1.
  rewrite take_app, length_take.
  apply lookup_lt_Some in Hraw.
  replace (i `min` (length lines)) with i by lia.
  rewrite take_take. replace (scan_limit `min` i) with i by lia.
  f_equal. replace (scan_limit - i) with (S (scan_limit - S i)) by lia.
  done.
Qed.

Lemma find_value_loop_match lines re i raw window m :
  _clean raw ≠ [] → re (_clean raw) = Some m →
  find_value_loop lines re i (raw :: window)
  = if negb (bool_decide (captured m = [])) then captured m
    else
      let after := match split_once ":"%char (_clean raw) with
                   | Some (_, a) => _clean a
                   | None => []
                   end in
      if negb (bool_decide (after = [])) then after
      else _clean (_next_meaningful lines (S i)).
Proof.
  intros Hne Hm. simpl. rewrite bool_decide_eq_false_2 by done.
  by rewrite Hm.
Qed.

End field_extractor.

(** C8, as stated, fails in its second step: a label line that holds the
    separator with nothing after it does not give the empty text after the
    separator, but the next non-blank line. *)
Lemma C8_counterexample :
  captured (MatchObj (Some 1) (Some [])) = []
  ∧ Logan.APPLICANT_RE (_clean (txt "APPLICANT:"))
    = Some (MatchObj (Some 1) (Some []))
  ∧ split_once ":"%char (_clean (txt "APPLICANT:"))
    = Some (txt "APPLICANT", txt "")
  ∧ Logan._find_value_after_label
      [txt "APPLICANT:"; txt "John Smith"] Logan.APPLICANT_RE 80
    = txt "John Smith"
  ∧ txt "John Smith" ≠ _clean (txt "").
Proof. vm_compute. done. Qed.

(** C8, amended — when the line at index [i] is the first non-blank line
    of the scan window that the label pattern matches, the value is decided
    in this order: the captured group, cleaned, when it is not empty; else
    the cleaned text after the first separator of the line, when the line
    holds one and that text is not empty; else the next non-blank line,
    cleaned, which is empty when there is none.  When no line of the window
    matches, the value is empty. *)
Theorem C8_field_extractor_order :
  ∀ (lines : list text) (label_re : text → option match_obj)
    (scan_limit : nat),
    (∀ i raw m,
       i < scan_limit → lines !! i = Some raw →
       _clean raw ≠ [] → label_re (_clean raw) = Some m →
       Forall (not_label label_re) (take i lines) →
       (captured m ≠ [] →
        Logan._find_value_after_label lines label_re scan_limit = captured m)
       ∧ (captured m = [] →
          ∀ l a, ":"%char ∉ l →
                 _clean raw = l ++ ":"%char :: a → _clean a ≠ [] →
          Logan._find_value_after_label lines label_re scan_limit = _clean a)
       ∧ (captured m = [] →
          (":"%char ∉ _clean raw
           ∨ (∃ l a, (":"%char ∉ l) ∧ (_clean raw = l ++ ":"%char :: a)
                     ∧ (_clean a = []))) →
          Logan._find_value_after_label lines label_re scan_limit
          = _clean (Logan._next_meaningful lines (S i))))
    ∧ (Forall (not_label label_re) (take scan_limit lines) →
       Logan._find_value_after_label lines label_re scan_limit = []).
Proof.
  intros lines label_re scan_limit. split.
  - intros i raw m Hi Hraw Hne Hm Hpre.
    unfold Logan._find_value_after_label.
    rewrite (window_split lines scan_limit i raw Hi Hraw).
    rewrite find_value_loop_skip by done.
    rewrite (find_value_loop_match _ _ _ _ _ m) by done.
    assert (length (take i lines) = i) as ->.
    { rewrite length_take. apply lookup_lt_Some in Hraw. lia. }
    split_and!.
    + intros Hc. by rewrite bool_decide_eq_false_2.
    + intros Hc l a Hl Heq Ha. rewrite Hc. simpl.
      rewrite Heq, split_once_app by done.
      by rewrite bool_decide_eq_false_2.
    + intros Hc Hsep. rewrite Hc. simpl.
      destruct Hsep as [Hno|(l & a & Hl & Heq & Ha)].
      * by rewrite split_once_none.
      * rewrite Heq, split_once_app by done.
        by rewrite bool_decide_eq_true_2.
  - intros H. by apply find_value_loop_none.
Qed.

Lemma C8_witness :
  Logan.APPLICANT_RE (_clean (txt "Applicant"))
  = Some (MatchObj (Some 1) (Some []))
  ∧ Forall (not_label Logan.APPLICANT_RE)
           (take 1 [txt "LOGAN CITY"; txt "Applicant"; txt " ";
                    txt "John  Smith"])
  ∧ Logan._find_value_after_label
      [txt "LOGAN CITY"; txt "Applicant"; txt " "; txt "John  Smith"]
      Logan.APPLICANT_RE 80
    = _clean (Logan._next_meaningful
                [txt "LOGAN CITY"; txt "Applicant"; txt " ";
                 txt "John  Smith"] 2).
Proof.
  assert (Logan.APPLICANT_RE (_clean (txt "Applicant"))
          = Some (MatchObj (Some 1) (Some []))) as Hm
    by (vm_compute; reflexivity).
  assert (Forall (not_label Logan.APPLICANT_RE)
           (take 1 [txt "LOGAN CITY"; txt "Applicant"; txt " ";
                    txt "John  Smith"])) as Hpre.
  { simpl. constructor; [right; vm_compute; reflexivity|constructor]. }
  split; [exact Hm|]. split; [exact Hpre|].
  assert (_clean (txt "Applicant") ≠ []) as Hne by (vm_compute; discriminate).
  destruct (proj1 (C8_field_extractor_order
                     [txt "LOGAN CITY"; txt "Applicant"; txt " ";
                      txt "John  Smith"] Logan.APPLICANT_RE 80)
              1 (txt "Applicant") (MatchObj (Some 1) (Some []))
              ltac:(lia) eq_refl Hne Hm Hpre) as (_ & _ & H3).
  apply H3; [reflexivity|]. left. vm_compute. intros Hin.
  repeat (apply elem_of_cons in Hin as [Hin|Hin]; [discriminate Hin|]).
  by apply elem_of_nil in Hin.
Defined.

(* ================================================================== *)
(** * A document in which nothing is recognised                         *)
(* ================================================================== *)

Section empty_document.
Import Logan.

Lemma turn_unrecognised lines i raw st :
  unrecognised raw →
  turn lines i raw Outer st = None ∨ turn lines i raw Outer st = Some (Outer, st).
Proof.
  intros (_ & Hs & Hc). unfold turn. case_bool_decide; [by right|].
  unfold outer_turn. destruct (_ || _); [by left|]. rewrite Hs.
  unfold Spec.condition_number in Hc.
  destruct (Re.match_ COND_INLINE_RE (_clean raw)) as [[??]|]; [done|].
  rewrite Hc. by right.
Qed.

Lemma walk_lines_unrecognised lines todo :
  ∀ i st, Forall unrecognised todo → walk_lines lines Outer i todo st = st.
Proof.
  induction todo as [|raw todo IH]; intros i st Hall; simpl; [done|].
  apply Forall_cons in Hall as [Hraw Hall].
  destruct (turn_unrecognised lines i raw st Hraw) as [-> | ->]; [done|].
  by apply IH.
Qed.

Lemma find_value_unrecognised lines re n :
  re ∈ logan_labels → Forall unrecognised lines →
  _find_value_after_label lines re n = [].
Proof.
  intros Hre Hall. apply find_value_loop_none.
  apply Forall_take. eapply Forall_impl; [exact Hall|].
  intros raw (Hl & _). rewrite Forall_forall in Hl. by apply Hl.
Qed.

(** The PDF adapter on a document in which nothing is recognised: no
    section, no condition, and every field of [applicationDetails] present
    and empty. *)
Lemma logan_empty_document (lines : list text) (plans : list Plan.t) :
  Forall unrecognised lines →
  Parsed.sections (parse_logan_conditions_pdf lines plans) = []
  ∧ Summary.numberOfConditions
      (Parsed.summary (parse_logan_conditions_pdf lines plans)) = 0
  ∧ Forall (λ k, Parsed.applicationDetails
                   (parse_logan_conditions_pdf lines plans) !! k = Some [])
           logan_fields.
Proof.
  intros Hall.
  assert (_parse_conditions lines = []) as Hsec.
  { unfold _parse_conditions. by rewrite walk_lines_unrecognised. }
  unfold parse_logan_conditions_pdf, _extract_logan_application_details.
  rewrite !find_value_unrecognised
    by (try done; unfold logan_labels;
        repeat first [apply list_elem_of_here|apply list_elem_of_further]).
  simpl. rewrite Hsec. split_and!; [done|done|].
  repeat constructor.
Qed.

End empty_document.

(** C9 — where the code departs from the claim: on a page without the
    APPLICATION DETAILS marker the HTML adapter returns no section and no
    condition, but its [applicationDetails] is the empty dictionary, in
    which no header field is present, whatever the rest of the page
    holds. *)
Theorem C9_bcc_application_details_missing :
  (∀ (drawings : option (option Bcc.table)) (bs : list Bcc.bold),
     Parsed.applicationDetails
       (Bcc.parse_bcc_conditions_html (Bcc.Soup None drawings bs)) = ∅)
  ∧ Parsed.sections (Bcc.parse_bcc_conditions_html (Bcc.Soup None None []))
    = []
  ∧ Summary.numberOfConditions
      (Parsed.summary (Bcc.parse_bcc_conditions_html (Bcc.Soup None None [])))
    = 0
  ∧ Forall (λ k, Parsed.applicationDetails
                   (Bcc.parse_bcc_conditions_html (Bcc.Soup None None []))
                 !! k = None)
           Spec.header_fields.
Proof.
  split_and!.
  - intros drawings bs. unfold Bcc.parse_bcc_conditions_html.
    by destruct (Bcc._parse_conditions _).
  - reflexivity.
  - reflexivity.
  - repeat constructor.
Qed.

(* ================================================================== *)
(** * Top-level entries stay where they are                             *)
(* ================================================================== *)

Lemma number_alter_at f p :
  (∀ x, number (f x) = number x) →
  ∀ c, number (alter_at f p c) = number c.
Proof.
  intros Hf. destruct p as [|j p]; intros c; [apply Hf|]. by destruct c.
Qed.

Lemma numbers_alter_top f j p cs :
  (∀ x, number (f x) = number x) →
  number <$> alter_top f j p cs = number <$> cs.
Proof.
  intros Hf. unfold alter_top. revert j.
  induction cs as [|c cs IH]; intros [|j]; simpl; [done..| |].
  - by rewrite number_alter_at.
  - f_equal. apply IH.
Qed.

Lemma elem_of_numbers (n : text) (cs : list condition) :
  (∃ c, c ∈ cs ∧ number c = n) ↔ n ∈ number <$> cs.
Proof.
  rewrite list_elem_of_fmap. split; intros (c & H1 & H2); eauto.
Qed.

Lemma has_top_numbers T n secs :
  has_top T n secs
  ↔ ∃ s, s ∈ secs ∧ Sec.title s = T ∧ n ∈ number <$> Sec.conditions s.
Proof.
  unfold has_top. split.
  - intros (s & c & ? & ? & ? & ?). exists s. split_and!; [done..|].
    apply elem_of_numbers. eauto.
  - intros (s & ? & ? & (c & ? & ?)%elem_of_numbers). eauto 10.
Qed.

Lemma has_top_app T n secs more :
  has_top T n secs → has_top T n (secs ++ more).
Proof.
  intros (s & c & Hs & ?). exists s, c. split; [|done].
  apply elem_of_app. by left.
Qed.

Lemma has_top_alter T n (g : Sec.t → Sec.t) k secs :
  (∀ s, Sec.title (g s) = Sec.title s) →
  (∀ s m, m ∈ number <$> Sec.conditions s →
          m ∈ number <$> Sec.conditions (g s)) →
  has_top T n secs → has_top T n (alter g k secs).
Proof.
  intros Ht Hn. rewrite !has_top_numbers. intros (s & Hs & HT & Hin).
  apply list_elem_of_lookup in Hs as [i Hi].
  destruct (decide (i = k)) as [->|Hne].
  - exists (g s). split_and!; [|by rewrite Ht|by apply Hn].
    apply list_elem_of_lookup. exists k.
    by rewrite list_lookup_alter_eq, Hi.
  - exists s. split_and!; [|done..].
    apply list_elem_of_lookup. exists i. by rewrite list_lookup_alter_ne.
Qed.

Lemma has_top_alter_ref T n f r secs :
  (∀ x, number (f x) = number x) →
  has_top T n secs → has_top T n (alter_ref f r secs).
Proof.
  intros Hf. unfold alter_ref. apply has_top_alter; [done|].
  intros s m. simpl. by rewrite numbers_alter_top.
Qed.

Lemma has_top_push T n c k secs :
  has_top T n secs →
  has_top T n
    (alter (λ s, Sec.set_conditions (Sec.conditions s ++ [c]) s) k secs).
Proof.
  apply has_top_alter; [done|]. intros s m. simpl.
  rewrite fmap_app, elem_of_app. by left.
Qed.

Lemma has_top_pushed c k secs s :
  secs !! k = Some s →
  has_top (Sec.title s) (number c)
    (alter (λ s, Sec.set_conditions (Sec.conditions s ++ [c]) s) k secs).
Proof.
  intros Hs. exists (Sec.set_conditions (Sec.conditions s ++ [c]) s), c.
  split_and!; [|done| |done].
  - apply list_elem_of_lookup. exists k. by rewrite list_lookup_alter_eq, Hs.
  - simpl. apply elem_of_app. right. apply list_elem_of_here.
Qed.

Lemma number_append_child c x : number (append_child c x) = number x.
Proof. by destruct x. Qed.

Section logan_orphans.
Import Re Logan.

Lemma attach_condition_has_top T n c st st' r :
  attach_condition c st = (st', r) →
  has_top T n (sections st) → has_top T n (sections st').
Proof.
  unfold attach_condition.
  destruct (if contains_char "." (number c) then _ else None) as [r0|].
  - intros [= <- <-] H. simpl. apply has_top_alter_ref; [|done].
    intros x. apply number_append_child.
  - intros [= <- <-] H. simpl. apply has_top_push.
    destruct (current_section st); [done|]. simpl. by apply has_top_app.
Qed.

(** A condition whose parent is not indexed lands at top level in the
    current section. *)
Lemma attach_condition_orphan c st st' r :
  logan_inv st →
  (if contains_char "."%char (number c)
   then cond_index st !! parent_number (number c) else None) = None →
  attach_condition c st = (st', r) →
  has_top (logan_current_title st) (number c) (sections st').
Proof.
  intros [_ Hcur] Hp. unfold attach_condition, logan_current_title.
  rewrite Hp. destruct (current_section st) as [k|] eqn:Hk; simpl.
  - destruct (lookup_lt_is_Some_2 _ _ (Hcur k eq_refl)) as [s Hs].
    rewrite Hs. intros [= <- <-]. simpl. rewrite Hk. simpl.
    by apply has_top_pushed.
  - rewrite list_lookup_middle by done. intros [= <- <-]. simpl.
    apply (has_top_pushed c (length (sections st)) _
             (Sec.Make (_clean (txt "UNSORTED")) [])).
    by rewrite list_lookup_middle.
Qed.

Lemma open_condition_sections num t d st st' r :
  open_condition num t d st = (st', r) →
  ∃ st1, attach_condition (_new_condition num t d) st = (st1, r)
         ∧ sections st' = sections st1.
Proof.
  unfold open_condition.
  destruct (attach_condition _ st) as [st1 r1]. intros [= <- <-]. eauto.
Qed.

Lemma turn_has_top T n lines i raw m st m' st' :
  turn lines i raw m st = Some (m', st') →
  has_top T n (sections st) → has_top T n (sections st').
Proof.
  intros Ht H. apply turn_cases in Ht
    as [[-> _]|[(r & nxt & -> & _)|[(t & -> & _)
       |(num & t & d & r & Ho & _)]]]; [done| | |].
  - simpl. by apply has_top_alter_ref.
  - simpl. by apply has_top_app.
  - apply open_condition_sections in Ho as (st1 & Ha & ->).
    by eapply attach_condition_has_top.
Qed.

Lemma walk_lines_has_top T n lines todo :
  ∀ m i st, has_top T n (sections st) →
            has_top T n (sections (walk_lines lines m i todo st)).
Proof.
  induction todo as [|raw todo IH]; intros m i st H; simpl; [done|].
  destruct (turn lines i raw m st) as [[m' st']|] eqn:Ht; [|done].
  apply IH. by eapply turn_has_top.
Qed.

Lemma reach_inv lines pre :
  ∀ m i st m' st', logan_inv st →
    Spec.reach lines m i pre st = Some (m', st') → logan_inv st'.
Proof.
  induction pre as [|raw pre IH]; intros m i st m' st' Hinv; simpl.
  { by intros [= _ <-]. }
  destruct (turn lines i raw m st) as [[m1 st1]|] eqn:Ht; [|done].
  apply IH. by apply turn_spec in Ht as [? _].
Qed.

Lemma walk_lines_app lines pre rest :
  ∀ m i st m' st',
    Spec.reach lines m i pre st = Some (m', st') →
    walk_lines lines m i (pre ++ rest) st
    = walk_lines lines m' (i + length pre) rest st'.
Proof.
  induction pre as [|raw pre IH]; intros m i st m' st'; simpl.
  { intros [= <- <-]. by rewrite Nat.add_0_r. }
  destruct (turn lines i raw m st) as [[m1 st1]|]; [|done].
  intros H. rewrite (IH _ _ _ _ _ H). f_equal. lia.
Qed.

Lemma has_top_drop_empty_unsorted T n secs :
  has_top T n secs → has_top T n (drop_empty_unsorted secs).
Proof.
  unfold drop_empty_unsorted. destruct secs as [|s0 others]; [done|].
  case_bool_decide; [|done].
  destruct (Sec.conditions s0) as [|c0 cs] eqn:Hc;
    [|by rewrite andb_false_r].
  destruct (existsb _ _); [|done]. simpl.
  intros (s & c & [->|Hs]%elem_of_cons & HT & Hin & Hn).
  - rewrite Hc in Hin. by apply elem_of_nil in Hin.
  - by exists s, c.
Qed.

(** An end marker starts with a letter and a condition line with a digit. *)
Lemma further_advice_head (lit_text : text) line :
  is_Some (match_ (g ← lit_nocase (txt "F" ++ lit_text); wordb;; mret g) line) →
  ∃ x r, line = x :: r ∧ eq_nocase "F"%char x = true.
Proof.
  intros [g (c' & H)%match_Some].
  apply in_mbind in H as (g' & c1 & Hg & H).
  apply in_lit_with in Hg as [Hg Hr]. simpl in *.
  apply Forall2_cons_inv_l in Hg as (x & t & Hx & _ & ->).
  by exists x, (t ++ rest c1).
Qed.

Lemma end_marker_not_condition raw :
  Spec.is_end_marker raw = true → Spec.condition_number raw = None.
Proof.
  unfold Spec.is_end_marker. rewrite orb_true_iff, !matches_true.
  intros Hend.
  assert (∃ x r, _clean raw = x :: r ∧ eq_nocase "F"%char x = true)
    as (x & r & Hline & Hx).
  { destruct Hend as [H|H].
    - by apply (further_advice_head (txt "URTHER ADVICE TO THE APPLICANT")).
    - by apply (further_advice_head (txt "URTHER ADVICE")). }
  apply nocase_F_not_digit in Hx.
  assert (∀ num rest', Spec.dotted num → _clean raw = num ++ rest' → False)
    as Hno.
  { intros num rest' (d & y & r' & Hdne & Hd & Hy & ->)%dotted_shape.
    rewrite Hline. destruct Hd as [|z d Hz _]; [done|]. simpl.
    intros [= -> _]. congruence. }
  unfold Spec.condition_number.
  destruct (match_ COND_INLINE_RE (_clean raw)) as [[num body]|] eqn:Hci.
  { apply cond_inline_inv in Hci as (Hd & w & r' & Heq & _).
    by destruct (Hno _ _ Hd Heq). }
  destruct (match_ COND_NUM_ONLY_RE (_clean raw)) as [num|] eqn:Hcn; [|done].
  apply cond_num_only_inv in Hcn as (Hd & r' & Heq & _).
  by destruct (Hno _ _ Hd Heq).
Qed.

(** A condition line is always given to [open_condition], in either
    loop. *)
Lemma turn_condition_line lines i raw m st num :
  Spec.condition_number raw = Some num →
  ∃ d st' r, turn lines i raw m st = Some (Continuation r, st')
             ∧ open_condition num (_prev_topic_title lines i) d st = (st', r).
Proof.
  intros Hnum.
  assert (_clean raw ≠ []) as Hne.
  { intros H. by rewrite clean_empty_not_condition in Hnum. }
  assert (Spec.is_end_marker raw = false) as Hend.
  { destruct (Spec.is_end_marker raw) eqn:E; [|done].
    by rewrite end_marker_not_condition in Hnum. }
  assert (match_ SECTION_LINE_RE (_clean raw) = None) as Hsec.
  { destruct (match_ SECTION_LINE_RE (_clean raw)) eqn:E; [|done].
    unfold Spec.condition_number in Hnum.
    rewrite section_not_cond_inline, section_not_cond_num_only in Hnum;
      [done|by rewrite E..]. }
  assert (is_marker (_clean raw) = true) as Hmk.
  { unfold is_marker, Spec.condition_number in *.
    rewrite !orb_true_iff, !matches_true.
    destruct (match_ COND_INLINE_RE (_clean raw)) as [[??]|];
      [left; right; eauto|right; eauto]. }
  assert (∃ d st' r,
    outer_turn lines i (_clean raw) st = Some (Continuation r, st')
    ∧ open_condition num (_prev_topic_title lines i) d st = (st', r))
    as Hout.
  { unfold outer_turn. unfold Spec.is_end_marker in Hend. rewrite Hend, Hsec.
    unfold Spec.condition_number in Hnum.
    destruct (match_ COND_INLINE_RE (_clean raw)) as [[n d]|].
    - injection Hnum as ->.
      destruct (open_condition num _ d st) as [st' r] eqn:Ho. eauto.
    - rewrite Hnum.
      destruct (open_condition num _ [] st) as [st' r] eqn:Ho. eauto. }
  unfold turn. rewrite bool_decide_eq_false_2 by done.
  destruct m; [done|]. by rewrite Hmk.
Qed.

End logan_orphans.

Section bcc_orphans.
Import Bcc.

Lemma number_build_condition n t c0 c1 : number (build_condition n t c0 c1) = n.
Proof.
  unfold build_condition.
  destruct (_extract_proof_of_fulfilment _) as [d m].
  destruct (_extract_inline_timing d) as [cd it].
  by destruct (resolve_timing _ it).
Qed.

Lemma flush_has_top T n st :
  bcc_has_top T n st → has_top T n (sections (flush st)).
Proof.
  unfold flush. intros [H|(HT & c & Hc & Hn)].
  - destruct (current_conditions st); [done|]. simpl. by apply has_top_app.
  - destruct (current_conditions st) as [|c0 cs] eqn:Hcur.
    { by apply elem_of_nil in Hc. }
    simpl. exists (Sec.Make (current_section_title st) (c0 :: cs)), c.
    split_and!; [|done..]. apply elem_of_app. right. apply list_elem_of_here.
Qed.

Lemma append_to_parent_has_top T n r c st :
  bcc_has_top T n st → bcc_has_top T n (append_to_parent r c st).
Proof.
  unfold append_to_parent. intros [H|(HT & x & Hx & Hn)].
  - left. destruct (ref_section r <? _); simpl; [|done].
    apply has_top_alter_ref; [|done]. intros y. apply number_append_child.
  - destruct (ref_section r <? _); simpl; [right; eauto|].
    right. split; [done|]. simpl. apply elem_of_numbers.
    rewrite numbers_alter_top by apply number_append_child.
    apply elem_of_numbers. eauto.
Qed.

Lemma append_current_has_top T n c st :
  bcc_has_top T n st → bcc_has_top T n (append_current c st).
Proof.
  intros [H|(HT & x & Hx & Hn)]; [by left|]. right. split; [done|].
  exists x. split; [|done]. simpl. apply elem_of_app. by left.
Qed.

Lemma place_condition_has_top T n base suffix c st :
  bcc_has_top T n st → bcc_has_top T n (place_condition base suffix c st).
Proof.
  intros H. unfold place_condition.
  destruct (negb _); [destruct (condition_index st !! base) as [r|]|].
  - by apply (append_to_parent_has_top T n r (set_parentNumber base c) st)
      in H.
  - by apply (append_current_has_top T n c st) in H.
  - by apply (append_current_has_top T n c st) in H.
Qed.

Lemma visit_has_top T n b st :
  bcc_has_top T n st → bcc_has_top T n (visit b st).
Proof.
  intros H.
  destruct (visit_cases b st)
    as [[_ [->|[t ->]]]|[_ (base & sf & ti & c0 & c1 & _ & _ & ->)]].
  - done.
  - left. by apply flush_has_top.
  - by apply place_condition_has_top.
Qed.

Lemma foldl_visit_has_top T n bs :
  ∀ st, bcc_has_top T n st →
        bcc_has_top T n (foldl (λ st b, visit b st) st bs).
Proof.
  induction bs as [|b bs IH]; intros st H; simpl; [done|].
  apply IH. by apply visit_has_top.
Qed.

(** A subcondition whose base number is not indexed lands in
    [current_conditions], under the current title. *)
Lemma place_condition_orphan base suffix c st :
  suffix ≠ [] → condition_index st !! base = None →
  bcc_has_top (current_section_title st) (number c)
              (place_condition base suffix c st).
Proof.
  intros Hs Hi. unfold place_condition.
  rewrite bool_decide_eq_false_2 by done. simpl. rewrite Hi.
  right. split; [done|]. exists c. split; [|done]. simpl.
  apply elem_of_app. right. apply list_elem_of_here.
Qed.

Lemma visit_accepted b st base suffix title c0 c1 :
  Spec.header b = Some (base, suffix, title) →
  Spec.row_cells b = Some (c0, c1) →
  visit b st
  = place_condition base suffix (build_condition (base ++ suffix) title c0 c1) st.
Proof.
  intros Hh Hr.
  destruct (visit_cases b st)
    as [[Hacc _]|[_ (base' & sf & ti & c0' & c1' & Hh' & Hr' & ->)]].
  - unfold Spec.accepted, Spec.is_header in Hacc. by rewrite Hh, Hr in Hacc.
  - by simplify_eq.
Qed.

End bcc_orphans.

(* ================================================================== *)
(** * Orphan subconditions                                              *)
(* ================================================================== *)

(** C3 — a subcondition that the walk recognises before its parent number
    is indexed is in the output as a top-level entry of the section that
    was current when it was met.  For the HTML adapter: a header with a
    letter suffix, in a row with two cells, whose base number is not in
    [condition_index].  For the PDF adapter: a line that shows a condition
    number, met by the walk, whose parent number is not in [cond_index];
    the section is the one opened last, or UNSORTED when none was. *)
Theorem C3_orphan_subcondition_is_kept :
  (∀ (pre post : list Bcc.bold) (b : Bcc.bold) (base suffix title : text)
     (c0 c1 : Bcc.cell),
     Spec.header b = Some (base, suffix, title) → suffix ≠ [] →
     Spec.row_cells b = Some (c0, c1) →
     Bcc.condition_index (Bcc.run pre) !! base = None →
     has_top (Bcc.current_section_title (Bcc.run pre)) (base ++ suffix)
             (Bcc._parse_conditions (pre ++ b :: post)).1)
  ∧ (∀ (pre post : list text) (raw num : text) (m : Logan.mode)
       (st : Logan.state),
       Spec.reach (pre ++ raw :: post) Logan.Outer 0 pre Logan.initial
       = Some (m, st) →
       Spec.condition_number raw = Some num →
       Logan.cond_index st !! Logan.parent_number num = None →
       has_top (logan_current_title st) num
               (Logan._parse_conditions (pre ++ raw :: post))).
Proof.
  split.
  - intros pre post b base suffix title c0 c1 Hh Hs Hr Hi.
    unfold Bcc._parse_conditions, Bcc.run. simpl.
    rewrite foldl_app. simpl. apply flush_has_top, foldl_visit_has_top.
    rewrite (visit_accepted b _ base suffix title c0 c1) by done.
    rewrite <-(number_build_condition (base ++ suffix) title c0 c1) at 1.
    by apply place_condition_orphan.
  - intros pre post raw num m st Hreach Hnum Hidx.
    unfold Logan._parse_conditions.
    apply has_top_drop_empty_unsorted.
    rewrite (walk_lines_app _ _ _ _ _ _ _ _ Hreach). simpl.
    destruct (turn_condition_line (pre ++ raw :: post) (length pre) raw m st
                num Hnum) as (d & st' & r & -> & Ho).
    apply walk_lines_has_top.
    apply open_condition_sections in Ho as (st1 & Ha & ->).
    pose proof (reach_inv _ _ _ _ _ _ _ initial_inv Hreach) as Hinv.
    assert (Spec.dotted num) as Hd.
    { unfold Spec.condition_number in Hnum.
      destruct (Re.match_ Logan.COND_INLINE_RE (_clean raw))
        as [[n b]|] eqn:E.
      - injection Hnum as ->. by apply cond_inline_inv in E as [? _].
      - by apply cond_num_only_inv in Hnum as [? _]. }
    rewrite <-(number_new_condition num
                 (Logan._prev_topic_title (pre ++ raw :: post) (length pre))
                 d Hd) at 1.
    eapply attach_condition_orphan; [done| |done].
    rewrite number_new_condition by done. rewrite Hidx.
    by destruct (contains_char _ _).
Qed.

Lemma C3_witness :
  has_top (txt "General") (txt "8(a)")
    (Bcc._parse_conditions
       ([] ++ Bcc.Bold (txt "8(a) Report")
                (Some [Bcc.Cell (txt "8(a) Report Send it.") (txt "Send it.");
                       Bcc.Cell (txt "") (txt "")]) None :: [])).1
  ∧ has_top (txt "1. GENERAL") (txt "2.3.1")
      (Logan._parse_conditions
         ([txt "1. GENERAL"] ++ txt "2.3.1. Orphan" :: [txt "more text"])).
Proof.
  split.
  - apply (proj1 C3_orphan_subcondition_is_kept [] []
             (Bcc.Bold (txt "8(a) Report")
                (Some [Bcc.Cell (txt "8(a) Report Send it.") (txt "Send it.");
                       Bcc.Cell (txt "") (txt "")]) None)
             (txt "8") (txt "(a)") (txt "Report")
             (Bcc.Cell (txt "8(a) Report Send it.") (txt "Send it."))
             (Bcc.Cell (txt "") (txt ""))).
    + vm_compute. reflexivity.
    + discriminate.
    + reflexivity.
    + reflexivity.
  - apply (proj2 C3_orphan_subcondition_is_kept [txt "1. GENERAL"]
             [txt "more text"] (txt "2.3.1. Orphan") (txt "2.3.1")
             Logan.Outer
             (Logan.ensure_section (txt "1. GENERAL") Logan.initial)).
    + vm_compute. reflexivity.
    + vm_compute. reflexivity.
    + reflexivity.
Defined.

(* ================================================================== *)
(** * Subcondition attachment                                           *)
(* ================================================================== *)

(** C4 — where the code departs from the claim: the PDF adapter attaches a
    deeper number under its parent, in order, but no node that it returns
    carries [parentNumber]; the HTML adapter, on the like input, sets it on
    both children. *)
Theorem C4_logan_children_lack_parentNumber :
  (∀ lines : list text,
     Forall (λ c, parentNumber c = None)
            (tree_nodes (Logan._parse_conditions lines)))
  ∧ map (λ c, (number c, map (λ ch, (number ch, parentNumber ch)) (children c)))
        (top_level
           (Logan._parse_conditions
              [txt "2.1. Parent"; txt "2.1.1. First"; txt "2.1.2. Second"]))
    = [ (txt "2.1", [ (txt "2.1.1", None); (txt "2.1.2", None) ]) ]
  ∧ map (λ c, (number c, map (λ ch, (number ch, parentNumber ch)) (children c)))
        (top_level
           (Bcc._parse_conditions
              [ Bcc.Bold (txt "8 Parent")
                  (Some [Bcc.Cell (txt "8 Parent") (txt "");
                         Bcc.Cell (txt "") (txt "")]) None;
                Bcc.Bold (txt "8(a) First")
                  (Some [Bcc.Cell (txt "8(a) First") (txt "");
                         Bcc.Cell (txt "") (txt "")]) None;
                Bcc.Bold (txt "8(b) Second")
                  (Some [Bcc.Cell (txt "8(b) Second") (txt "");
                         Bcc.Cell (txt "") (txt "")]) None ]).1)
    = [ (txt "8", [ (txt "8(a)", Some (txt "8"));
                    (txt "8(b)", Some (txt "8")) ]) ].
Proof.
  split_and!; [|vm_compute; reflexivity..].
  intros lines. unfold Logan._parse_conditions.
  rewrite tree_nodes_drop_empty_unsorted.
  destruct (walk_lines_spec lines lines Logan.Outer 0 Logan.initial
              initial_inv) as (_ & _ & HF).
  apply (HF (λ c, parentNumber c = None)).
  - split; intros x ?; by destruct x.
  - done.
  - constructor.
Qed.

(* ================================================================== *)
(** * The text helpers                                                  *)
(* ================================================================== *)

Section clean_form.

Lemma single_spaced_cons c s :
  single_spaced (c :: s)
  = (if is_space c
     then bool_decide (c = " "%char)
          && match s with d :: _ => negb (is_space d) | [] => false end
     else true) && single_spaced s.
Proof. reflexivity. Qed.

Lemma lstrip_split s :
  ∃ ws, s = ws ++ lstrip s ∧ Forall (λ x, is_space x = true) ws
        ∧ no_space_at (head (lstrip s)).
Proof.
  induction s as [|c s (ws & Heq & Hws & Hh)]; simpl.
  { by exists []. }
  destruct (is_space c) eqn:Hc.
  - exists (c :: ws). split_and!; [simpl; by f_equal|by constructor|done].
  - exists []. simpl. by rewrite Hc.
Qed.

Lemma lstrip_id s : no_space_at (head s) → lstrip s = s.
Proof. destruct s as [|c s]; simpl; [done|]. by intros ->. Qed.

Lemma rstrip_split s :
  ∃ ws, s = rstrip s ++ ws ∧ Forall (λ x, is_space x = true) ws
        ∧ no_space_at (last (rstrip s)).
Proof.
  unfold rstrip. destruct (lstrip_split (reverse s)) as (ws & Heq & Hws & Hh).
  exists (reverse ws). split_and!.
  - rewrite <-reverse_app, <-Heq. by rewrite reverse_involutive.
  - by apply Forall_reverse.
  - by rewrite last_reverse.
Qed.

Lemma rstrip_id s : no_space_at (last s) → rstrip s = s.
Proof.
  intros H. unfold rstrip. rewrite lstrip_id, reverse_involutive; [done|].
  by rewrite head_reverse.
Qed.

Lemma rstrip_head s :
  no_space_at (head s) → no_space_at (head (rstrip s)).
Proof.
  intros H. destruct (rstrip_split s) as (ws & Heq & Hws & Hl).
  destruct (rstrip s) as [|c r] eqn:Hr; [done|].
  rewrite Heq in H. done.
Qed.

Lemma strip_ends s :
  no_space_at (head (strip s)) ∧ no_space_at (last (strip s)).
Proof.
  unfold strip. split.
  - apply rstrip_head. by destruct (lstrip_split s) as (? & _ & _ & ?).
  - by destruct (rstrip_split (lstrip s)) as (? & _ & _ & ?).
Qed.

Lemma sub_ws_true_head t :
  no_space_at (last t) → t ≠ [] →
  ∃ d r, sub_ws true t = d :: r ∧ is_space d = false.
Proof.
  induction t as [|c s IH]; intros Hl Hne; [done|]. simpl.
  destruct (is_space c) eqn:Hc.
  - destruct s as [|c' s']; [simpl in Hl; congruence|].
    apply IH; [by rewrite last_cons_cons in Hl|done].
  - eauto.
Qed.

Lemma sub_ws_single_spaced t :
  ∀ b, no_space_at (last t) → single_spaced (sub_ws b t) = true.
Proof.
  induction t as [|c s IH]; intros b Hl; [done|]. simpl.
  assert (s ≠ [] → no_space_at (last s)) as Hs.
  { destruct s; [done|]. by rewrite last_cons_cons in Hl. }
  destruct (is_space c) eqn:Hc.
  - assert (s ≠ []) as Hne by (intros ->; simpl in Hl; congruence).
    destruct b; [by apply IH, Hs|].
    pose proof (IH true (Hs Hne)) as IH'.
    destruct (sub_ws_true_head s (Hs Hne) Hne) as (d & r & Hd & Hsp).
    rewrite Hd in IH' |- *. rewrite single_spaced_cons, IH', Hsp. done.
  - simpl. rewrite Hc. simpl. destruct s as [|c' s']; [done|].
    by apply IH, Hs.
Qed.

Lemma clean_form_clean s : clean_form (_clean s) = true.
Proof.
  unfold clean_form, _clean. destruct (strip_ends s) as [Hh Hl].
  rewrite sub_ws_single_spaced by done. simpl.
  destruct (strip s) as [|c r]; [done|]. simpl in *. by rewrite Hh, Hh.
Qed.

Lemma single_spaced_last t : single_spaced t = true → no_space_at (last t).
Proof.
  induction t as [|c s IH]; [done|]. simpl. intros [H1 H2]%andb_true_iff.
  destruct s as [|c' s'].
  - simpl. destruct (is_space c); [|done]. by rewrite andb_false_r in H1.
  - rewrite last_cons_cons. by apply IH.
Qed.

Lemma sub_ws_id t :
  ∀ b, single_spaced t = true → (b = true → no_space_at (head t)) →
       sub_ws b t = t.
Proof.
  induction t as [|c s IH]; intros b Hs Hb; [done|]. simpl in *.
  apply andb_true_iff in Hs as [H1 H2].
  destruct (is_space c) eqn:Hc.
  - destruct b; [specialize (Hb eq_refl); congruence|].
    apply andb_true_iff in H1 as [H1 H3]. apply bool_decide_eq_true in H1.
    f_equal; [done|]. apply IH; [done|]. intros _.
    destruct s as [|c' s']; [done|]. simpl. by apply negb_true_iff.
  - f_equal. apply IH; [done|]. done.
Qed.

Lemma clean_fixpoint t : clean_form t = true → _clean t = t.
Proof.
  unfold clean_form. intros [H1 H2]%andb_true_iff.
  assert (no_space_at (head t)) as Hh.
  { destruct t; [done|]. simpl. by apply negb_true_iff. }
  unfold _clean, strip. rewrite (lstrip_id t) by done.
  rewrite rstrip_id by by apply single_spaced_last.
  by apply sub_ws_id.
Qed.

Lemma clean_idempotent s : _clean (_clean s) = _clean s.
Proof. apply clean_fixpoint, clean_form_clean. Qed.

End clean_form.

(** X1 — [_clean] returns a text in clean form: no whitespace at either
    end, and every whitespace character inside is a single space between
    two other characters.  Such a text is a fixed point of [_clean], so
    cleaning twice is cleaning once. *)
Theorem X1_clean_normal_form :
  ∀ s : text,
    clean_form (_clean s) = true
    ∧ _clean (_clean s) = _clean s
    ∧ (_clean s = s ↔ clean_form s = true).
Proof.
  intros s. split_and!.
  - apply clean_form_clean.
  - apply clean_idempotent.
  - split; [intros <-; apply clean_form_clean|apply clean_fixpoint].
Qed.

Section safe_join.

Lemma single_spaced_app_space a b :
  single_spaced a = true → clean_form b = true → b ≠ [] →
  single_spaced (a ++ " "%char :: b) = true.
Proof.
  intros Ha [Hb1 Hb2]%andb_true_iff Hne.
  induction a as [|c s IH].
  - simpl. destruct b as [|d b']; [done|]. rewrite Hb2. simpl. exact Hb1.
  - rewrite single_spaced_cons in Ha. apply andb_true_iff in Ha as [H1 H2].
    change ((c :: s) ++ " "%char :: b) with (c :: (s ++ " "%char :: b)).
    rewrite single_spaced_cons, IH by done. rewrite andb_true_r.
    destruct (is_space c); [|done].
    apply andb_true_iff in H1 as [H1 H3]. rewrite H1. simpl.
    destruct s as [|d s']; [done|]. exact H3.
Qed.

Lemma clean_form_app_space a b :
  clean_form a = true → clean_form b = true → a ≠ [] → b ≠ [] →
  clean_form (a ++ " "%char :: b) = true.
Proof.
  intros Ha Hb Hna Hnb. unfold clean_form.
  apply andb_true_iff in Ha as [Ha1 Ha2].
  rewrite single_spaced_app_space by done.
  destruct a as [|c s]; [done|]. exact Ha2.
Qed.

Lemma join_snoc sep ps x :
  ps ≠ [] → join sep (ps ++ [x]) = join sep ps ++ sep :: x.
Proof.
  induction ps as [|p ps IH]; intros Hne; [done|].
  destruct ps as [|q ps]; [done|].
  change (join sep ((p :: q :: ps) ++ [x]))
    with (p ++ sep :: join sep ((q :: ps) ++ [x])).
  rewrite IH by done. change (join sep (p :: q :: ps))
    with (p ++ sep :: join sep (q :: ps)).
  by rewrite <-app_assoc.
Qed.

Lemma join_nil_inv sep ps :
  Forall (λ p, p ≠ []) ps → join sep ps = [] → ps = [].
Proof.
  destruct ps as [|p ps]; [done|]. intros [Hp _]%Forall_cons.
  destruct ps; simpl; [done|]. by destruct p.
Qed.

Lemma clean_form_join ps :
  Forall (λ p, clean_form p = true ∧ p ≠ []) ps →
  clean_form (join " "%char ps) = true.
Proof.
  induction ps as [|p ps IH]; [done|]. intros [[Hp Hne] Hps]%Forall_cons.
  destruct ps as [|q ps]; [done|].
  change (join " "%char (p :: q :: ps))
    with (p ++ " "%char :: join " "%char (q :: ps)).
  apply clean_form_app_space; [done|by apply IH|done|].
  intros Hnil. apply join_nil_inv in Hnil; [done|].
  eapply Forall_impl; [exact Hps|]. by intros ? [_ ?].
Qed.

Lemma safe_join_nil_l b : _safe_join [] b = _clean b.
Proof. reflexivity. Qed.

Lemma safe_join_clean_form a b : clean_form (_safe_join a b) = true.
Proof.
  unfold _safe_join. repeat case_bool_decide; apply clean_form_clean.
Qed.

Lemma filter_nonblank_snoc (l : list text) x :
  List.filter nonblank (l ++ [x])
  = List.filter nonblank l ++ (if nonblank x then [x] else []).
Proof. by rewrite List.filter_app. Qed.

Lemma Forall_filter_nonblank_clean (l : list text) :
  Forall (λ p, clean_form p = true ∧ p ≠ [])
         (List.filter nonblank (map _clean l)).
Proof.
  induction l as [|x l IH]; simpl; [constructor|].
  unfold nonblank at 1. case_bool_decide; simpl; [done|].
  constructor; [|done]. split; [apply clean_form_clean|done].
Qed.

Lemma foldl_safe_join (pieces : list text) :
  foldl _safe_join [] pieces
  = join " "%char (List.filter nonblank (map _clean pieces)).
Proof.
  induction pieces as [|x l IH] using rev_ind; [done|].
  rewrite foldl_app, map_app. simpl. rewrite filter_nonblank_snoc, IH.
  pose proof (Forall_filter_nonblank_clean l) as HF.
  set (ps := List.filter nonblank (map _clean l)) in *.
  unfold _safe_join.
  rewrite (clean_fixpoint (join " "%char ps)) by by apply clean_form_join.
  unfold nonblank at 1.
  case_bool_decide as Hj.
  - apply join_nil_inv in Hj as ->;
      [|eapply Forall_impl; [exact HF|by intros ? [_ ?]]].
    case_bool_decide as Hx; simpl; [by rewrite Hx|done].
  - case_bool_decide as Hx; simpl; [by rewrite app_nil_r|].
    assert (ps ≠ []) as Hps by (intros E; by rewrite E in Hj).
    rewrite join_snoc by done.
    apply clean_fixpoint, clean_form_app_space;
      [by apply clean_form_join|apply clean_form_clean|done|done].
Qed.

End safe_join.

(** X2 — [_safe_join] builds a text piece by piece: joining pieces one at
    a time, from a cleaned first piece on, gives the cleaned pieces that
    are not empty, in their order, separated by single spaces; and what
    [_safe_join] returns is always in clean form. *)
Theorem X2_safe_join_accumulates :
  ∀ (first : text) (pieces : list text),
    foldl _safe_join (_clean first) pieces
    = join " "%char (List.filter nonblank (map _clean (first :: pieces)))
    ∧ clean_form (foldl _safe_join (_clean first) pieces) = true.
Proof.
  intros first pieces.
  assert (foldl _safe_join (_clean first) pieces
          = foldl _safe_join [] (first :: pieces)) as -> by reflexivity.
  rewrite foldl_safe_join. split; [done|].
  apply clean_form_join, Forall_filter_nonblank_clean.
Qed.

(* ================================================================== *)
(** * The PDF walk: where it stops and what a condition collects        *)
(* ================================================================== *)

Section logan_continuation.
Import Re Logan.

Lemma node_at_alter_at_eq f p :
  ∀ c x, node_at p c = Some x → node_at p (alter_at f p c) = Some (f x).
Proof.
  induction p as [|j p IH]; intros c x; cbn [node_at alter_at].
  { by intros [= ->]. }
  destruct c as [n t d ti ts tc tin m ch pn]. cbn.
  destruct (ch !! j) as [y|] eqn:Hy; [|done]. simpl. intros Hx.
  rewrite list_lookup_alter_eq, Hy. simpl. by apply IH.
Qed.

Lemma node_ref_alter_ref_eq f r secs x :
  node_ref r secs = Some x → node_ref r (alter_ref f r secs) = Some (f x).
Proof.
  unfold node_ref, alter_ref, node_top, alter_top.
  rewrite list_lookup_alter_eq.
  destruct (secs !! ref_section r) as [s|]; [|done]. simpl.
  rewrite list_lookup_alter_eq.
  destruct (Sec.conditions s !! ref_top r) as [c|]; [|done]. simpl.
  apply node_at_alter_at_eq.
Qed.

Lemma marker_head_digit line :
  is_marker line = true → ∃ x r, line = x :: r ∧ is_digit x = true.
Proof.
  unfold is_marker. rewrite !orb_true_iff, !matches_true.
  intros [[[[g1 g2] H]|[[num body] H]]|[num H]].
  - apply match_Some in H as (c' & H).
    apply in_mbind in H as (d & c1 & Hd & _).
    apply in_plus in Hd as (Hne & Hall & Hrest). simpl in Hrest.
    destruct d as [|x d]; [done|]. apply Forall_cons in Hall as [Hx _].
    rewrite Hrest. by eexists _, _.
  - apply cond_inline_inv in H as (Hnum & w & r & -> & _).
    apply dotted_shape in Hnum as (d & x & r' & Hne & Hall & _ & ->).
    destruct d as [|y d]; [done|]. apply Forall_cons in Hall as [Hy _].
    by eexists _, _.
  - apply cond_num_only_inv in H as (Hnum & r & -> & _).
    apply dotted_shape in Hnum as (d & x & r' & Hne & Hall & _ & ->).
    destruct d as [|y d]; [done|]. apply Forall_cons in Hall as [Hy _].
    by eexists _, _.
Qed.

Lemma end_marker_head raw :
  Spec.is_end_marker raw = true →
  ∃ x r, _clean raw = x :: r ∧ is_digit x = false.
Proof.
  unfold Spec.is_end_marker. rewrite orb_true_iff, !matches_true.
  intros Hend.
  assert (∃ x r, _clean raw = x :: r ∧ eq_nocase "F"%char x = true)
    as (x & r & Hline & Hx).
  { destruct Hend as [H|H].
    - by apply (further_advice_head (txt "URTHER ADVICE TO THE APPLICANT")).
    - by apply (further_advice_head (txt "URTHER ADVICE")). }
  exists x, r. split; [done|]. by apply nocase_F_not_digit.
Qed.

Lemma end_marker_not_marker raw :
  Spec.is_end_marker raw = true → is_marker (_clean raw) = false.
Proof.
  intros (x & r & Hline & Hx)%end_marker_head.
  destruct (is_marker (_clean raw)) eqn:Hm; [|done].
  apply marker_head_digit in Hm as (y & r' & Hline' & Hy).
  rewrite Hline in Hline'. simplify_eq. congruence.
Qed.

Lemma outer_turn_None lines i raw st :
  outer_turn lines i (_clean raw) st = None ↔ Spec.is_end_marker raw = true.
Proof.
  unfold outer_turn, Spec.is_end_marker.
  destruct (matches FURTHER_ADVICE_TO_APPLICANT_RE (_clean raw)
            || matches FURTHER_ADVICE_RE (_clean raw)); [done|].
  split; [|done].
  destruct (match_ SECTION_LINE_RE (_clean raw)) as [[g1 g2]|]; [done|].
  destruct (match_ COND_INLINE_RE (_clean raw)) as [[num desc]|].
  { by destruct (open_condition _ _ _ _). }
  destruct (match_ COND_NUM_ONLY_RE (_clean raw)) as [num|]; [|done].
  by destruct (open_condition _ _ _ _).
Qed.

Lemma end_marker_not_blank raw :
  Spec.is_end_marker raw = true → _clean raw ≠ [].
Proof. intros (x & r & -> & _)%end_marker_head. done. Qed.

Lemma turn_stops lines i raw m st :
  turn lines i raw m st = None ↔ m = Outer ∧ Spec.is_end_marker raw = true.
Proof.
  unfold turn. case_bool_decide as Hline.
  { split; [done|]. intros [_ H]. by apply end_marker_not_blank in H. }
  destruct m as [|r].
  { rewrite outer_turn_None. split; [by intros ?|by intros [_ ?]]. }
  destruct (is_marker (_clean raw)) eqn:Hm.
  - rewrite outer_turn_None. split; [|by intros [? _]].
    intros H%end_marker_not_marker. congruence.
  - split; [done|]. by intros [? _].
Qed.

Lemma turn_absorbs lines i raw r st :
  _clean raw ≠ [] → is_marker (_clean raw) = false →
  turn lines i raw (Continuation r) st
  = Some (Continuation r, extend_description r (_clean raw) st).
Proof.
  intros Hne Hm. unfold turn. rewrite bool_decide_eq_false_2 by done.
  by rewrite Hm.
Qed.

Lemma turn_blank lines i raw m st :
  _clean raw = [] → turn lines i raw m st = Some (m, st).
Proof. intros H. unfold turn. by rewrite bool_decide_eq_true_2. Qed.

Lemma set_description_twice d1 d2 c :
  set_description d2 (set_description d1 c) = set_description d2 c.
Proof. by destruct c. Qed.

Lemma set_description_same c : set_description (description c) c = c.
Proof. by destruct c. Qed.

Lemma reach_continuation lines conts :
  ∀ i r st c,
    node_ref r (sections st) = Some c →
    Forall (λ raw, is_marker (_clean raw) = false) conts →
    ∃ st',
      Spec.reach lines (Continuation r) i conts st = Some (Continuation r, st')
      ∧ node_ref r (sections st')
        = Some (set_description
                  (foldl _safe_join (description c)
                         (List.filter nonblank (map _clean conts))) c).
Proof.
  induction conts as [|raw conts IH]; intros i r st c Hc Hall; simpl.
  { exists st. by rewrite set_description_same. }
  apply Forall_cons in Hall as [Hraw Hall].
  unfold nonblank at 1. case_bool_decide as Hline; simpl.
  - rewrite turn_blank by done. by apply IH.
  - rewrite turn_absorbs by done.
    edestruct (IH (S i) r (extend_description r (_clean raw) st))
      as (st' & Hreach & Hnode); [|exact Hall|].
    { simpl. by apply node_ref_alter_ref_eq. }
    exists st'. split; [done|]. rewrite Hnode. by destruct c.
Qed.

Lemma filter_nonblank_cleaned (l : list text) :
  List.filter nonblank (map _clean (List.filter nonblank (map _clean l)))
  = List.filter nonblank (map _clean l).
Proof.
  induction l as [|x l IH]; [done|]. simpl.
  destruct (nonblank (_clean x)) eqn:Hx; [|done]. simpl.
  by rewrite clean_idempotent, Hx, IH.
Qed.

End logan_continuation.

(** X3 — the PDF walk stops at an end-of-conditions line only in its
    outer loop.  A turn of the walk breaks exactly when the walk is not
    inside a condition and the line is an end marker; an end marker met
    while the lines of a condition are collected is appended to the
    description of that condition like any other line, and the walk goes
    on. *)
Theorem X3_walk_stops_only_outside_a_condition :
  ∀ (lines : list text) (i : nat) (raw : text) (m : Logan.mode)
    (st : Logan.state),
    (Logan.turn lines i raw m st = None
     ↔ m = Logan.Outer ∧ Spec.is_end_marker raw = true)
    ∧ (∀ r, m = Logan.Continuation r → Spec.is_end_marker raw = true →
         Logan.turn lines i raw m st
         = Some (Logan.Continuation r,
                 Logan.extend_description r (_clean raw) st)).
Proof.
  intros lines i raw m st. split; [apply turn_stops|].
  intros r -> Hend. apply turn_absorbs.
  - by apply end_marker_not_blank.
  - by apply end_marker_not_marker.
Qed.

Lemma X3_witness :
  Spec.is_end_marker (txt "Further advice to the applicant") = true
  ∧ Logan.turn [] 0 (txt "Further advice to the applicant")
      (Logan.Continuation (Ref 0 0 [])) Logan.initial
    = Some (Logan.Continuation (Ref 0 0 []),
            Logan.extend_description (Ref 0 0 [])
              (_clean (txt "Further advice to the applicant")) Logan.initial).
Proof.
  split; [vm_compute; reflexivity|].
  apply (proj2 (X3_walk_stops_only_outside_a_condition
                  [] 0 (txt "Further advice to the applicant")
                  (Logan.Continuation (Ref 0 0 [])) Logan.initial)
               (Ref 0 0 []) eq_refl).
  vm_compute; reflexivity.
Defined.

(** X4 — what a condition collects.  Once a condition is open, the lines
    that follow it up to the next section or condition header are all put
    into its description: the description becomes the text it had and the
    cleaned lines that are not blank, in their order, separated by single
    spaces; nothing else of the condition changes, and the walk is still
    inside the condition. *)
Theorem X4_description_collects_the_lines :
  ∀ (lines : list text) (i : nat) (conts : list text) (r : ref)
    (st : Logan.state) (c : condition),
    node_ref r (Logan.sections st) = Some c →
    clean_form (description c) = true →
    Forall (λ raw, Logan.is_marker (_clean raw) = false) conts →
    ∃ st',
      Spec.reach lines (Logan.Continuation r) i conts st
      = Some (Logan.Continuation r, st')
      ∧ node_ref r (Logan.sections st')
        = Some (set_description
                  (join " "%char
                     (List.filter nonblank (description c :: map _clean conts)))
                  c).
Proof.
  intros lines i conts r st c Hc Hd Hall.
  destruct (reach_continuation lines conts i r st c Hc Hall)
    as (st' & Hreach & Hnode).
  exists st'. split; [done|]. rewrite Hnode. do 2 f_equal.
  rewrite <-(clean_fixpoint _ Hd) at 1.
  change (foldl _safe_join (_clean (description c)) ?ps)
    with (foldl _safe_join [] (description c :: ps)).
  rewrite foldl_safe_join. cbn [map List.filter].
  by rewrite filter_nonblank_cleaned, (clean_fixpoint _ Hd).
Qed.

Lemma X4_witness :
  ∃ st',
    Spec.reach [] (Logan.Continuation (Ref 0 0 [])) 1
      [txt " along the  boundary "; txt "  "; txt "Further advice: ask"]
      (Logan.State
         [Sec.Make (txt "UNSORTED")
            [Logan._new_condition (txt "1.1") [] (txt "Build the fence")]]
         (Some 0) ∅)
    = Some (Logan.Continuation (Ref 0 0 []), st')
    ∧ node_ref (Ref 0 0 []) (Logan.sections st')
      = Some (set_description
                (join " "%char
                   (List.filter nonblank
                      (description
                         (Logan._new_condition (txt "1.1") []
                            (txt "Build the fence"))
                       :: map _clean
                            [txt " along the  boundary "; txt "  ";
                             txt "Further advice: ask"])))
                (Logan._new_condition (txt "1.1") [] (txt "Build the fence"))).
Proof.
  apply X4_description_collects_the_lines.
  - reflexivity.
  - vm_compute; reflexivity.
  - repeat constructor.
Defined.

(* ================================================================== *)
(** * The sections that the PDF walk returns                            *)
(* ================================================================== *)

Section logan_sections.
Import Re Logan.

Lemma clean_head d s :
  is_space d = false → ∃ r, _clean (d :: s) = d :: r.
Proof.
  intros Hd. unfold _clean, strip. simpl. rewrite Hd.
  destruct (rstrip_split (d :: s)) as (ws & Heq & Hws & _).
  destruct (rstrip (d :: s)) as [|d' r] eqn:Hr.
  - simpl in Heq. subst ws. apply Forall_cons in Hws as [? _]. congruence.
  - simpl in Heq. injection Heq as <- _. simpl. rewrite Hd. by eexists.
Qed.

Lemma grows_refl s : grows s s.
Proof. by split. Qed.

Lemma Forall2_grows_refl secs : Forall2 grows secs secs.
Proof. induction secs; constructor; [apply grows_refl|done]. Qed.

Lemma Forall2_grows_alter (f : Sec.t → Sec.t) k secs :
  (∀ s, grows s (f s)) → Forall2 grows secs (alter f k secs).
Proof.
  intros Hf. revert k. induction secs as [|s secs IH]; intros k; [constructor|].
  destruct k as [|k]; simpl; constructor.
  - apply Hf.
  - apply Forall2_grows_refl.
  - apply grows_refl.
  - apply IH.
Qed.

Lemma numbered_grows s s' : grows s s' → numbered s → numbered s'.
Proof. intros [Ht _] (d & r & H & Hd). exists d, r. by rewrite Ht. Qed.

Lemma shape_grows secs secs' :
  Forall2 grows secs secs' → sections_shape secs → sections_shape secs'.
Proof.
  intros H. destruct H as [|s s' secs secs' Hs Hrest]; [done|].
  simpl. intros [H0 Hothers]. split.
  - destruct H0 as [[Ht Hc]|Hn]; [left|right; by eapply numbered_grows].
    destruct Hs as [Ht' Hc']. split; [by rewrite Ht'|auto].
  - clear -Hrest Hothers. induction Hrest; [constructor|].
    apply Forall_cons in Hothers as [? ?].
    constructor; [by eapply numbered_grows|auto].
Qed.

Lemma grows_alter_top f j p s :
  grows s (Sec.set_conditions (alter_top f j p (Sec.conditions s)) s).
Proof.
  split; [done|]. simpl. unfold alter_top. intros Hne Hnil.
  apply (f_equal length) in Hnil. rewrite length_alter in Hnil.
  by destruct (Sec.conditions s).
Qed.

Lemma grows_push c s :
  grows s (Sec.set_conditions (Sec.conditions s ++ [c]) s).
Proof. split; [done|]. simpl. intros _. by destruct (Sec.conditions s). Qed.

Lemma Forall2_grows_length secs secs' :
  Forall2 grows secs secs' → secs = [] → secs' = [].
Proof. intros H ->. by inversion H. Qed.

Lemma shape_snoc_numbered secs s :
  sections_shape secs → numbered s → sections_shape (secs ++ [s]).
Proof.
  destruct secs as [|s0 others]; simpl.
  - intros _ Hs. split; [by right|constructor].
  - intros [H0 Hothers] Hs. split; [done|].
    apply Forall_app. split; [done|]. by constructor.
Qed.

Lemma sections_inv_alter_ref f r st secs' cur idx :
  logan_sections_inv st →
  secs' = alter_ref f r (sections st) → cur = current_section st →
  logan_sections_inv (State secs' cur idx).
Proof.
  intros [Hshape Hcur] -> ->. split; simpl.
  - eapply shape_grows; [|exact Hshape]. unfold alter_ref.
    apply Forall2_grows_alter. intros s. apply grows_alter_top.
  - intros Hnone. rewrite (Hcur Hnone). done.
Qed.

Lemma attach_condition_sections_inv c st :
  logan_sections_inv st → logan_sections_inv (attach_condition c st).1.
Proof.
  intros Hinv. unfold attach_condition.
  destruct (if contains_char "."%char (number c)
            then cond_index st !! parent_number (number c) else None)
    as [r|]; cbn [fst].
  { eapply sections_inv_alter_ref; [exact Hinv|reflexivity|reflexivity]. }
  destruct Hinv as [Hshape Hcur].
  destruct (current_section st) as [k|] eqn:Hk; simpl.
  - split; simpl; [|by rewrite Hk].
    eapply shape_grows; [|exact Hshape].
    apply Forall2_grows_alter. intros s. apply grows_push.
  - rewrite (Hcur eq_refl). simpl. split; simpl; [|done].
    split; [|constructor]. left. split; [by vm_compute|done].
Qed.

Lemma open_condition_sections_inv num t d st :
  logan_sections_inv st → logan_sections_inv (open_condition num t d st).1.
Proof.
  intros Hinv. unfold open_condition.
  pose proof (attach_condition_sections_inv (_new_condition num t d) st Hinv)
    as H.
  destruct (attach_condition (_new_condition num t d) st) as [st' r].
  exact H.
Qed.

Lemma ensure_section_sections_inv g1 g2 st :
  g1 ≠ [] → Forall (λ c, is_digit c = true) g1 →
  logan_sections_inv st →
  logan_sections_inv (ensure_section (g1 ++ txt ". " ++ g2) st).
Proof.
  intros Hne Hall [Hshape _]. split; simpl; [|done].
  apply shape_snoc_numbered; [done|].
  destruct g1 as [|d g1]; [done|]. apply Forall_cons in Hall as [Hd _].
  destruct (clean_head d (g1 ++ txt ". " ++ g2)) as [r Hr].
  { by apply digit_not_space. }
  exists d, r. split; [exact Hr|done].
Qed.

Lemma section_digits line g1 g2 :
  match_ SECTION_LINE_RE line = Some (g1, g2) →
  g1 ≠ [] ∧ Forall (λ c, is_digit c = true) g1.
Proof.
  intros (c' & H)%match_Some.
  apply in_mbind in H as (d & c1 & Hd & H).
  apply in_plus in Hd as (Hne & Hall & _).
  assert (d = g1) as <-; [|done].
  repeat (apply in_mbind in H as (? & ? & _ & H)).
  by apply in_mret in H as [[= <- _] _].
Qed.

Lemma outer_turn_sections_inv lines i line st m' st' :
  logan_sections_inv st →
  outer_turn lines i line st = Some (m', st') → logan_sections_inv st'.
Proof.
  intros Hinv. unfold outer_turn.
  destruct (matches FURTHER_ADVICE_TO_APPLICANT_RE line
            || matches FURTHER_ADVICE_RE line); [done|].
  destruct (match_ SECTION_LINE_RE line) as [[g1 g2]|] eqn:Hs.
  { intros [= _ <-]. apply section_digits in Hs as [? ?].
    by apply ensure_section_sections_inv. }
  destruct (match_ COND_INLINE_RE line) as [[num desc]|].
  { pose proof (open_condition_sections_inv num (_prev_topic_title lines i)
                  desc st Hinv) as H.
    destruct (open_condition _ _ _ _) as [st1 r]. by intros [= _ <-]. }
  destruct (match_ COND_NUM_ONLY_RE line) as [num|].
  { pose proof (open_condition_sections_inv num (_prev_topic_title lines i)
                  [] st Hinv) as H.
    destruct (open_condition _ _ _ _) as [st1 r]. by intros [= _ <-]. }
  by intros [= _ <-].
Qed.

Lemma turn_sections_inv lines i raw m st m' st' :
  logan_sections_inv st →
  turn lines i raw m st = Some (m', st') → logan_sections_inv st'.
Proof.
  intros Hinv. unfold turn. case_bool_decide; [by intros [= _ <-]|].
  destruct m as [|r]; [by apply outer_turn_sections_inv|].
  destruct (is_marker (_clean raw)); [by apply outer_turn_sections_inv|].
  intros [= _ <-]. by eapply sections_inv_alter_ref.
Qed.

Lemma walk_lines_sections_inv lines todo :
  ∀ m i st, logan_sections_inv st →
            logan_sections_inv (walk_lines lines m i todo st).
Proof.
  induction todo as [|raw todo IH]; intros m i st Hinv; simpl; [done|].
  destruct (turn lines i raw m st) as [[m' st']|] eqn:Ht; [|done].
  apply IH. by eapply turn_sections_inv.
Qed.

Lemma numbered_not_unsorted s : numbered s → Sec.title s ≠ txt "UNSORTED".
Proof. intros (d & r & -> & Hd) [= -> _]. done. Qed.

Lemma drop_empty_unsorted_shape secs :
  sections_shape secs → drop_empty_unsorted secs = secs.
Proof.
  destruct secs as [|s0 others]; [done|]. intros [H0 _].
  unfold drop_empty_unsorted. case_bool_decide as Ht; [|done].
  destruct H0 as [[_ Hc]|Hn]; [|by apply numbered_not_unsorted in Hn].
  destruct (Sec.conditions s0); [done|]. by rewrite andb_false_r.
Qed.

Lemma parse_conditions_shape lines :
  _parse_conditions lines = sections (walk_lines lines Outer 0 lines initial)
  ∧ sections_shape (_parse_conditions lines).
Proof.
  assert (sections_shape (sections (walk_lines lines Outer 0 lines initial)))
    as Hshape.
  { apply walk_lines_sections_inv. by split. }
  unfold _parse_conditions. by rewrite drop_empty_unsorted_shape.
Qed.

Lemma collect_section_headings_all secs :
  Forall (λ s, Sec.title s ≠ []) secs →
  _collect_section_headings secs = map Sec.title secs.
Proof.
  unfold _collect_section_headings.
  induction 1 as [|s secs Hs _ IH]; [done|]. simpl.
  rewrite bool_decide_eq_false_2 by done. simpl. by rewrite IH.
Qed.

End logan_sections.

(** X5 — the sections that the PDF adapter returns.  The clean-up that
    ends [_parse_conditions] never removes a section: an UNSORTED section
    is only made for a condition that it receives at once.  In the result
    a section titled UNSORTED can only be the first one and is not empty,
    every other title starts with the digits of its header, no title is
    empty, and [_collect_section_headings] lists the titles of all the
    sections in their order. *)
Theorem X5_logan_sections_shape :
  ∀ lines : list text,
    Logan._parse_conditions lines
    = Logan.sections
        (Logan.walk_lines lines Logan.Outer 0 lines Logan.initial)
    ∧ (∀ i s, Logan._parse_conditions lines !! i = Some s →
              (Sec.title s = txt "UNSORTED" ∧ i = 0 ∧ Sec.conditions s ≠ [])
              ∨ numbered s)
    ∧ Forall (λ s, Sec.title s ≠ []) (Logan._parse_conditions lines)
    ∧ Logan._collect_section_headings (Logan._parse_conditions lines)
      = map Sec.title (Logan._parse_conditions lines).
Proof.
  intros lines. destruct (parse_conditions_shape lines) as [Heq Hshape].
  split; [exact Heq|]. clear Heq.
  assert (∀ i s, Logan._parse_conditions lines !! i = Some s →
            (Sec.title s = txt "UNSORTED" ∧ i = 0 ∧ Sec.conditions s ≠ [])
            ∨ numbered s) as Hcases.
  { destruct (Logan._parse_conditions lines) as [|s0 others]; [done|].
    destruct Hshape as [H0 Hothers]. intros [|i] s; simpl.
    - intros [= <-]. destruct H0 as [[? ?]|?]; [by left|by right].
    - intros Hs. right. rewrite Forall_lookup in Hothers. by eapply Hothers. }
  assert (Forall (λ s, Sec.title s ≠ []) (Logan._parse_conditions lines))
    as Htitles.
  { apply Forall_lookup. intros i s Hs.
    destruct (Hcases i s Hs) as [[-> _]|(d & r & -> & _)]; done. }
  split_and!; [exact Hcases|exact Htitles|].
  by apply collect_section_headings_all.
Qed.

(* ================================================================== *)
(** * Parents and children of the PDF tree                              *)
(* ================================================================== *)

Section parent_number.
Import Logan.

Lemma split_on_nonempty sep s : split_on sep s ≠ [].
Proof.
  destruct s as [|c s]; simpl; [done|]. case_bool_decide; [done|].
  by destruct (split_on sep s).
Qed.

Lemma split_on_nosep sep s : sep ∉ s → split_on sep s = [s].
Proof.
  induction s as [|c s IH]; [done|]. intros [Hc Hs]%not_elem_of_cons. simpl.
  rewrite bool_decide_eq_false_2 by done. by rewrite IH.
Qed.

Lemma split_on_snoc sep a b :
  sep ∉ b → split_on sep (a ++ sep :: b) = split_on sep a ++ [b].
Proof.
  intros Hb. induction a as [|c a IH]; simpl.
  - rewrite bool_decide_eq_true_2 by done. by rewrite split_on_nosep.
  - rewrite IH. case_bool_decide; [done|].
    pose proof (split_on_nonempty sep a). by destruct (split_on sep a).
Qed.

Lemma join_split sep s : join sep (split_on sep s) = s.
Proof.
  induction s as [|c s IH]; [done|]. simpl.
  pose proof (split_on_nonempty sep s) as Hne.
  destruct (split_on sep s) as [|h t]; [done|].
  case_bool_decide as Hc.
  - subst c. change (join sep ([] :: h :: t)) with (sep :: join sep (h :: t)).
    by rewrite IH.
  - destruct t as [|h' t]; simpl in *; by rewrite <-IH.
Qed.

Lemma parent_number_snoc P g :
  "."%char ∉ g → parent_number (P ++ "."%char :: g) = P.
Proof.
  intros Hg. unfold parent_number. rewrite split_on_snoc by done.
  by rewrite removelast_last, join_split.
Qed.

Lemma last_sep (sep : ascii) s :
  sep ∈ s → ∃ a b, s = a ++ sep :: b ∧ sep ∉ b.
Proof.
  induction s as [|c s IH]; [by intros ?%elem_of_nil|]. intros Hin.
  destruct (decide (sep ∈ s)) as [Hs|Hs].
  - destruct (IH Hs) as (a & b & -> & Hb). by exists (c :: a), b.
  - apply elem_of_cons in Hin as [->|?]; [|done]. by exists [], s.
Qed.

Lemma parent_number_neq num :
  contains_char "."%char num = true → parent_number num ≠ num.
Proof.
  intros Hin%bool_decide_eq_true.
  apply last_sep in Hin as (a & b & -> & Hb).
  rewrite parent_number_snoc by done. intros H.
  apply (f_equal length) in H. rewrite length_app in H. simpl in H. lia.
Qed.

Lemma digits_no_dot g : Spec.digits g → "."%char ∉ g.
Proof.
  intros [_ Hall] Hin. rewrite Forall_forall in Hall.
  by apply (digit_not_dot _ (Hall _ Hin)).
Qed.

Lemma dotted_split num :
  Spec.dotted num →
  ∃ P g, Spec.digits g ∧ num = P ++ "."%char :: g.
Proof.
  intros (d & gs & Hd & Hne & Hgs & ->).
  destruct gs as [|g0 gs0] using rev_ind; [done|]. clear IHgs0.
  apply Forall_app in Hgs as [_ [Hg _]%Forall_cons].
  exists (d ++ concat (map (λ g, "."%char :: g) gs0)), g0.
  split; [done|]. rewrite map_app, concat_app. simpl.
  by rewrite app_nil_r, <-app_assoc.
Qed.

Lemma dotted_parent num :
  Spec.dotted num →
  ∃ g, Spec.digits g ∧ num = parent_number num ++ "."%char :: g.
Proof.
  intros (P & g & Hg & ->)%dotted_split. exists g. split; [done|].
  by rewrite parent_number_snoc by by apply digits_no_dot.
Qed.

End parent_number.

Section logan_family.
Import Re Logan.

Lemma node_at_alter_at_num f p :
  keeps_numbers f →
  ∀ q c y, node_at q c = Some y →
    ∃ y', node_at q (alter_at f p c) = Some y' ∧ number y' = number y.
Proof.
  intros Hf. induction p as [|j p IH]; intros q c y Hq; [by apply Hf|].
  destruct q as [|i q].
  { injection Hq as <-. eexists. split; [reflexivity|]. by destruct c. }
  cbn [alter_at node_at] in *. destruct c as [n t d ti ts tc tin m ch pn].
  cbn [children set_children] in *.
  destruct (decide (i = j)) as [->|Hne].
  - rewrite list_lookup_alter_eq. destruct (ch !! j) as [x|]; simpl in *;
      [by apply IH|done].
  - rewrite list_lookup_alter_ne by done. eauto.
Qed.

Lemma node_ref_alter_ref_num f r q secs y :
  keeps_numbers f →
  node_ref q secs = Some y →
  ∃ y', node_ref q (alter_ref f r secs) = Some y' ∧ number y' = number y.
Proof.
  intros Hf. unfold node_ref, alter_ref, node_top, alter_top.
  destruct (decide (ref_section q = ref_section r)) as [->|Hne].
  - rewrite list_lookup_alter_eq. destruct (secs !! ref_section r) as [s|];
      simpl; [|done].
    destruct (decide (ref_top q = ref_top r)) as [->|Hne].
    + rewrite list_lookup_alter_eq.
      destruct (Sec.conditions s !! ref_top r) as [x|]; simpl; [|done].
      by apply node_at_alter_at_num.
    + rewrite list_lookup_alter_ne by done. eauto.
  - rewrite list_lookup_alter_ne by done. eauto.
Qed.

Lemma keeps_numbers_append_child (c : condition) :
  keeps_numbers (append_child c).
Proof.
  intros x [|i q] y Hq.
  { injection Hq as <-. eexists. split; [reflexivity|]. by destruct x. }
  destruct x as [n t d ti ts tc tin m ch pn]. cbn in *.
  destruct (ch !! i) as [z|] eqn:Hz; simpl in Hq; [|done].
  rewrite (lookup_app_l_Some _ _ _ _ Hz). simpl. eauto.
Qed.

Lemma keeps_numbers_set_description (g : condition → text) :
  keeps_numbers (λ c, set_description (g c) c).
Proof.
  intros x [|i q] y Hq.
  { injection Hq as <-. eexists. split; [reflexivity|]. by destruct x. }
  destruct x. cbn in *. eauto.
Qed.

Lemma node_ref_push_eq c k secs r x :
  node_ref r secs = Some x →
  node_ref r
    (alter (λ s, Sec.set_conditions (Sec.conditions s ++ [c]) s) k secs)
  = Some x.
Proof.
  unfold node_ref. destruct (decide (ref_section r = k)) as [<-|Hne].
  - rewrite list_lookup_alter_eq.
    destruct (secs !! ref_section r) as [s|]; simpl; [|done].
    unfold node_top. simpl.
    destruct (Sec.conditions s !! ref_top r) as [z|] eqn:Hz; simpl; [|done].
    by rewrite (lookup_app_l_Some _ _ _ _ Hz).
  - by rewrite list_lookup_alter_ne.
Qed.

Lemma node_ref_app_l_eq r secs more x :
  node_ref r secs = Some x → node_ref r (secs ++ more) = Some x.
Proof.
  unfold node_ref. destruct (secs !! ref_section r) as [s|] eqn:Hs;
    simpl; [|done].
  by rewrite (lookup_app_l_Some _ _ _ _ Hs).
Qed.

Lemma Forall_flat_map_alter_at {A B} (P : B → Prop) (F : A → list B)
    (g : A → A) (j : nat) (l : list A) :
  (∀ x, l !! j = Some x → Forall P (F x) → Forall P (F (g x))) →
  Forall P (flat_map F l) → Forall P (flat_map F (alter g j l)).
Proof.
  revert j. induction l as [|y l IH]; intros [|j] Hg H; simpl in *;
    try done; apply Forall_app in H as [H1 H2]; apply Forall_app; split;
    try done.
  - by apply Hg.
  - apply IH; [|done]. intros x Hx. by apply Hg.
Qed.

Lemma well_parented_alter_at f p :
  (∀ x, number (f x) = number x) →
  ∀ c,
    (∀ x, node_at p c = Some x →
          Forall well_parented (all_nodes x) →
          Forall well_parented (all_nodes (f x))) →
    Forall well_parented (all_nodes c) →
    Forall well_parented (all_nodes (alter_at f p c)).
Proof.
  intros Hn. induction p as [|j p IH]; intros c Hf Hc; [by apply Hf|].
  cbn [alter_at]. rewrite all_nodes_set_children.
  rewrite all_nodes_unfold in Hc. apply Forall_cons in Hc as [Hwc Hch].
  constructor.
  - unfold well_parented in *. destruct c as [n t d ti ts tc tin m ch pn].
    cbn in *. apply Forall_alter; [done|].
    intros x _ (g & Hg & Hx). exists g. split; [done|].
    by rewrite number_alter_at.
  - apply Forall_flat_map_alter_at; [|done]. intros x Hx. apply IH.
    intros y Hy. apply Hf. cbn [node_at]. by rewrite Hx.
Qed.

Lemma well_parented_alter_ref f r secs :
  (∀ x, number (f x) = number x) →
  (∀ x, node_ref r secs = Some x →
        Forall well_parented (all_nodes x) →
        Forall well_parented (all_nodes (f x))) →
  Forall well_parented (tree_nodes secs) →
  Forall well_parented (tree_nodes (alter_ref f r secs)).
Proof.
  intros Hn Hf. unfold tree_nodes, alter_ref.
  apply Forall_flat_map_alter_at. intros s Hs. simpl. unfold alter_top.
  apply Forall_flat_map_alter_at. intros x Hx.
  apply well_parented_alter_at; [done|]. intros y Hy. apply Hf.
  unfold node_ref, node_top. rewrite Hs. simpl. by rewrite Hx.
Qed.

Lemma index_inv_alter_ref f r st cur :
  keeps_numbers f → logan_index_inv st →
  logan_index_inv (State (alter_ref f r (sections st)) cur (cond_index st)).
Proof.
  intros Hf Hidx k q Hq. destruct (Hidx k q Hq) as (x & Hx & Hk). simpl.
  destruct (node_ref_alter_ref_num f r q _ x Hf Hx) as (y' & Hy & Hn).
  exists y'. split; [done|]. congruence.
Qed.

Lemma well_parented_set_description d x :
  Forall well_parented (all_nodes x) →
  Forall well_parented (all_nodes (set_description d x)).
Proof.
  rewrite (all_nodes_unfold x), (all_nodes_unfold (set_description d x)).
  intros [Hx Hch]%Forall_cons. destruct x as [n t d0 ti ts tc tin m ch pn].
  constructor; [exact Hx|exact Hch].
Qed.

Lemma extend_description_family r nxt st :
  logan_family_inv st → logan_family_inv (extend_description r nxt st).
Proof.
  intros (Hinv & Hidx & Hwp). split_and!.
  - by apply extend_description_spec.
  - apply (index_inv_alter_ref
             (λ c, set_description (_safe_join (description c) nxt) c));
      [apply keeps_numbers_set_description|done].
  - simpl. apply well_parented_alter_ref; [by intros []| |done].
    intros x _. apply well_parented_set_description.
Qed.

Lemma ensure_section_family t st :
  logan_family_inv st → logan_family_inv (ensure_section t st).
Proof.
  intros (Hinv & Hidx & Hwp). split_and!.
  - by apply ensure_section_inv.
  - intros k q Hq. destruct (Hidx k q Hq) as (x & Hx & Hk). simpl.
    exists x. split; [by apply node_ref_app_l_eq|done].
  - simpl. by rewrite tree_nodes_snoc_empty.
Qed.

Lemma push_family c k cur st :
  children c = [] →
  logan_index_inv st → Forall well_parented (tree_nodes (sections st)) →
  logan_index_inv
    (State (alter (λ s, Sec.set_conditions (Sec.conditions s ++ [c]) s)
                  k (sections st)) cur (cond_index st))
  ∧ Forall well_parented
      (tree_nodes (alter (λ s, Sec.set_conditions (Sec.conditions s ++ [c]) s)
                         k (sections st))).
Proof.
  intros Hc Hidx Hwp. split.
  - intros n q Hq. destruct (Hidx n q Hq) as (x & Hx & Hn). simpl.
    exists x. split; [by apply node_ref_push_eq|done].
  - apply Forall_nodes_push; [|done]. rewrite all_nodes_childless by done.
    constructor; [|constructor]. unfold well_parented. rewrite Hc. constructor.
Qed.

Lemma attach_condition_family c st st' r :
  children c = [] → Spec.dotted (number c) →
  logan_family_inv st → attach_condition c st = (st', r) →
  logan_family_inv st' ∧ node_ref r (sections st') = Some c
  ∧ cond_index st' = cond_index st.
Proof.
  intros Hc Hnum (Hinv & Hidx & Hwp) Ha.
  destruct (attach_condition_spec c st st' r Hinv Hc Ha)
    as (Hinv' & _ & Hr & Hci & _).
  split; [|done]. split; [done|].
  revert Ha. unfold attach_condition.
  destruct (if contains_char "."%char (number c)
            then cond_index st !! parent_number (number c) else None)
    as [r0|] eqn:Hp.
  - intros [= <- _].
    destruct (contains_char "."%char (number c)); [|done].
    destruct (Hidx _ _ Hp) as (x & Hx & Hn). split.
    + apply index_inv_alter_ref; [apply keeps_numbers_append_child|done].
    + simpl. apply well_parented_alter_ref;
        [apply number_append_child| |done].
      intros y Hy Hall. rewrite Hx in Hy. injection Hy as <-.
      rewrite all_nodes_unfold in Hall. apply Forall_cons in Hall as [Hwx Hch].
      unfold append_child. rewrite all_nodes_set_children. constructor.
      * unfold well_parented in *. destruct x as [n t d ti ts tc tin m ch pn].
        cbn in *. apply Forall_app. split; [done|]. constructor; [|done].
        destruct (dotted_parent _ Hnum) as (g & Hg & Hg').
        exists g. split; [done|]. cbn. by rewrite Hn.
      * rewrite flat_map_app. apply Forall_app. split; [done|]. simpl.
        rewrite app_nil_r, all_nodes_childless by done.
        constructor; [|constructor].
        unfold well_parented. rewrite Hc. constructor.
  - intros [= <- _]. destruct (current_section st) as [k|]; cbn [sections].
    + by apply push_family.
    + destruct (ensure_section_family (txt "UNSORTED") st)
        as (_ & Hidx1 & Hwp1); [done|].
      by apply (push_family c _ _ (ensure_section (txt "UNSORTED") st)).
Qed.

Lemma open_condition_family num t d st st' r :
  Spec.dotted num →
  logan_family_inv st → open_condition num t d st = (st', r) →
  logan_family_inv st'.
Proof.
  intros Hnum Hfam Ho.
  destruct (open_condition_spec num t d st st' r (proj1 Hfam) Ho)
    as (Hinv' & _).
  revert Ho. unfold open_condition.
  destruct (attach_condition (_new_condition num t d) st) as [st1 r1] eqn:Ha.
  intros [= <- <-].
  apply attach_condition_family in Ha as ((_ & Hidx & Hwp) & Hr & _);
    [|done|by rewrite number_new_condition|done].
  split_and!; [done| |done].
  apply map_Forall_insert_2; [|done]. simpl.
  eexists. split; [exact Hr|]. by apply number_new_condition.
Qed.

Lemma turn_family lines i raw m st m' st' :
  logan_family_inv st → turn lines i raw m st = Some (m', st') →
  logan_family_inv st'.
Proof.
  intros Hfam Ht.
  apply turn_cases in Ht
    as [[-> _]|[(r & nxt & -> & _)|[(t & -> & _)|(num & t & d & r & Ho & _ & _ & Hnum)]]].
  - done.
  - by apply extend_description_family.
  - by apply ensure_section_family.
  - by eapply open_condition_family.
Qed.

Lemma walk_lines_family lines todo :
  ∀ m i st, logan_family_inv st →
            logan_family_inv (walk_lines lines m i todo st).
Proof.
  induction todo as [|raw todo IH]; intros m i st Hfam; simpl; [done|].
  destruct (turn lines i raw m st) as [[m' st']|] eqn:Ht; [|done].
  apply IH. by eapply turn_family.
Qed.

Lemma initial_family : logan_family_inv initial.
Proof.
  split_and!; [apply initial_inv|apply map_Forall_empty|constructor].
Qed.

End logan_family.

(** X6 — the numbers of parents and children in the PDF tree.  Under any
    condition of the result, the number of each child is the number of that
    condition, a dot and one more group of digits, and taking the last
    group off the number of the child gives back the number of the parent;
    that key differs from the number itself whenever the number holds a
    dot. *)
Theorem X6_logan_children_extend_the_parent_number :
  (∀ lines : list text,
     Forall (λ c, Forall (λ ch, child_of c ch
                                ∧ Logan.parent_number (number ch) = number c)
                         (children c))
            (tree_nodes (Logan._parse_conditions lines)))
  ∧ (∀ num : text,
       contains_char "."%char num = true → Logan.parent_number num ≠ num).
Proof.
  split.
  - intros lines. unfold Logan._parse_conditions.
    rewrite tree_nodes_drop_empty_unsorted.
    destruct (walk_lines_family lines lines Logan.Outer 0 Logan.initial
                initial_family) as (_ & _ & Hwp).
    eapply Forall_impl; [exact Hwp|]. intros c Hc.
    eapply Forall_impl; [exact Hc|]. intros ch Hch. split; [done|].
    destruct Hch as (g & Hg & Heq). rewrite Heq.
    by apply parent_number_snoc, digits_no_dot.
  - apply parent_number_neq.
Qed.

(* ================================================================== *)
(** * The topic title of a condition                                    *)
(* ================================================================== *)

Section topic_title.
Import Re Logan.

Lemma topic_scan_step raw back :
  topic_scan (raw :: back)
  = if topic_candidate (_clean raw) then _clean raw else topic_scan back.
Proof.
  unfold topic_candidate. cbn [topic_scan].
  case_bool_decide; [done|]. cbn [negb andb].
  destruct (matches SECTION_LINE_RE (_clean raw)); [done|]. cbn [negb andb].
  destruct (matches COND_INLINE_RE (_clean raw)
            || matches COND_NUM_ONLY_RE (_clean raw)); [done|].
  cbn [negb andb].
  destruct (matches NOTE_START_RE (_clean raw)); [done|]. cbn [negb andb].
  destruct (matches (sat is_digit) (_clean raw)); [done|]. cbn [negb andb].
  by destruct ((120 <? length (_clean raw))
               && (endswith (txt ".") (_clean raw)
                   || endswith (txt ";") (_clean raw))).
Qed.

Lemma topic_scan_spec back :
  (topic_scan back = []
   ∧ Forall (λ raw, topic_candidate (_clean raw) = false) back)
  ∨ (∃ pre raw post,
       back = pre ++ raw :: post
       ∧ Forall (λ r, topic_candidate (_clean r) = false) pre
       ∧ topic_candidate (_clean raw) = true
       ∧ topic_scan back = _clean raw).
Proof.
  induction back as [|raw back IH]; [left; by split|].
  rewrite topic_scan_step.
  destruct (topic_candidate (_clean raw)) eqn:Hc.
  { right. exists [], raw, back. by split_and!. }
  destruct IH as [[Hnil Hall]|(pre & r & post & -> & Hpre & Hr & Heq)].
  - left. split; [done|]. by constructor.
  - right. exists (raw :: pre), r, post. split_and!; try done.
    by constructor.
Qed.

Lemma prev_topic_title_spec lines idx :
  (_prev_topic_title lines idx = []
   ∧ Forall (λ raw, topic_candidate (_clean raw) = false) (take idx lines))
  ∨ (∃ before raw after,
       take idx lines = before ++ raw :: after
       ∧ topic_candidate (_clean raw) = true
       ∧ Forall (λ r, topic_candidate (_clean r) = false) after
       ∧ _prev_topic_title lines idx = _clean raw).
Proof.
  unfold _prev_topic_title.
  destruct (topic_scan_spec (reverse (take idx lines)))
    as [[Hnil Hall]|(pre & r & post & Heq & Hpre & Hr & Hres)].
  - left. split; [done|]. apply Forall_reverse in Hall.
    by rewrite reverse_involutive in Hall.
  - right. exists (reverse post), r, (reverse pre). split_and!; try done.
    + apply (f_equal reverse) in Heq. rewrite reverse_involutive in Heq.
      rewrite Heq, reverse_app, reverse_cons, <-app_assoc. done.
    + by apply Forall_reverse.
Qed.

Lemma titled_from_new lines i num d :
  titled_from lines (_new_condition num (_prev_topic_title lines i) d).
Proof.
  unfold titled_from. simpl.
  destruct (prev_topic_title_spec lines i)
    as [[-> _]|(before & raw & after & Heq & Hc & _ & ->)]; [by left|].
  right. assert (take i lines !! length before = Some raw) as Hj.
  { rewrite Heq. by apply list_lookup_middle. }
  apply lookup_take_Some in Hj as [Hj _].
  exists (length before), raw. by rewrite clean_idempotent.
Qed.

Lemma titled_from_stable lines : stable (titled_from lines).
Proof. split; intros x ?; by destruct x. Qed.

Lemma turn_titled lines i raw m st m' st' :
  logan_inv st →
  turn lines i raw m st = Some (m', st') →
  Forall (titled_from lines) (tree_nodes (sections st)) →
  Forall (titled_from lines) (tree_nodes (sections st')).
Proof.
  intros Hinv Ht Hall. pose proof Ht as Hcases.
  apply turn_cases in Hcases
    as [[-> _]|[(r & nxt & -> & _)|[(t & -> & _)|(num & t & d & r & Ho & _ & Hnum & _)]]].
  - done.
  - by apply extend_description_spec; [|apply titled_from_stable|].
  - simpl. by rewrite tree_nodes_snoc_empty.
  - destruct (turn_condition_line lines i raw m st num Hnum)
      as (d' & st2 & r2 & Ht2 & Ho2).
    rewrite Ht in Ht2. injection Ht2 as _ <-.
    destruct (open_condition_spec _ _ _ _ _ _ Hinv Ho2) as (_ & _ & _ & _ & HF).
    apply HF; [apply titled_from_stable|apply titled_from_new|done].
Qed.

Lemma walk_lines_titled lines todo :
  ∀ m i st, logan_inv st →
    Forall (titled_from lines) (tree_nodes (sections st)) →
    Forall (titled_from lines)
           (tree_nodes (sections (walk_lines lines m i todo st))).
Proof.
  induction todo as [|raw todo IH]; intros m i st Hinv Hall; simpl; [done|].
  destruct (turn lines i raw m st) as [[m' st']|] eqn:Ht; [|done].
  apply IH; [by apply turn_spec in Ht as [? _]|by eapply turn_titled].
Qed.

End topic_title.

(* ================================================================== *)
(** * Parents and subconditions of the HTML tree                        *)
(* ================================================================== *)

Section bcc_family.
Import Re Bcc.

Lemma in_opt {A} (m : matcher A) o c c' :
  (o, c') ∈ opt m c → (o = None ∧ c' = c) ∨ ∃ a, o = Some a ∧ (a, c') ∈ m c.
Proof.
  unfold opt. intros [H|H]%in_alt.
  - apply in_bind in H as (a & c1 & Ha & [-> ->]%in_ret). right. eauto.
  - apply in_ret in H as [-> ->]. by left.
Qed.

Lemma cond_re_inv t g1 g2 g3 :
  match_ COND_RE t = Some (g1, g2, g3) →
  Spec.digits g1
  ∧ (g2 = None
     ∨ ∃ l, is_letter l = true ∧ g2 = Some ["("%char; l; ")"%char]).
Proof.
  intros (c' & H)%match_Some.
  apply in_mbind in H as (d & c1 & Hd & H).
  apply in_plus in Hd as (Hne & Hall & _).
  apply in_mbind in H as (o & c2 & Ho & H).
  assert (d = g1 ∧ o = g2) as [<- <-].
  { repeat (apply in_mbind in H as (? & ? & _ & H)).
    by apply in_mret in H as [[= <- <- _] _]. }
  split; [by split|].
  apply in_opt in Ho as [[-> _]|(a & -> & Ha)]; [by left|]. right.
  apply in_mbind in Ha as (x & c3 & Hx & Ha).
  apply in_chr in Hx as (-> & _).
  apply in_mbind in Ha as (l & c4 & Hl & Ha).
  apply in_sat in Hl as (Hl & _).
  apply in_mbind in Ha as (y & c5 & Hy & Ha).
  apply in_chr in Hy as (-> & _).
  apply in_mret in Ha as [-> _]. by exists l.
Qed.

Lemma header_inv b base suffix title :
  Spec.header b = Some (base, suffix, title) →
  Spec.digits base ∧ (suffix = [] ∨ letter_suffix suffix).
Proof.
  unfold Spec.header. case_bool_decide; [done|].
  destruct (match_ COND_RE (_clean (b_text b))) as [[[g1 g2] g3]|] eqn:Hm;
    [|done].
  intros [= <- <- _]. apply cond_re_inv in Hm as [Hd Hg]. split; [done|].
  destruct Hg as [->|(l & Hl & ->)]; [by left|]. right. by exists l.
Qed.

Lemma letter_suffix_nonempty suf : letter_suffix suf → suf ≠ [].
Proof. by intros (l & _ & ->). Qed.

Lemma node_top_alter_top_num f j p i q cs y :
  keeps_numbers f →
  node_top i q cs = Some y →
  ∃ y', node_top i q (alter_top f j p cs) = Some y' ∧ number y' = number y.
Proof.
  intros Hf. unfold node_top, alter_top.
  destruct (decide (i = j)) as [->|Hne].
  - rewrite list_lookup_alter_eq.
    destruct (cs !! j) as [x|]; simpl; [|done].
    by apply node_at_alter_at_num.
  - rewrite list_lookup_alter_ne by done. eauto.
Qed.

Lemma length_alter_ref f r secs : length (alter_ref f r secs) = length secs.
Proof. unfold alter_ref. by rewrite length_alter. Qed.

Lemma top_level_app s1 s2 : top_level (s1 ++ s2) = top_level s1 ++ top_level s2.
Proof. apply flat_map_app. Qed.

Lemma flush_family st : bcc_family_inv st → bcc_family_inv (flush st).
Proof.
  intros (Hsec & Hcur & Hidx). unfold flush.
  destruct (current_conditions st) as [|c cs] eqn:Hc.
  { split_and!; [done|by rewrite Hc|done]. }
  split_and!; simpl.
  - rewrite top_level_app. apply Forall_app. split; [done|]. simpl.
    by rewrite app_nil_r.
  - constructor.
  - eapply map_Forall_impl; [exact Hidx|]. intros k r (Hp & Hk & x & Hn & Hx).
    split; [done|]. split; [done|]. exists x. split; [done|]. simpl.
    rewrite length_app. simpl.
    replace (ref_section r <? length (sections st) + 1) with true.
    + destruct (ref_section r <? length (sections st)) eqn:Hlt.
      * by apply node_ref_app_l_eq.
      * destruct Hx as [Heq Hx]. unfold node_ref.
        rewrite Heq, list_lookup_middle by done. simpl. by rewrite <-Hc.
    + symmetry. apply Nat.ltb_lt.
      destruct (ref_section r <? length (sections st)) eqn:Hlt.
      * apply Nat.ltb_lt in Hlt. lia.
      * destruct Hx as [-> _]. lia.
Qed.

Lemma retitled_family t st : bcc_family_inv st → bcc_family_inv (retitled t st).
Proof. intros H. by apply flush_family in H. Qed.

Lemma bcc_top_append_child c x base suf :
  bcc_top x → number x = base → Spec.digits base →
  children c = [] → parentNumber c = Some base →
  letter_suffix suf → number c = base ++ suf →
  bcc_top (append_child c x).
Proof.
  intros (Hpn & Hnum & Hch & Hd) Hx Hbase Hcc Hcp Hsuf Hcn.
  destruct x as [n t d ti ts tc tin m ch pn]. cbn in *. subst n.
  split_and!; cbn; [done|done| |done].
  apply Forall_app. split; [done|]. constructor; [|done].
  split; [done|]. split; [done|]. by exists suf.
Qed.

Lemma append_to_parent_family r c base suf st :
  bcc_family_inv st → condition_index st !! base = Some r →
  children c = [] → parentNumber c = Some base →
  letter_suffix suf → number c = base ++ suf →
  bcc_family_inv (append_to_parent r c st).
Proof.
  intros (Hsec & Hcur & Hidx) Hr Hcc Hcp Hsuf Hcn.
  destruct (Hidx _ _ Hr) as (Hp & Hbase & x & Hn & Hx).
  unfold append_to_parent.
  destruct (ref_section r <? length (sections st)) eqn:Hlt.
  - split_and!; simpl; [|done|].
    + unfold top_level, alter_ref. apply Forall_flat_map_alter_at; [|done].
      intros s Hs Hall. simpl. unfold alter_top. rewrite Hp.
      apply Forall_alter; [done|]. intros y Hy Hty. cbn.
      assert (y = x) as ->.
      { revert Hx. unfold node_ref, node_top. rewrite Hs. simpl.
        rewrite Hy, Hp. simpl. congruence. }
      by eapply bcc_top_append_child.
    + eapply map_Forall_impl; [exact Hidx|].
      intros k q (Hq & Hk & z & Hz & Hzq). split; [done|]. split; [done|].
      simpl. rewrite !length_alter_ref.
      destruct (ref_section q <? length (sections st)); [|by exists z].
      destruct (node_ref_alter_ref_num (append_child c) r q _ z
                  (keeps_numbers_append_child c) Hzq) as (z' & Hz' & Hnz).
      exists z'. split; [congruence|done].
  - destruct Hx as [Heq Hx]. split_and!; simpl; [done| |].
    + unfold alter_top. rewrite Hp. apply Forall_alter; [done|].
      intros y Hy Hty. cbn.
      assert (y = x) as ->.
      { revert Hx. unfold node_top. rewrite Hy, Hp. simpl. congruence. }
      by eapply bcc_top_append_child.
    + eapply map_Forall_impl; [exact Hidx|].
      intros k q (Hq & Hk & z & Hz & Hzq). split; [done|]. split; [done|].
      simpl. destruct (ref_section q <? length (sections st)); [by exists z|].
      destruct Hzq as [Hqs Hzq].
      destruct (node_top_alter_top_num (append_child c) (ref_top r)
                  (ref_path r) _ _ _ z (keeps_numbers_append_child c) Hzq)
        as (z' & Hz' & Hnz).
      exists z'. split; [congruence|done].
Qed.

Lemma append_current_family c st :
  bcc_family_inv st → bcc_top c → bcc_family_inv (append_current c st).
Proof.
  intros (Hsec & Hcur & Hidx) Hc. split_and!; simpl; [done| |].
  - apply Forall_app. split; [done|]. by constructor.
  - eapply map_Forall_impl; [exact Hidx|].
    intros k q (Hq & Hk & z & Hz & Hzq). split; [done|]. split; [done|].
    exists z. split; [done|]. simpl.
    destruct (ref_section q <? length (sections st)); [done|].
    destruct Hzq as [Hqs Hzq]. split; [done|]. revert Hzq. unfold node_top.
    destruct (current_conditions st !! ref_top q) as [y|] eqn:Hy; [|done].
    by rewrite (lookup_app_l_Some _ _ _ _ Hy).
Qed.

Lemma build_condition_top base suffix t c0 c1 :
  Spec.digits base → suffix = [] ∨ letter_suffix suffix →
  bcc_top (build_condition (base ++ suffix) t c0 c1).
Proof.
  intros Hb Hs. unfold build_condition.
  destruct (_extract_proof_of_fulfilment _) as [d1 mat].
  destruct (_extract_inline_timing d1) as [d2 inl].
  destruct (resolve_timing _ inl) as [ti ts].
  split_and!; cbn; [done| |constructor|done]. by exists base, suffix.
Qed.

Lemma build_condition_fields n t c0 c1 :
  children (build_condition n t c0 c1) = []
  ∧ parentNumber (build_condition n t c0 c1) = None
  ∧ number (build_condition n t c0 c1) = n.
Proof.
  unfold build_condition.
  destruct (_extract_proof_of_fulfilment _) as [d1 mat].
  destruct (_extract_inline_timing d1) as [d2 inl].
  by destruct (resolve_timing _ inl) as [ti ts].
Qed.

Lemma count_one_family st : bcc_family_inv st → bcc_family_inv (count_one st).
Proof. done. Qed.

Lemma place_condition_family base suffix t c0 c1 st :
  Spec.digits base → suffix = [] ∨ letter_suffix suffix →
  bcc_family_inv st →
  bcc_family_inv
    (place_condition base suffix (build_condition (base ++ suffix) t c0 c1) st).
Proof.
  intros Hb Hs Hinv. unfold place_condition.
  pose proof (build_condition_top base suffix t c0 c1 Hb Hs) as Htop.
  destruct (build_condition_fields (base ++ suffix) t c0 c1)
    as (Hch & Hpn & Hnum).
  set (c := build_condition (base ++ suffix) t c0 c1) in *.
  case_bool_decide as Hsuf; cbn [negb].
  - subst suffix. apply count_one_family.
    pose proof (append_current_family c st Hinv Htop) as (H1 & H2 & H3).
    split_and!; [done|done|]. simpl.
    apply map_Forall_insert_2.
    + split; [done|]. split; [done|]. exists c. simpl.
      split; [by rewrite Hnum, app_nil_r|].
      rewrite Nat.ltb_irrefl. split; [done|]. unfold node_top.
      by rewrite list_lookup_middle.
    + exact H3.
  - destruct Hs as [?|Hs]; [done|].
    destruct (condition_index st !! base) as [r|] eqn:Hr.
    + apply count_one_family.
      apply (append_to_parent_family r _ base suffix); try done;
        by destruct c.
    + apply count_one_family. by apply append_current_family.
Qed.

Lemma visit_family b st : bcc_family_inv st → bcc_family_inv (visit b st).
Proof.
  intros Hinv.
  destruct (visit_cases b st)
    as [[_ [->|[t ->]]]|[_ (base & suffix & t & c0 & c1 & Hh & _ & ->)]].
  - done.
  - by apply retitled_family.
  - apply header_inv in Hh as [Hb Hs]. by apply place_condition_family.
Qed.

Lemma foldl_visit_family bs :
  ∀ st, bcc_family_inv st →
        bcc_family_inv (foldl (λ st b, visit b st) st bs).
Proof.
  induction bs as [|b bs IH]; intros st Hinv; simpl; [done|].
  by apply IH, visit_family.
Qed.

Lemma bcc_initial_family : bcc_family_inv initial.
Proof. split_and!; [constructor|constructor|apply map_Forall_empty]. Qed.

End bcc_family.

(** X8 — the shape of the HTML tree.  Every top-level condition of the
    result has no [parentNumber], and its number is a run of digits with
    possibly a lower-case letter in parentheses after it.  Every child has
    no children of its own (the tree has two levels at most), carries the
    number of its parent as [parentNumber], and is numbered as its parent
    with such a letter suffix; a condition that has children is numbered
    by digits alone. *)
Theorem X8_bcc_tree_has_two_levels :
  ∀ bs : list Bcc.bold,
    Forall bcc_top (top_level (Bcc._parse_conditions bs).1).
Proof.
  intros bs. unfold Bcc._parse_conditions, Bcc.run. simpl.
  by apply flush_family, foldl_visit_family, bcc_initial_family.
Qed.

(* ================================================================== *)
(** * The sections that the HTML walk returns                           *)
(* ================================================================== *)

Section bcc_sections.
Import Re Bcc.

Lemma section_ok_grows bs secs secs' :
  Forall2 grows secs secs' →
  Forall (bcc_section_ok bs) secs → Forall (bcc_section_ok bs) secs'.
Proof.
  induction 1 as [|s s' secs secs' [Ht Hc] _ IH]; [done|].
  intros [[Hne Hh] Hall]%Forall_cons. constructor; [|by apply IH].
  split; [by apply Hc|by rewrite Ht].
Qed.

Lemma flush_sections_inv bs st :
  bcc_sections_inv bs st → bcc_sections_inv bs (flush st).
Proof.
  intros [Hsec Ht]. unfold flush.
  destruct (current_conditions st) as [|c cs] eqn:Hc; [done|].
  split; simpl; [|done]. apply Forall_app. split; [done|].
  constructor; [|done]. by split.
Qed.

Lemma place_condition_sections_inv bs base suffix c st :
  bcc_sections_inv bs st → bcc_sections_inv bs (place_condition base suffix c st).
Proof.
  intros [Hsec Ht]. unfold place_condition.
  destruct (negb (bool_decide (suffix = []))); [|done].
  destruct (condition_index st !! base) as [r|]; [|done].
  unfold append_to_parent.
  destruct (ref_section r <? length (sections st)); [|done].
  split; simpl; [|done]. eapply section_ok_grows; [|exact Hsec].
  unfold alter_ref. apply Forall2_grows_alter. intros s.
  apply grows_alter_top.
Qed.

Lemma visit_sections_inv bs b st :
  b ∈ bs → bcc_sections_inv bs st → bcc_sections_inv bs (visit b st).
Proof.
  intros Hb Hinv. unfold visit. case_bool_decide as Hblank; [done|].
  destruct (match_ COND_RE (_clean (b_text b))) as [[[base g2] g3]|] eqn:Hm.
  - destruct (b_row b) as [[|c0 [|c1 cells]]|]; try done.
    by apply place_condition_sections_inv.
  - destruct (_table_looks_like_timing_header (b_next_table b)) eqn:Htab;
      [|done].
    destruct (flush_sections_inv bs st Hinv) as [Hsec _].
    split; simpl; [done|]. right. exists b. split_and!; try done.
    unfold Spec.is_header, Spec.header.
    rewrite bool_decide_eq_false_2 by done. by rewrite Hm.
Qed.

Lemma foldl_visit_sections_inv bs todo :
  ∀ st, todo ⊆ bs → bcc_sections_inv bs st →
        bcc_sections_inv bs (foldl (λ st b, visit b st) st todo).
Proof.
  induction todo as [|b todo IH]; intros st Hsub Hinv; simpl; [done|].
  apply IH; [set_solver|]. apply visit_sections_inv; [set_solver|done].
Qed.

End bcc_sections.

(** X9 — the sections of the HTML result.  No section of the result is
    empty: a section is only written out when it holds a condition.  The
    title of each section is the initial title, General, or the cleaned
    text of a bold run of the page that is not a condition header and is
    followed by a table that mentions timing. *)
Theorem X9_bcc_sections_are_not_empty :
  ∀ bs : list Bcc.bold,
    Forall (λ s, Sec.conditions s ≠ [] ∧ bcc_heading bs (Sec.title s))
           (Bcc._parse_conditions bs).1.
Proof.
  intros bs. unfold Bcc._parse_conditions, Bcc.run. simpl.
  apply (flush_sections_inv bs), foldl_visit_sections_inv; [done|].
  split; [constructor|by left].
Qed.

(* ================================================================== *)
(** * The details table of the HTML page                                *)
(* ================================================================== *)

Section two_column_table.
Import Bcc.

Lemma fill_2col_app a b out :
  fill_2col (a ++ b) out = fill_2col b (fill_2col a out).
Proof.
  revert out. induction a as [|row a IH]; intros out; [done|]. simpl.
  destruct row as [|td0 [|td1 more]]; try apply IH.
  case_bool_decide; apply IH.
Qed.

Lemma fill_2col_one row m k :
  fill_2col [row] m !! k
  = if bool_decide (row_label row = Some k ∧ k ≠ [])
    then row_value row else m !! k.
Proof.
  destruct row as [|td0 [|td1 more]]; cbn [fill_2col row_label row_value].
  - rewrite bool_decide_eq_false_2; [done|]. by intros [? _].
  - rewrite bool_decide_eq_false_2; [done|]. by intros [? _].
  - case_bool_decide as Hl.
    + rewrite bool_decide_eq_false_2; [done|]. intros [[= H] ?]. congruence.
    + destruct (decide (rstrip_char ":"%char (_clean td0) = k)) as [<-|Hne].
      * rewrite bool_decide_eq_true_2 by done. by rewrite lookup_insert_eq.
      * rewrite bool_decide_eq_false_2 by (intros [[= ?] _]; done).
        by rewrite lookup_insert_ne.
Qed.

Lemma lstrip_char_head a s : head (lstrip_char a s) ≠ Some a.
Proof.
  induction s as [|c s IH]; [done|]. simpl. case_bool_decide; [done|].
  simpl. congruence.
Qed.

Lemma rstrip_char_last a s : last (rstrip_char a s) ≠ Some a.
Proof. unfold rstrip_char. rewrite last_reverse. apply lstrip_char_head. Qed.

Lemma fill_2col_lookup rows k :
  match fill_2col rows ∅ !! k with
  | Some v =>
      k ≠ [] ∧ ∃ pre row post,
        rows = pre ++ row :: post
        ∧ row_label row = Some k ∧ row_value row = Some v
        ∧ Forall (λ r, row_label r ≠ Some k) post
  | None => k = [] ∨ Forall (λ r, row_label r ≠ Some k) rows
  end.
Proof.
  induction rows as [|row rows IH] using rev_ind.
  { simpl. rewrite lookup_empty. right. constructor. }
  rewrite fill_2col_app, fill_2col_one. case_bool_decide as Hrow.
  - destruct Hrow as [Hl Hk].
    destruct (row_value row) as [v|] eqn:Hv.
    + split; [done|]. exists rows, row, []. by split_and!.
    + by destruct row as [|? [|? ?]].
  - assert (k ≠ [] → row_label row ≠ Some k) as Hrow' by tauto.
    destruct (fill_2col rows ∅ !! k) as [v|].
    + destruct IH as (Hk & pre & r & post & -> & Hl & Hv & Hpost).
      split; [done|]. exists pre, r, (post ++ [row]).
      split_and!; [by rewrite <-app_assoc|done|done|].
      apply Forall_app. split; [done|]. constructor; [auto|done].
    + destruct IH as [->|Hall]; [by left|].
      destruct (decide (k = [])) as [->|Hk]; [by left|]. right.
      apply Forall_app. split; [done|]. constructor; [auto|done].
Qed.

Lemma get_one raw k : get raw [k] = default [] (raw !! k).
Proof.
  simpl. destruct (raw !! k) as [v|]; [|done]. by case_bool_decide.
Qed.

Lemma get_two raw k1 k2 :
  get raw [k1; k2]
  = if bool_decide (default [] (raw !! k1) = [])
    then default [] (raw !! k2) else default [] (raw !! k1).
Proof.
  change (get raw [k1; k2])
    with (match raw !! k1 with
          | Some v => if bool_decide (v = []) then get raw [k2] else v
          | None => get raw [k2]
          end).
  rewrite get_one. destruct (raw !! k1) as [v|]; simpl; [|done].
  by case_bool_decide.
Qed.

End two_column_table.

(** X10 — what [_parse_2col_table] holds.  A key of the result is never
    empty and never ends in a colon; its value is the cleaned second cell
    of the last row of the table whose first cell, cleaned and without the
    colons at its end, is that key.  A text that is not a key is empty or
    is the label of no row with two cells; and no table gives the empty
    dictionary. *)
Theorem X10_two_column_table_last_row_wins :
  ∀ (rows : Bcc.table) (k : text),
    match Bcc._parse_2col_table (Some rows) !! k with
    | Some v =>
        k ≠ [] ∧ last k ≠ Some ":"%char
        ∧ ∃ pre row post,
            rows = pre ++ row :: post
            ∧ row_label row = Some k ∧ row_value row = Some v
            ∧ Forall (λ r, row_label r ≠ Some k) post
    | None => k = [] ∨ Forall (λ r, row_label r ≠ Some k) rows
    end
    ∧ Bcc._parse_2col_table None !! k = None.
Proof.
  intros rows k. split; [|apply lookup_empty]. simpl.
  pose proof (fill_2col_lookup rows k) as H.
  destruct (Bcc.fill_2col rows ∅ !! k) as [v|]; [|done].
  destruct H as (Hk & pre & row & post & Heq & Hl & Hv & Hpost).
  split; [done|]. split; [|by exists pre, row, post].
  destruct row as [|td0 [|td1 more]]; try done.
  injection Hl as <-. apply rstrip_char_last.
Qed.

(* ================================================================== *)
(** * The documents table                                               *)
(* ================================================================== *)

Section documents.
Import Bcc.

Lemma elem_of_sub_ws x b s :
  x ∈ sub_ws b s → x ∈ s ∨ x = " "%char.
Proof.
  revert b. induction s as [|c s IH]; intros b; simpl; [by left|].
  destruct (is_space c).
  - destruct b.
    + intros [?|?]%IH; [left; by right|by right].
    + intros [->|[?|?]%IH]%elem_of_cons; [by right|left; by right|by right].
  - intros [->|[?|?]%IH]%elem_of_cons; [left; by left|left; by right|by right].
Qed.

Lemma elem_of_strip x s : x ∈ strip s → x ∈ s.
Proof.
  unfold strip. intros Hx.
  destruct (rstrip_split (lstrip s)) as (ws2 & Heq2 & _).
  destruct (lstrip_split s) as (ws1 & Heq1 & _).
  rewrite Heq1, Heq2. apply elem_of_app. right. apply elem_of_app. by left.
Qed.

Lemma elem_of_clean x s : x ∈ _clean s → x ∈ s ∨ x = " "%char.
Proof.
  unfold _clean. intros [?|?]%elem_of_sub_ws; [|by right].
  left. by apply elem_of_strip.
Qed.

Lemma prepared_by_spec s :
  let pb := (_extract_revision_and_prepared_by s).2 in
  length pb ≤ 60 ∧ ("|"%char ∉ pb)
  ∧ (pb = [] ∨ ∃ l r, (s = l ++ "|"%char :: r) ∧ ("|"%char ∉ l) ∧ pb = _clean l).
Proof.
  unfold _extract_revision_and_prepared_by. cbn [snd].
  destruct (split_once "|"%char s) as [[l r]|] eqn:Hs.
  2:{ split_and!; [simpl; lia|by intros ?%elem_of_nil|by left]. }
  apply split_once_Some in Hs as [-> Hl].
  case_bool_decide as Hne; cbn [negb andb].
  { split_and!; [simpl; lia|by intros ?%elem_of_nil|by left]. }
  destruct (length (_clean l) <=? 60) eqn:Hlen.
  2:{ split_and!; [simpl; lia|by intros ?%elem_of_nil|by left]. }
  apply Nat.leb_le in Hlen. split_and!; [done| |right; by exists l, r].
  intros [?|?]%elem_of_clean; done.
Qed.

Lemma document_rows_spec rows :
  Forall (λ d, doc_row_ok d ∧ prepared_by_ok d
               ∧ (Doc.revision d, Doc.preparedBy d)
                 = _extract_revision_and_prepared_by (Doc.number d))
         (document_rows rows)
  ∧ length (document_rows rows) ≤ length rows.
Proof.
  induction rows as [|cells rows [IH1 IH2]]; [by split|].
  cbn [document_rows length].
  destruct cells as [|c0 [|c1 [|c2 more]]]; try (split; [done|lia]).
  destruct (bool_decide (_clean c0 = []) && bool_decide (_clean c1 = [])
            && bool_decide (_clean c2 = [])) eqn:Hblank;
    [split; [done|lia]|].
  destruct (_extract_revision_and_prepared_by (_clean c1)) as [rev pb] eqn:He.
  split; [|simpl; lia]. constructor; [|done].
  unfold doc_row_ok, prepared_by_ok.
  cbn [Doc.title Doc.number Doc.planDate Doc.revision Doc.preparedBy].
  split; [|split].
  - split_and!; try apply clean_form_clean.
    rewrite !andb_false_iff in Hblank.
    destruct Hblank as [[H|H]|H]; apply bool_decide_eq_false in H; auto.
  - pose proof (prepared_by_spec (_clean c1)) as H. by rewrite He in H.
  - by rewrite He.
Qed.

Lemma map_plans_spec plans :
  Forall (λ d, (Doc.title d ≠ [] ∨ Doc.number d ≠ [])
               ∧ clean_form (Doc.title d) = true
               ∧ clean_form (Doc.number d) = true
               ∧ clean_form (Doc.planDate d) = true
               ∧ clean_form (Doc.revision d) = true
               ∧ clean_form (Doc.preparedBy d) = true)
         (Logan._map_plans_to_working_documents plans)
  ∧ length (Logan._map_plans_to_working_documents plans) ≤ length plans.
Proof.
  induction plans as [|p plans [IH1 IH2]]; [by split|]. simpl.
  destruct (bool_decide (_clean (Logan.Plan.title p) = [])
            && bool_decide (_clean (Logan.Plan.planNumber p) = [])) eqn:Hb;
    [split; [done|lia]|].
  split; [|simpl; lia]. constructor; [|done].
  cbn [Doc.title Doc.number Doc.planDate Doc.revision Doc.preparedBy].
  split_and!; try apply clean_form_clean.
  rewrite andb_false_iff in Hb.
  destruct Hb as [H|H]; apply bool_decide_eq_false in H; auto.
Qed.

End documents.

(** X12 — the documents of both adapters.  A document of the HTML result
    comes from a row after the first one: its title, number and date are
    cleaned cells of which one at least is not empty; its [preparedBy] has
    at most 60 characters and no bar, and is empty or the cleaned text
    before the first bar of the number; revision and [preparedBy] are
    those that [_extract_revision_and_prepared_by] reads from the number.
    A document of the PDF result has a title or a number, and all its
    texts are cleaned.  Neither adapter returns more documents than the
    table has rows, the header row of the HTML table left out. *)
Theorem X12_documents_are_not_blank :
  (∀ s : Bcc.soup,
     Forall (λ d, doc_row_ok d ∧ prepared_by_ok d
                  ∧ (Doc.revision d, Doc.preparedBy d)
                    = Bcc._extract_revision_and_prepared_by (Doc.number d))
            (Bcc._parse_drawings_and_documents s)
     ∧ length (Bcc._parse_drawings_and_documents s)
       ≤ match Bcc.drawings_marker s with
         | Some (Some rows) => length rows - 1
         | _ => 0
         end)
  ∧ (∀ plans : list Logan.Plan.t,
       Forall (λ d, (Doc.title d ≠ [] ∨ Doc.number d ≠ [])
                    ∧ clean_form (Doc.title d) = true
                    ∧ clean_form (Doc.number d) = true
                    ∧ clean_form (Doc.planDate d) = true
                    ∧ clean_form (Doc.revision d) = true
                    ∧ clean_form (Doc.preparedBy d) = true)
              (Logan._map_plans_to_working_documents plans)
       ∧ length (Logan._map_plans_to_working_documents plans) ≤ length plans).
Proof.
  split; [|apply map_plans_spec].
  intros s. unfold Bcc._parse_drawings_and_documents.
  destruct (Bcc.drawings_marker s) as [[rows|]|]; [|by split..].
  destruct (document_rows_spec (drop 1 rows)) as [H1 H2].
  split; [done|]. by rewrite length_drop in H2.
Qed.

(* ================================================================== *)
(** * The lines of the PDF                                              *)
(* ================================================================== *)

Section normalise.
Import Re Logan.

Lemma clean_form_no_space t :
  Forall (λ x, is_space x = false) t → clean_form t = true.
Proof.
  intros H. rewrite <-(clean_no_space t H). apply clean_form_clean.
Qed.

Lemma first_meaningful_clean ls : clean_form (first_meaningful ls) = true.
Proof.
  induction ls as [|raw ls IH]; [done|]. simpl.
  case_bool_decide; [done|]. apply clean_form_clean.
Qed.

Lemma section_num_only_inv l g1 :
  match_ SECTION_NUM_ONLY_RE l = Some g1 →
  Spec.digits g1 ∧ ∃ r, l = g1 ++ "."%char :: r.
Proof.
  intros (c' & H)%match_Some.
  apply in_mbind in H as (d & c1 & Hd & H).
  apply in_plus in Hd as (Hne & Hall & Hrest). simpl in Hrest.
  apply in_mbind in H as (x & c2 & Hx & H).
  apply in_chr in Hx as (-> & Hr2 & _).
  assert (d = g1) as <-.
  { repeat (apply in_mbind in H as (? & ? & _ & H)).
    by apply in_mret in H as [-> _]. }
  split; [by split|]. exists (rest c2). by rewrite Hrest, Hr2.
Qed.

Lemma combined_line_ok g1 nxt :
  Spec.digits g1 → nxt ≠ [] → clean_form nxt = true →
  line_ok (g1 ++ txt ". " ++ nxt).
Proof.
  intros Hg Hne Hcf. split; [destruct g1; [by destruct Hg|done]|].
  change (g1 ++ txt ". " ++ nxt) with (g1 ++ "."%char :: " "%char :: nxt).
  replace (g1 ++ "."%char :: " "%char :: nxt)
    with ((g1 ++ ["."%char]) ++ " "%char :: nxt)
    by by rewrite <-app_assoc.
  apply clean_form_app_space; [|done|by destruct g1|done].
  apply clean_form_no_space, Forall_app. split.
  - by apply digits_no_space.
  - by repeat constructor.
Qed.

Lemma section_line_nonempty l :
  matches SECTION_LINE_RE l = true → l ≠ [].
Proof.
  intros H Hl. subst l. revert H. by vm_compute.
Qed.

Lemma normalise_from_ok n :
  ∀ todo lines i, length todo ≤ n →
                  Forall line_ok (normalise_from lines i todo).
Proof.
  induction n as [|n IH]; intros todo lines i Hlen.
  { destruct todo; [constructor|simpl in Hlen; lia]. }
  destruct todo as [|raw rest]; [constructor|]. simpl in Hlen.
  cbn [normalise_from]. case_bool_decide as Hl; [apply IH; lia|].
  assert (line_ok (_clean raw)) as Hraw by (split; [done|apply clean_form_clean]).
  assert (Forall line_ok (normalise_from lines (S i) rest)) as Hrest
    by (apply IH; lia).
  destruct (match match_ SECTION_NUM_ONLY_RE (_clean raw) with
            | Some g1 =>
                if negb (bool_decide (_next_meaningful lines (S i) = []))
                   && matches UPPER_TITLE_RE
                        (_clean (_next_meaningful lines (S i)))
                then Some (g1 ++ txt ". " ++ _clean (_next_meaningful lines (S i)))
                else None
            | None => None
            end) as [line|] eqn:Hcomb.
  - constructor.
    + destruct (match_ SECTION_NUM_ONLY_RE (_clean raw)) as [g1|] eqn:Hm;
        [|done].
      destruct (negb (bool_decide (_next_meaningful lines (S i) = [])))
        eqn:Hnxt; [|done].
      destruct (matches UPPER_TITLE_RE _); [|done]. simpl in Hcomb.
      injection Hcomb as <-.
      apply negb_true_iff, bool_decide_eq_false in Hnxt.
      pose proof (first_meaningful_clean (drop (S i) lines)) as Hcf.
      fold (_next_meaningful lines (S i)) in Hcf.
      rewrite (clean_fixpoint _ Hcf).
      apply combined_line_ok; [|done|done].
      by apply section_num_only_inv in Hm as [? _].
    + destruct rest as [|skipped rest']; [constructor|].
      apply IH. simpl in Hlen. lia.
  - destruct (match match_ inline_section (_clean raw) with
              | Some (g1, g2, g3) =>
                  if matches SECTION_LINE_RE (_clean g2)
                  then Some (_clean g1, _clean g2, _clean g3) else None
              | None => None
              end) as [[[a b] c]|] eqn:Hsplit; [|by constructor].
    destruct (match_ inline_section (_clean raw)) as [[[g1 g2] g3]|]; [|done].
    destruct (matches SECTION_LINE_RE (_clean g2)) eqn:Hsec; [|done].
    injection Hsplit as <- <- <-. clear Hcomb.
    apply Forall_app. split.
    { destruct (decide (_clean g1 = [])) as [Ha|Ha].
      - rewrite bool_decide_eq_true_2 by done. constructor.
      - rewrite bool_decide_eq_false_2 by done. constructor; [|constructor].
        split; [done|apply clean_form_clean]. }
    constructor.
    { split; [by apply section_line_nonempty|apply clean_form_clean]. }
    apply Forall_app. split; [|done].
    destruct (decide (_clean g3 = [])) as [Hc|Hc].
    + rewrite bool_decide_eq_true_2 by done. constructor.
    + rewrite bool_decide_eq_false_2 by done. constructor; [|constructor].
      split; [done|apply clean_form_clean].
Qed.

Lemma normalise_from_cons lines i raw rest :
  normalise_from lines i (raw :: rest)
  = let l := _clean raw in
    if bool_decide (l = []) then normalise_from lines (S i) rest
    else
      let combined :=
        match match_ SECTION_NUM_ONLY_RE l with
        | Some g1 =>
            let nxt := _next_meaningful lines (S i) in
            if negb (bool_decide (nxt = []))
               && matches UPPER_TITLE_RE (_clean nxt)
            then Some (g1 ++ txt ". " ++ _clean nxt)
            else None
        | None => None
        end in
      match combined with
      | Some line =>
          line :: match rest with
                  | [] => []
                  | _ :: rest' => normalise_from lines (S (S i)) rest'
                  end
      | None =>
          let split :=
            match match_ inline_section l with
            | Some (g1, g2, g3) =>
                if matches SECTION_LINE_RE (_clean g2)
                then Some (_clean g1, _clean g2, _clean g3)
                else None
            | None => None
            end in
          match split with
          | Some (a, b, c) =>
              (if bool_decide (a = []) then [] else [a])
              ++ b :: (if bool_decide (c = []) then [] else [c])
              ++ normalise_from lines (S i) rest
          | None => l :: normalise_from lines (S i) rest
          end
      end.
Proof. reflexivity. Qed.

Lemma first_meaningful_cons raw ls :
  first_meaningful (raw :: ls)
  = if bool_decide (_clean raw = []) then first_meaningful ls else _clean raw.
Proof. reflexivity. Qed.

Lemma normalise_from_suffix n :
  ∀ todo lines i, length todo ≤ n → drop i lines = todo →
                  normalise_from lines i todo = _normalise_lines todo.
Proof.
  unfold _normalise_lines.
  induction n as [|n IH]; intros todo lines i Hlen Hdrop.
  { destruct todo; [done|simpl in Hlen; lia]. }
  destruct todo as [|raw rest]; [done|]. simpl in Hlen.
  assert (drop (S i) lines = rest) as Hrest.
  { rewrite <-(Nat.add_1_l i), Nat.add_comm, <-drop_drop, Hdrop. done. }
  cbn [normalise_from]. unfold _next_meaningful. rewrite Hrest.
  change (drop 1 (raw :: rest)) with rest.
  rewrite (IH rest lines (S i)) by (done || lia).
  rewrite (IH rest (raw :: rest) 1) by (done || lia).
  destruct rest as [|skipped rest']; [done|].
  assert (drop (S (S i)) lines = rest') as Hrest'.
  { rewrite <-(Nat.add_1_l (S i)), Nat.add_comm, <-drop_drop, Hrest. done. }
  rewrite (IH rest' lines (S (S i))) by (done || simpl in Hlen; lia).
  rewrite (IH rest' (raw :: skipped :: rest') 2) by (done || simpl in Hlen; lia).
  done.
Qed.

Lemma in_lazy_run p b s t c' :
  (t, c') ∈ lazy_run p b s → s = t ++ rest c'.
Proof.
  revert b t c'. induction s as [|x s IH]; intros b t c'; simpl.
  { by intros [= -> ->]%list_elem_of_singleton. }
  intros [[= -> ->]|H]%elem_of_cons; [done|].
  destruct (p x); [|by apply elem_of_nil in H].
  apply list_elem_of_fmap in H as ([t' c1] & [= -> ->] & H). simpl.
  f_equal. by eapply IH.
Qed.

Lemma no_digit_clean s : no_digit s → no_digit (_clean s).
Proof.
  unfold no_digit. intros H. apply Forall_forall.
  intros x [Hx| ->]%elem_of_clean; [|done].
  rewrite Forall_forall in H. by apply H.
Qed.

Lemma no_digit_num_only l :
  no_digit l → match_ SECTION_NUM_ONLY_RE l = None.
Proof.
  unfold no_digit. intros Hnd.
  destruct (match_ SECTION_NUM_ONLY_RE l) as [g1|] eqn:Hm; [|done].
  apply section_num_only_inv in Hm as [[Hne Hd] [r ->]].
  destruct g1 as [|d g1]; [done|].
  apply Forall_cons in Hd as [Hd _]. apply Forall_cons in Hnd as [Hnd _].
  congruence.
Qed.

Lemma no_digit_inline_section l :
  no_digit l → match_ inline_section l = None.
Proof.
  unfold no_digit. intros Hnd.
  destruct (match_ inline_section l) as [x|] eqn:Hm; [|done].
  apply match_Some in Hm as (c' & H).
  apply in_mbind in H as (g1 & c1 & Hg1 & H).
  apply in_lazy_run in Hg1. simpl in Hg1.
  apply in_mbind in H as (u & c2 & ->%in_wordb & H).
  apply in_mbind in H as (d & c3 & Hd & _).
  apply in_plus in Hd as (Hne & Hd & Hrest).
  destruct d as [|y d]; [done|]. apply Forall_cons in Hd as [Hy _].
  rewrite Hg1, Hrest in Hnd. apply Forall_app in Hnd as [_ Hnd].
  apply Forall_cons in Hnd as [Hnd _]. congruence.
Qed.

Lemma normalise_from_no_digit lines todo :
  ∀ i, Forall no_digit todo →
       normalise_from lines i todo = List.filter nonblank (map _clean todo).
Proof.
  induction todo as [|raw rest IH]; intros i Hall; [done|].
  apply Forall_cons in Hall as [Hraw Hall]. cbn [normalise_from map List.filter].
  unfold nonblank at 1. case_bool_decide; cbn [negb]; [by apply IH|].
  rewrite no_digit_num_only, no_digit_inline_section by by apply no_digit_clean.
  by rewrite IH.
Qed.

Lemma star_run_nil p b s : ([], Cursor b s) ∈ star_run p b s.
Proof.
  destruct s as [|x s]; simpl; [by left|].
  destruct (p x); [|by left]. apply elem_of_app. right. by left.
Qed.

Lemma star_run_intro p t r :
  ∀ b, Forall (λ x, p x = true) t →
       ∃ b', (t, Cursor b' r) ∈ star_run p b (t ++ r).
Proof.
  induction t as [|x t IH]; intros b Hall.
  { exists b. apply star_run_nil. }
  apply Forall_cons in Hall as [Hx Hall].
  destruct (IH (Some x) Hall) as [b' Hin]. exists b'. simpl. rewrite Hx.
  apply elem_of_app. left.
  apply list_elem_of_fmap. by exists (t, Cursor b' r).
Qed.

Lemma plus_intro p t r b :
  t ≠ [] → Forall (λ x, p x = true) t →
  ∃ b', (t, Cursor b' r) ∈ plus p (Cursor b (t ++ r)).
Proof.
  intros Hne Hall. destruct t as [|x t]; [done|].
  apply Forall_cons in Hall as [Hx Hall].
  destruct (star_run_intro p t r (Some x) Hall) as [b' Hin]. exists b'.
  unfold plus. apply in_bind. exists x, (Cursor (Some x) (t ++ r)).
  split; [by apply in_sat|].
  apply in_bind. exists t, (Cursor b' r). split; [done|]. by apply in_ret.
Qed.

Lemma head_is_Some {A} (x : A) l : x ∈ l → is_Some (head l).
Proof. destruct l; [by intros ?%elem_of_nil|by eexists]. Qed.

Lemma upper_title_inv t :
  matches UPPER_TITLE_RE t = true →
  ∃ h body tail,
    t = h :: body ++ tail ∧ is_upper h = true ∧ body ≠ []
    ∧ Forall (λ x, section_title_char x = true) body
    ∧ (tail = [] ∨ tail = [newline]).
Proof.
  intros [u (c' & H)%match_Some]%matches_true.
  apply in_mbind in H as (h & c1 & Hh & H).
  apply in_sat in Hh as (Hh & Hr1 & _). simpl in Hr1.
  apply in_mbind in H as (a & c2 & Ha & H).
  apply in_sat in Ha as (Ha & Hr2 & _).
  apply in_mbind in H as (b & c3 & Hb & H).
  apply in_sat in Hb as (Hb & Hr3 & _).
  apply in_mbind in H as (w & c4 & Hw & H).
  apply in_star in Hw as (Hw & Hr4).
  apply in_mbind in H as (e & c5 & He & _).
  apply in_eol in He as [-> He].
  exists h, (a :: b :: w), (rest c4).
  split_and!; [|done|done| |done].
  - rewrite Hr1, Hr2, Hr3, Hr4. done.
  - by repeat constructor.
Qed.

Lemma combined_line_is_section g1 t :
  Spec.digits g1 → matches UPPER_TITLE_RE t = true →
  is_Some (match_ SECTION_LINE_RE (g1 ++ txt ". " ++ t)).
Proof.
  intros [Hne Hd] (h & body & tail & -> & Hh & Hb & Hbody & Htail)%upper_title_inv.
  unfold match_. apply fmap_is_Some.
  destruct (plus_intro is_digit g1 (txt ". " ++ h :: body ++ tail) None Hne Hd)
    as [b1 H1].
  destruct (plus_intro section_title_char body tail (Some h) Hb Hbody)
    as [b2 H2].
  apply (head_is_Some (g1, h :: body, Cursor b2 tail)).
  unfold SECTION_LINE_RE.
  apply in_mbind. eexists _, _. split; [exact H1|].
  apply in_mbind. eexists _, (Cursor (Some "."%char) (" "%char :: h :: body ++ tail)).
  split; [by apply in_chr|].
  destruct (plus_intro is_space [" "%char] (h :: body ++ tail)
              (Some "."%char)) as [b3 H3]; [done|by repeat constructor|].
  apply in_mbind. eexists _, _. split; [exact H3|].
  apply in_mbind. eexists h, (Cursor (Some h) (body ++ tail)).
  split; [by apply in_sat|].
  apply in_mbind. eexists _, _. split; [exact H2|].
  apply in_mbind. eexists [], _. split; [apply star_run_nil|].
  apply in_mbind. eexists (), _. split.
  { unfold eol. simpl. destruct Htail as [->| ->]; [by left|].
    rewrite bool_decide_eq_true_2 by done. by left. }
  by apply in_mret.
Qed.

End normalise.

(** X13 — the lines that the parsers read.  Every line that
    [_normalise_lines] returns, and so every line that
    [_extract_lines_from_pdf_bytes] hands to the parsers, is not empty and
    is in clean form.  A document whose lines hold no digit has no section
    number to repair: its lines are only cleaned, and the blank ones
    dropped. *)
Theorem X13_normalised_lines_are_clean :
  (∀ lines : list text, Forall line_ok (Logan._normalise_lines lines))
  ∧ (∀ pages : list text,
       Forall line_ok (Logan._extract_lines_from_pdf_bytes pages))
  ∧ (∀ lines : list text,
       Forall no_digit lines →
       Logan._normalise_lines lines
       = List.filter nonblank (map _clean lines)).
Proof.
  split_and!.
  - intros lines. by apply (normalise_from_ok (length lines)).
  - intros pages. unfold Logan._extract_lines_from_pdf_bytes.
    unfold Logan._normalise_lines. eapply normalise_from_ok. reflexivity.
  - intros lines. apply normalise_from_no_digit.
Qed.

(** X14 — a section number on a line of its own.  When a line holds only
    a section number and the next line is a title in capitals, the two are
    merged into one line, number, full stop, space and title, which the
    conditions walk reads as a section header; the lines after the title
    are normalised as if they stood alone.  When a blank line stands
    between the two, the merged line is the same, but the loop resumes at
    the title, which is then read a second time. *)
Theorem X14_number_and_title_are_merged :
  ∀ (raw title : text) (rest : list text) (g1 : text),
    Re.match_ Logan.SECTION_NUM_ONLY_RE (_clean raw) = Some g1 →
    _clean title ≠ [] →
    Logan.matches Logan.UPPER_TITLE_RE (_clean title) = true →
    Logan._normalise_lines (raw :: title :: rest)
    = (g1 ++ txt ". " ++ _clean title) :: Logan._normalise_lines rest
    ∧ is_Some (Re.match_ Logan.SECTION_LINE_RE
                 (g1 ++ txt ". " ++ _clean title))
    ∧ (∀ blank : text,
         _clean blank = [] →
         Logan._normalise_lines (raw :: blank :: title :: rest)
         = (g1 ++ txt ". " ++ _clean title)
             :: Logan._normalise_lines (title :: rest)).
Proof.
  intros raw title rest g1 Hm Htitle Hupper.
  destruct (section_num_only_inv _ _ Hm) as [Hg1 [r Hl]].
  assert (_clean raw ≠ []) as Hraw.
  { rewrite Hl. destruct g1; [by destruct Hg1|done]. }
  split_and!.
  - unfold Logan._normalise_lines at 1. rewrite normalise_from_cons.
    cbv zeta. rewrite (bool_decide_eq_false_2 _ Hraw), Hm.
    unfold Logan._next_meaningful. change (drop 1 (raw :: ?l)) with l.
    rewrite first_meaningful_cons, (bool_decide_eq_false_2 _ Htitle).
    rewrite (bool_decide_eq_false_2 _ Htitle).
    cbn [negb andb]. rewrite clean_idempotent, Hupper.
    f_equal. by apply (normalise_from_suffix (length rest)).
  - by apply combined_line_is_section.
  - intros blank Hblank.
    unfold Logan._normalise_lines at 1. rewrite normalise_from_cons.
    cbv zeta. rewrite (bool_decide_eq_false_2 _ Hraw), Hm.
    unfold Logan._next_meaningful. change (drop 1 (raw :: ?l)) with l.
    rewrite !first_meaningful_cons, (bool_decide_eq_true_2 _ Hblank).
    rewrite !(bool_decide_eq_false_2 _ Htitle).
    cbn [negb andb]. rewrite clean_idempotent, Hupper.
    f_equal. by apply (normalise_from_suffix (S (length rest))).
Qed.

Lemma X14_witness :
  Logan._normalise_lines [txt "2."; txt " PROPERTY "; txt "lot 5"]
  = (txt "2" ++ txt ". " ++ _clean (txt " PROPERTY "))
      :: Logan._normalise_lines [txt "lot 5"]
  ∧ is_Some (Re.match_ Logan.SECTION_LINE_RE
               (txt "2" ++ txt ". " ++ _clean (txt " PROPERTY ")))
  ∧ (∀ blank : text,
       _clean blank = [] →
       Logan._normalise_lines [txt "2."; blank; txt " PROPERTY "; txt "lot 5"]
       = (txt "2" ++ txt ". " ++ _clean (txt " PROPERTY "))
           :: Logan._normalise_lines [txt " PROPERTY "; txt "lot 5"]).
Proof.
  apply (X14_number_and_title_are_merged (txt "2.") (txt " PROPERTY ")
           [txt "lot 5"] (txt "2")).
  - vm_compute; reflexivity.
  - vm_compute; discriminate.
  - vm_compute; reflexivity.
Defined.

(* ================================================================== *)
(** * The type and description of the PDF cover page                    *)
(* ================================================================== *)

Section type_description.
Import Re Logan.

Lemma lstrip_snoc x c :
  is_space c = false → lstrip (x ++ [c]) = lstrip x ++ [c].
Proof.
  intros Hc. induction x as [|d x IH]; simpl; [by rewrite Hc|].
  by destruct (is_space d).
Qed.

Lemma rstrip_cons c s : is_space c = false → rstrip (c :: s) = c :: rstrip s.
Proof.
  intros Hc. unfold rstrip. rewrite reverse_cons, lstrip_snoc by done.
  by rewrite reverse_app.
Qed.

Lemma clean_prefix p s :
  p ≠ [] → Forall (λ x, is_space x = false) p →
  ∃ r, _clean (p ++ s) = p ++ r.
Proof.
  intros Hne Hp. unfold _clean, strip.
  rewrite (lstrip_id (p ++ s)) by (destruct p; [done|]; by inversion Hp).
  clear Hne. induction Hp as [|c p Hc _ [r IH]]; [by eexists|].
  simpl. rewrite rstrip_cons by done. simpl. rewrite Hc, IH. by eexists.
Qed.

Lemma upper_lower_not_space x : is_upper x = true → is_space (lower x) = false.
Proof. destruct x as [[] [] [] [] [] [] [] []]; vm_compute; done. Qed.

Lemma nocase_upper_not_space x y :
  is_upper x = true → eq_nocase x y = true → is_space y = false.
Proof.
  intros Hx Hxy%bool_decide_eq_true.
  destruct (is_space y) eqn:Hy; [|done].
  rewrite (space_lower y Hy) in Hxy. subst y.
  by rewrite upper_lower_not_space in Hy.
Qed.

Lemma type_label_inv ws g c c' :
  (g, c') ∈ type_label ws c →
  ∃ a b, g = a ++ b ∧ a ≠ [] ∧ Forall (λ x, is_space x = false) a
         ∧ lower_text a = txt "type".
Proof.
  unfold type_label, cat. intros H.
  apply in_mbind in H as (a & c1 & Ha & H).
  apply in_mbind in H as (b & c2 & _ & H).
  apply in_mret in H as [-> _].
  apply in_lit_with in Ha as [Ha _]. exists a, b.
  split; [done|]. split; [by inversion Ha|]. split.
  - clear -Ha. change (txt "TYPE") with ["T"; "Y"; "P"; "E"]%char in Ha.
    repeat (apply Forall2_cons_inv_l in Ha as (? & ? & ? & Ha & ->)).
    apply Forall2_nil_inv_l in Ha as ->.
    repeat (constructor;
            [eapply nocase_upper_not_space; [|eassumption]; reflexivity|]).
    constructor.
  - by rewrite (nocase_lower _ _ Ha).
Qed.

Lemma type_description_captured line m :
  TYPE_DESCRIPTION_RE line = Some m →
  captured m ≠ [] ∧ startswith (txt "type") (lower_text (captured m)) = true.
Proof.
  unfold TYPE_DESCRIPTION_RE.
  destruct (match_ _ line) as [g|] eqn:Hm; [|done]. intros [= <-].
  apply match_Some in Hm as (c' & H).
  apply in_mbind in H as (g1 & c1 & Hg & H).
  assert (g1 = g) as ->.
  { apply in_mbind in H as (? & ? & _ & H). by apply in_mret in H as [-> _]. }
  assert (∃ a b, g = a ++ b ∧ a ≠ [] ∧ Forall (λ x, is_space x = false) a
                 ∧ lower_text a = txt "type") as (a & b & -> & Hne & Ha & Hl).
  { apply in_alt in Hg as [Hg|Hg]; by eapply type_label_inv. }
  unfold captured. simpl.
  destruct (clean_prefix a b Hne Ha) as [r ->]. split.
  - by destruct a.
  - rewrite lower_text_app, Hl. done.
Qed.

Lemma find_value_type_description lines window :
  ∀ i,
    (find_value_loop lines TYPE_DESCRIPTION_RE i window = []
     ∧ Forall (not_label TYPE_DESCRIPTION_RE) window)
    ∨ (startswith (txt "type")
         (lower_text (find_value_loop lines TYPE_DESCRIPTION_RE i window))
       = true
       ∧ ¬ Forall (not_label TYPE_DESCRIPTION_RE) window).
Proof.
  induction window as [|raw window IH]; intros i; [left; by split|].
  destruct (decide (_clean raw = [])) as [Hb|Hb].
  { simpl. rewrite bool_decide_eq_true_2 by done.
    destruct (IH (S i)) as [[H1 H2]|[H1 H2]].
    - left. split; [done|]. constructor; [by left|done].
    - right. split; [done|]. by intros [_ ?]%Forall_cons. }
  destruct (TYPE_DESCRIPTION_RE (_clean raw)) as [m|] eqn:Hm.
  - right. rewrite (find_value_loop_match _ _ _ _ _ m) by done.
    destruct (type_description_captured _ _ Hm) as [Hc Hs].
    rewrite bool_decide_eq_false_2 by done. cbn [negb]. split; [done|].
    intros [[?|?] _]%Forall_cons; congruence.
  - simpl. rewrite bool_decide_eq_false_2, Hm by done.
    destruct (IH (S i)) as [[H1 H2]|[H1 H2]].
    + left. split; [done|]. constructor; [by right|done].
    + right. split; [done|]. by intros [_ ?]%Forall_cons.
Qed.

Lemma type_desc_fallback_spec pre ln post td :
  Forall (λ r, search (type_label (star is_space)) r = None) pre →
  has_type_label ln →
  type_desc_fallback (pre ++ ln :: post) td
  = match split_once ":"%char ln with
    | Some (_, a) => _clean a
    | None => td
    end.
Proof.
  intros Hpre Hln.
  induction Hpre as [|r pre Hr _ IH]; simpl.
  - by rewrite bool_decide_eq_true_2.
  - rewrite Hr. by rewrite bool_decide_eq_false_2 by by intros [].
Qed.

Lemma type_desc_fallback_none window td :
  Forall (λ r, search (type_label (star is_space)) r = None) window →
  type_desc_fallback window td = td.
Proof.
  induction 1 as [|r pre Hr _ IH]; simpl; [done|].
  rewrite Hr. by rewrite bool_decide_eq_false_2 by by intros [].
Qed.

Lemma logan_type_desc_unfold lines plans :
  logan_type_desc lines plans
  = let td := _find_value_after_label lines TYPE_DESCRIPTION_RE 120 in
    if startswith (txt "type") (lower_text td)
    then type_desc_fallback (take 120 lines) td else td.
Proof. reflexivity. Qed.

End type_description.

(** X15 — where the type and description of the application comes from.
    When no line among the first 120 carries the label, the value is
    empty.  Otherwise the value is read on the first of those lines in
    which the label is found: it is the cleaned text after the first colon
    of that line, or, when the line has no colon, a text that starts with
    the label itself.  It is never taken from the line that follows the
    label. *)
Theorem X15_type_description_is_read_on_the_label_line :
  ∀ (lines : list text) (plans : list Logan.Plan.t),
    (Forall (not_label Logan.TYPE_DESCRIPTION_RE) (take 120 lines) →
     logan_type_desc lines plans = [])
    ∧ (¬ Forall (not_label Logan.TYPE_DESCRIPTION_RE) (take 120 lines) →
       ∀ pre ln post,
         take 120 lines = pre ++ ln :: post →
         Forall (λ r, ¬ has_type_label r) pre → has_type_label ln →
         (∀ l a, ln = l ++ ":"%char :: a → (":"%char ∉ l) →
                 logan_type_desc lines plans = _clean a)
         ∧ ((":"%char ∉ ln) →
            startswith (txt "type") (lower_text (logan_type_desc lines plans))
            = true)).
Proof.
  intros lines plans. rewrite logan_type_desc_unfold. cbv zeta.
  unfold Logan._find_value_after_label.
  destruct (find_value_type_description lines (take 120 lines) 0)
    as [[Hnil Hall]|[Hty Hsome]].
  - split; [|done]. intros _. by rewrite Hnil.
  - split; [done|]. intros _ pre ln post Heq Hpre Hln.
    rewrite Hty, Heq. rewrite type_desc_fallback_spec; [|
      eapply Forall_impl; [exact Hpre|];
      intros r Hr; unfold has_type_label in Hr;
      by destruct (Re.search _ r); [destruct Hr; by eexists|] | done].
    split.
    + intros l a -> Hl. by rewrite split_once_app.
    + intros Hno. rewrite split_once_none by done.
      by rewrite <-Heq.
Qed.

(* ================================================================== *)
(** * Inline timing                                                     *)
(* ================================================================== *)

Section inline_timing.
Import Re Bcc.

Lemma timing_re_inv t start g :
  search TIMING_RE t = Some (start, g) →
  ∃ mk ws tail,
    t = take start t ++ mk ++ ws ++ g ++ tail
    ∧ lower_text mk = txt "timing:"
    ∧ Forall (λ x, is_space x = true) ws
    ∧ g ≠ []
    ∧ (tail = [] ∨ tail = [newline]).
Proof.
  intros (Hle & b & c' & H)%search_Some. unfold TIMING_RE in H.
  apply in_mbind in H as (u1 & c1 & H1 & H).
  apply in_mbind in H as (mk & c2 & Hmk & H).
  apply in_mbind in H as (ws & c4 & Hws & H).
  apply in_mbind in H as (g' & c5 & Hg & H).
  apply in_mbind in H as (u3 & c6 & H6 & H).
  apply in_mret in H as [-> ->].
  apply in_wordb in H1 as ->. apply in_lit_with in Hmk as [Hmk Hr1].
  apply in_star in Hws as [Hws Hr2].
  apply in_plus in Hg as (Hne & _ & Hr3). apply in_eol in H6 as [-> Hend].
  simpl in Hr1. exists mk, ws, (rest c5).
  split_and!; [|by rewrite (nocase_lower _ _ Hmk)|done..].
  rewrite <-Hr3, <-Hr2, <-Hr1. by rewrite take_drop.
Qed.

Lemma clean_nil_inv g : _clean g = [] → Forall (λ x, is_space x = true) g.
Proof.
  unfold _clean, strip. intros H.
  destruct (lstrip_split g) as (ws & Heq & Hws & Hh).
  destruct (lstrip g) as [|c r] eqn:Hl.
  { rewrite Heq, app_nil_r. done. }
  simpl in Hh. rewrite rstrip_cons in H by done. simpl in H.
  by rewrite Hh in H.
Qed.

Lemma lower_colon x : lower x = ":"%char → x = ":"%char.
Proof. destruct x as [[] [] [] [] [] [] [] []]; vm_compute; done. Qed.

Lemma last_app_nonempty {A} (a g : list A) : g ≠ [] → last (a ++ g) = last g.
Proof.
  intros Hg. destruct g as [|x g] using rev_ind; [done|].
  by rewrite app_assoc, !last_snoc.
Qed.

Lemma inline_timing_clean t start g :
  clean_form t = true → search TIMING_RE t = Some (start, g) →
  _clean g ≠ []
  ∧ ∃ mk ws, t = take start t ++ mk ++ ws ++ g
             ∧ lower_text mk = txt "timing:"
             ∧ Forall (λ x, is_space x = true) ws.
Proof.
  intros [Hss _]%andb_true_iff
    (mk & ws & tail & Heq & Hmk & Hws & Hne & Htail)%timing_re_inv.
  apply single_spaced_last in Hss.
  assert (tail = []) as ->.
  { destruct Htail as [->| ->]; [done|]. rewrite Heq in Hss.
    rewrite !app_assoc, last_snoc in Hss. by vm_compute in Hss. }
  rewrite app_nil_r in Heq. split; [|by exists mk, ws].
  intros Hg%clean_nil_inv. rewrite Heq in Hss.
  rewrite !app_assoc, last_app_nonempty in Hss by done.
  destruct g as [|x g] using rev_ind; [done|].
  rewrite last_snoc in Hss. simpl in Hss.
  apply Forall_app in Hg as [_ [Hx _]%Forall_cons]. congruence.
Qed.

Lemma timing_needs_colon t : (":"%char ∉ t) → search TIMING_RE t = None.
Proof.
  intros Hno. destruct (search TIMING_RE t) as [[start g]|] eqn:Hs; [|done].
  apply timing_re_inv in Hs as (mk & ws & tail & Heq & Hmk & _).
  destruct Hno. rewrite Heq.
  apply elem_of_app. right. apply elem_of_app. left.
  destruct mk as [|m1 [|m2 [|m3 [|m4 [|m5 [|m6 [|m7 [|m8 mk]]]]]]]];
    try discriminate Hmk.
  injection Hmk as _ _ _ _ _ _ H7. apply lower_colon in H7 as ->.
  do 6 right. by left.
Qed.

End inline_timing.

(** X16 — the inline timing of a cleaned text.  When the timing pattern is
    not found the text is returned as it is, with no timing; a text
    without a colon is such a text.  When the pattern is found, the text
    reads: what stands before the marker, the marker (the word timing and
    a colon, in any case), whitespace, and the captured rest; the result is
    the cleaned text before the marker and the cleaned rest, which is not
    empty. *)
Theorem X16_inline_timing_of_a_clean_text :
  ∀ t : text,
    clean_form t = true →
    match Re.search Bcc.TIMING_RE t with
    | None => Bcc._extract_inline_timing t = (t, [])
    | Some (start, g) =>
        Bcc._extract_inline_timing t = (_clean (take start t), _clean g)
        ∧ _clean g ≠ []
        ∧ ∃ mk ws, t = take start t ++ mk ++ ws ++ g
                   ∧ lower_text mk = txt "timing:"
                   ∧ Forall (λ x, is_space x = true) ws
    end
    ∧ ((":"%char ∉ t) → Bcc._extract_inline_timing t = (t, [])).
Proof.
  intros t Hcf. split.
  - destruct (Re.search Bcc.TIMING_RE t) as [[start g]|] eqn:Hs.
    + destruct (inline_timing_clean t start g Hcf Hs) as [Hg Hshape].
      split; [|done]. unfold Bcc._extract_inline_timing.
      case_bool_decide as Ht; [by subst t|]. by rewrite Hs.
    + unfold Bcc._extract_inline_timing. rewrite Hs. by case_bool_decide.
  - intros Hno. unfold Bcc._extract_inline_timing.
    rewrite timing_needs_colon by done. by case_bool_decide.
Qed.

Lemma X16_witness :
  match Re.search Bcc.TIMING_RE (txt "Keep them. Timing: prior to use") with
  | None =>
      Bcc._extract_inline_timing (txt "Keep them. Timing: prior to use")
      = (txt "Keep them. Timing: prior to use", [])
  | Some (start, g) =>
      Bcc._extract_inline_timing (txt "Keep them. Timing: prior to use")
      = (_clean (take start (txt "Keep them. Timing: prior to use")), _clean g)
      ∧ _clean g ≠ []
      ∧ ∃ mk ws, txt "Keep them. Timing: prior to use"
                 = take start (txt "Keep them. Timing: prior to use")
                   ++ mk ++ ws ++ g
                 ∧ lower_text mk = txt "timing:"
                 ∧ Forall (λ x, is_space x = true) ws
  end
  ∧ ((":"%char ∉ txt "Keep them. Timing: prior to use") →
     Bcc._extract_inline_timing (txt "Keep them. Timing: prior to use")
     = (txt "Keep them. Timing: prior to use", [])).
Proof.
  apply (X16_inline_timing_of_a_clean_text
           (txt "Keep them. Timing: prior to use")).
  vm_compute; reflexivity.
Defined.

(* ================================================================== *)
(** * The permit of the conditions                                      *)
(* ================================================================== *)

Section permit_info.
Import Bcc.

Lemma strip_idempotent s : strip (strip s) = strip s.
Proof.
  destruct (strip_ends s) as [Hh Hl]. unfold strip at 1.
  by rewrite lstrip_id, rstrip_id.
Qed.

Lemma clean_form_stripped t : clean_form t = true → strip t = t.
Proof.
  intros [Hss Hh]%andb_true_iff. unfold strip.
  rewrite lstrip_id, rstrip_id; [done|by apply single_spaced_last|].
  destruct t; [done|]. simpl. by apply negb_true_iff.
Qed.

Lemma stripped_parts_ok sep s : Forall stripped (stripped_parts sep s).
Proof.
  unfold stripped_parts. induction (split_on sep s) as [|p ps IH];
    simpl; [constructor|].
  case_bool_decide as Hp; simpl; [done|]. constructor; [|done].
  split; [done|apply strip_idempotent].
Qed.

Lemma clean_not_nbsp s : _clean s ≠ [ascii_of_nat 160].
Proof.
  intros H. pose proof (clean_form_clean s) as Hcf. rewrite H in Hcf.
  by vm_compute in Hcf.
Qed.

Lemma permit_rows_ok rows :
  ∀ permit stage activities,
    clean_form permit = true → clean_form stage = true →
    stage ≠ txt "&nbsp;" → Forall stripped activities →
    permit_info_ok (permit_rows rows permit stage activities).
Proof.
  induction rows as [|tds rows IH]; intros permit stage activities Hp Hs Hn Ha.
  { by split_and!. }
  cbn [permit_rows]. destruct tds as [|td0 [|td1 more]]; try by apply IH.
  cbv zeta.
  set (value_lines := stripped_parts newline (text_lined td1)).
  set (value_clean := _clean (join " "%char value_lines)).
  destruct (startswith (txt "permit to which") _).
  { apply IH; [apply clean_form_clean|done..]. }
  destruct (startswith (txt "stage") _).
  { destruct (decide (value_clean = txt "&nbsp;")) as [Hv|Hv].
    - rewrite (bool_decide_eq_true_2 (value_clean = txt "&nbsp;")) by done.
      rewrite orb_true_r. by apply IH.
    - rewrite (bool_decide_eq_false_2 (value_clean = txt "&nbsp;")) by done.
      rewrite (bool_decide_eq_false_2 (value_clean = [ascii_of_nat 160]))
        by apply clean_not_nbsp.
      apply IH; [done|apply clean_form_clean|done..]. }
  destruct (startswith (txt "activity") _); [|by apply IH].
  apply IH; try done.
  destruct (1 <? length value_lines); [apply stripped_parts_ok|].
  pose proof (stripped_parts_ok ","%char value_clean) as Hparts.
  destruct (stripped_parts ","%char value_clean) as [|p ps]; [|done].
  case_bool_decide as Hv; [constructor|]. constructor; [|constructor].
  split; [done|]. apply clean_form_stripped, clean_form_clean.
Qed.

End permit_info.

(** X17 — the permit of the conditions.  Without the marker, or without a
    table after it, the three keys have their defaults.  In every case the
    permit and the stage are cleaned texts, the stage is never the
    placeholder [&nbsp;], and every activity is a text that is not empty
    and has no whitespace at its ends.  A cleaned text is never the single
    no-break space, so the first alternative of the placeholder test on
    the stage never holds. *)
Theorem X17_permit_info_is_clean :
  (∀ marker, permit_info_ok
               (Bcc._parse_permit_info_from_approval_conditions_header marker))
  ∧ Bcc._parse_permit_info_from_approval_conditions_header None
    = Bcc.PermitInfo.Make [] [] []
  ∧ Bcc._parse_permit_info_from_approval_conditions_header (Some None)
    = Bcc.PermitInfo.Make [] [] []
  ∧ (∀ s : text, _clean s ≠ [ascii_of_nat 160]).
Proof.
  split_and!; [|done|done|apply clean_not_nbsp].
  intros [[rows|]|]; simpl; [|by split_and!..].
  apply permit_rows_ok; done.
Qed.

(* ================================================================== *)
(** * Topic titles and the note pattern                                *)
(* ================================================================== *)

Section note_start_pattern.
Import Re Logan.

Lemma in_lit_with_before eqc s t c c' :
  (t, c') ∈ lit_with eqc s c →
  before c' = match last t with Some x => Some x | None => before c end.
Proof.
  revert t c. induction s as [|a s IH]; intros t c; simpl.
  - rewrite in_ret. by intros [-> ->].
  - rewrite in_bind. intros (x & c1 & Hx & H).
    apply in_bind in H as (t' & c2 & Ht & H). apply in_ret in H as [-> ->].
    apply in_sat in Hx as (_ & _ & Hb). apply IH in Ht.
    rewrite Ht, Hb, last_cons_from. by destruct (last t').
Qed.

Lemma last_of_lower (g s : text) y :
  lower_text g = s ++ [y] → ∃ x, last g = Some x ∧ lower x = y.
Proof.
  change (lower_text g) with (lower <$> g).
  intros (g1 & g2 & _ & H2 & ->)%fmap_app_inv.
  destruct g2 as [|x [|z g2]]; try done.
  injection H2 as Hy. exists x. by rewrite last_snoc.
Qed.

Lemma colon_not_word x : lower x = ":"%char → is_word x = false.
Proof. intros ->%lower_colon. done. Qed.

Lemma note_start_spec t :
  matches NOTE_START_RE t = true ↔ note_start t.
Proof.
  rewrite matches_true. split.
  - intros [g (c' & H)%match_Some]. unfold NOTE_START_RE in H.
    apply in_mbind in H as (g0 & c1 & Hg & H).
    apply in_mbind in H as (u & c2 & Hw & H).
    apply in_mret in H as [<- ->].
    apply in_wordb_iff in Hw as [-> Hx].
    exists g, (rest c1).
    apply in_alt in Hg as [Hg|Hg]; [|apply in_alt in Hg as [Hg|Hg];
                                      [|apply in_alt in Hg as [Hg|Hg]]];
      pose proof (in_lit_with_before _ _ _ _ _ Hg) as Hb;
      apply in_lit_with in Hg as [Hl%nocase_lower Hr]; simpl in Hr;
      (split; [done|]).
    + left. split; [done|].
      destruct (last_of_lower g (txt "this condition is imposed unde")
                  "r"%char Hl) as (x & Hlast & Hlx).
      rewrite Hlast in Hb. rewrite Hb in Hx. simpl in Hx.
      rewrite (lower_letter_word x) in Hx by by rewrite Hlx.
      by destruct (is_word_at (head (rest c1))).
    + right. split; [by left|].
      destruct (last_of_lower g (txt "further advice") ":"%char Hl)
        as (x & Hlast & Hlx).
      rewrite Hlast in Hb. rewrite Hb in Hx. simpl in Hx.
      by rewrite (colon_not_word x Hlx) in Hx.
    + right. split; [right; by left|].
      destruct (last_of_lower g (txt "advice note") ":"%char Hl)
        as (x & Hlast & Hlx).
      rewrite Hlast in Hb. rewrite Hb in Hx. simpl in Hx.
      by rewrite (colon_not_word x Hlx) in Hx.
    + right. split; [right; by right|].
      destruct (last_of_lower g (txt "note") ":"%char Hl)
        as (x & Hlast & Hlx).
      rewrite Hlast in Hb. rewrite Hb in Hx. simpl in Hx.
      by rewrite (colon_not_word x Hlx) in Hx.
  - intros (g & r & -> & H).
    assert (∃ c', (g, c') ∈ NOTE_START_RE (Cursor None (g ++ r)))
      as [c' Hin].
    { eexists. unfold NOTE_START_RE.
      apply in_mbind. eexists g, _. split.
      { destruct H as [[Hl _]|[[Hl|[Hl|Hl]] _]].
        - apply in_alt. left.
          apply (lit_with_intro_at eq_nocase _ g r None).
          by apply lower_nocase.
        - apply in_alt. right. apply in_alt. left.
          apply (lit_with_intro_at eq_nocase _ g r None).
          by apply lower_nocase.
        - apply in_alt. right. apply in_alt. right. apply in_alt. left.
          apply (lit_with_intro_at eq_nocase _ g r None).
          by apply lower_nocase.
        - apply in_alt. right. apply in_alt. right. apply in_alt. right.
          apply (lit_with_intro_at eq_nocase _ g r None).
          by apply lower_nocase. }
      apply in_mbind. eexists (), _. split; [|by apply in_mret].
      apply in_wordb_iff. split; [reflexivity|]. simpl.
      destruct H as [[Hl Hr]|[Hl Hr]].
      - destruct (last_of_lower g (txt "this condition is imposed unde")
                    "r"%char Hl) as (x & Hlast & Hlx).
        rewrite Hlast, Hr. simpl.
        rewrite (lower_letter_word x) by by rewrite Hlx. done.
      - assert (∃ x, last g = Some x ∧ lower x = ":"%char)
          as (x & Hlast & Hlx).
        { destruct Hl as [Hl|[Hl|Hl]].
          - apply (last_of_lower g (txt "further advice") _ Hl).
          - apply (last_of_lower g (txt "advice note") _ Hl).
          - apply (last_of_lower g (txt "note") _ Hl). }
        rewrite Hlast, Hr. simpl. by rewrite (colon_not_word x Hlx). }
    unfold match_. destruct (NOTE_START_RE (Cursor None (g ++ r)));
      [by apply elem_of_nil in Hin|]. by eexists.
Qed.

End note_start_pattern.

(** X7 — the topic title of a condition.  For an index within the lines,
    [_prev_topic_title] returns the cleaned form of the nearest line
    before the index that can serve as a title (not blank, not a header,
    not matched by [NOTE_START_RE], not starting with a digit, not a long
    sentence), and the empty text when no line before the index can.  So
    the title of every condition of the result is empty or the cleaned
    form of such a line of the document.  [NOTE_START_RE] is narrower than
    its name: it matches one of its four openings only with a word
    boundary after it, which after a colon asks for a word character.  A
    line such as ["Note: see plan"] is therefore not matched, can serve as
    a title, and becomes the title of the condition that follows it. *)
Theorem X7_topic_title_is_nearest_candidate :
  (∀ lines : list text,
     (∀ idx : nat, idx ≤ length lines →
        (Logan._prev_topic_title lines idx = []
         ∧ Forall (λ raw, topic_candidate (_clean raw) = false)
                  (take idx lines))
        ∨ (∃ before raw after,
             take idx lines = before ++ raw :: after
             ∧ topic_candidate (_clean raw) = true
             ∧ Forall (λ r, topic_candidate (_clean r) = false) after
             ∧ Logan._prev_topic_title lines idx = _clean raw))
     ∧ Forall (titled_from lines)
              (tree_nodes (Logan._parse_conditions lines)))
  ∧ (∀ t, Logan.matches Logan.NOTE_START_RE t = true ↔ note_start t)
  ∧ (let lines := [ txt "1. GENERAL"; txt "Note: see plan";
                    txt "1.1. Clear the site" ] in
     topic_candidate (txt "Note: see plan") = true
     ∧ topic_candidate (txt "Note:see plan") = false
     ∧ Logan._prev_topic_title lines 2 = txt "Note: see plan"
     ∧ map (λ c, (number c, title c))
           (tree_nodes (Logan._parse_conditions lines))
       = [ (txt "1.1", txt "Note: see plan") ]).
Proof.
  split_and!.
  - intros lines. split; [intros idx _; apply prev_topic_title_spec|].
    unfold Logan._parse_conditions. rewrite tree_nodes_drop_empty_unsorted.
    apply walk_lines_titled; [apply initial_inv|constructor].
  - apply note_start_spec.
  - cbv zeta.
    refine (conj _ (conj _ (conj _ _))); vm_compute; reflexivity.
Qed.

Lemma X7_witness :
  2 ≤ length [ txt "1. GENERAL"; txt "Note: see plan";
               txt "1.1. Clear the site" ]
  ∧ ((Logan._prev_topic_title
        [ txt "1. GENERAL"; txt "Note: see plan"; txt "1.1. Clear the site" ]
        2 = []
      ∧ Forall (λ raw, topic_candidate (_clean raw) = false)
               (take 2 [ txt "1. GENERAL"; txt "Note: see plan";
                         txt "1.1. Clear the site" ]))
     ∨ (∃ before raw after,
          take 2 [ txt "1. GENERAL"; txt "Note: see plan";
                   txt "1.1. Clear the site" ]
          = before ++ raw :: after
          ∧ topic_candidate (_clean raw) = true
          ∧ Forall (λ r, topic_candidate (_clean r) = false) after
          ∧ Logan._prev_topic_title
              [ txt "1. GENERAL"; txt "Note: see plan";
                txt "1.1. Clear the site" ] 2
            = _clean raw)).
Proof.
  split; [simpl; lia|].
  apply (proj1 (proj1 X7_topic_title_is_nearest_candidate _) 2). simpl. lia.
Defined.

(* ================================================================== *)
(** * The file reference and the permit reference                      *)
(* ================================================================== *)

Section permit_inline.
Import Re Bcc.

Lemma head_bind_Some {A B} (l : list A) (f : A → list B) y :
  head (l ≫= f) = Some y →
  ∃ pre x post, l = pre ++ x :: post ∧ Forall (λ z, f z = []) pre
                ∧ head (f x) = Some y.
Proof.
  induction l as [|x l IH]; [done|]. cbn [mbind list_bind].
  change (head (f x ++ (l ≫= f)) = Some y → ∃ pre x0 post,
            x :: l = pre ++ x0 :: post ∧ Forall (λ z, f z = []) pre
            ∧ head (f x0) = Some y).
  destruct (f x) as [|y' r] eqn:Hf.
  - simpl. intros (pre & x0 & post & -> & Hpre & Hh)%IH.
    exists (x :: pre), x0, post. split_and!; [done|by constructor|done].
  - simpl. intros [= ->]. exists [], x, l. split_and!; [done|done|].
    by rewrite Hf.
Qed.

Lemma lazy_run_lookup p b s k :
  k ≤ length s → Forall (λ x, p x = true) (take k s) →
  lazy_run p b s !! k
  = Some (take k s,
          Cursor (match last (take k s) with Some x => Some x | None => b end)
                 (drop k s)).
Proof.
  revert b k. induction s as [|x s IH]; intros b k Hk Hall.
  { assert (k = 0) as -> by (simpl in Hk; lia). done. }
  destruct k as [|k]; [done|]. simpl in Hk.
  cbn [take] in Hall. apply Forall_cons in Hall as [Hx Hall].
  cbn [lazy_run]. rewrite Hx. cbn [lookup list_lookup].
  change (map (λ r, (x :: r.1, r.2)) (lazy_run p (Some x) s) !! k)
    with (((λ r : text * cursor, (x :: r.1, r.2)) <$> lazy_run p (Some x) s)
         !! k).
  rewrite list_lookup_fmap, (IH (Some x) k) by (done || lia). simpl.
  rewrite last_cons_from. by destruct (last (take k s)).
Qed.

Lemma lazy_run_lookup_inv p b s k t c :
  lazy_run p b s !! k = Some (t, c) →
  t = take k s ∧ length t = k ∧ rest c = drop k s.
Proof.
  revert b k t c. induction s as [|x s IH]; intros b k t c.
  { destruct k as [|k]; [|done]. by intros [= <- <-]. }
  destruct k as [|k]; [by intros [= <- <-]|].
  cbn [lazy_run lookup list_lookup]. destruct (p x); [|done].
  change (map (λ r, (x :: r.1, r.2)) (lazy_run p (Some x) s) !! k)
    with (((λ r : text * cursor, (x :: r.1, r.2)) <$> lazy_run p (Some x) s)
         !! k).
  rewrite list_lookup_fmap.
  destruct (lazy_run p (Some x) s !! k) as [[t' c']|] eqn:Hl; [|done].
  simpl. intros [= <- <-]. apply IH in Hl as (-> & Hlen & Hr).
  split_and!; [done|simpl; by rewrite Hlen|done].
Qed.

Lemma lstrip_spaces_app ws t :
  Forall (λ x, is_space x = true) ws → lstrip (ws ++ t) = lstrip t.
Proof. induction 1 as [|x ws Hx _ IH]; simpl; [done|]. by rewrite Hx. Qed.

Lemma rstrip_app_spaces t ws :
  Forall (λ x, is_space x = true) ws → rstrip (t ++ ws) = rstrip t.
Proof.
  intros H. unfold rstrip. rewrite reverse_app, lstrip_spaces_app; [done|].
  by apply Forall_reverse.
Qed.

Lemma clean_spaces_app ws t :
  Forall (λ x, is_space x = true) ws → _clean (ws ++ t) = _clean t.
Proof. intros H. unfold _clean, strip. by rewrite lstrip_spaces_app. Qed.

Lemma clean_app_spaces t ws :
  Forall (λ x, is_space x = true) ws → _clean (t ++ ws) = _clean t.
Proof.
  intros H. unfold _clean, strip.
  destruct (lstrip_split t) as (ws0 & Heq & Hws0 & Hh).
  destruct (lstrip t) as [|c r] eqn:Hl.
  - rewrite app_nil_r in Heq. subst t.
    rewrite <-(app_nil_r (ws0 ++ ws)), lstrip_spaces_app; [done|].
    by apply Forall_app.
  - rewrite Heq at 1. rewrite <-app_assoc, lstrip_spaces_app by done.
    rewrite (lstrip_id ((c :: r) ++ ws)) by done.
    by rewrite rstrip_app_spaces.
Qed.

Lemma startswith_app p r : startswith p (p ++ r) = true.
Proof.
  induction p as [|a p IH]; [by destruct r|]. simpl.
  by rewrite bool_decide_eq_true_2.
Qed.

Lemma contains_sub_intro p a r : contains_sub p (a ++ p ++ r) = true.
Proof.
  induction a as [|x a IH]; simpl.
  - destruct (p ++ r) eqn:Hp; simpl; rewrite <-Hp, startswith_app; done.
  - rewrite IH. by rewrite orb_true_r.
Qed.

Lemma parse_2col_value_clean t k :
  ∃ s, default [] (_parse_2col_table t !! k) = _clean s.
Proof.
  destruct t as [rows|]; simpl; [|exists []; by rewrite lookup_empty].
  pose proof (fill_2col_lookup rows k) as H.
  destruct (fill_2col rows ∅ !! k) as [v|]; [|by exists []].
  destruct H as (_ & pre & row & post & _ & _ & Hv & _).
  destruct row as [|td0 [|td1 more]]; try done.
  injection Hv as <-. by exists td1.
Qed.

Lemma not_newline_Forall (s : text) :
  newline ∉ s → Forall (λ x, not_newline x = true) s.
Proof.
  intros H. apply Forall_forall. intros x Hx. unfold not_newline.
  apply negb_true_iff, bool_decide_eq_false. by intros ->.
Qed.

Lemma label_head l :
  lower_text l = permit_label → ∃ x l', l = x :: l' ∧ is_space x = false.
Proof.
  destruct l as [|x l']; [done|]. intros [= Hx _]. exists x, l'.
  split; [done|]. destruct (is_space x) eqn:Hs; [|done].
  rewrite (space_lower x Hs) in Hx. by rewrite Hx in Hs.
Qed.

Local Abbreviation tail_of g1 :=
  (star is_space;;
   lit_nocase (txt "Permit Reference Number/s:");; star is_space;;
   g2 ← plus not_newline; eol;; mret (g1, g2) : matcher (text * text)).

Lemma permit_inline_unfold cr :
  PERMIT_INLINE_RE (Cursor None cr)
  = lazy_run not_newline None cr ≫= (λ r, tail_of r.1 r.2).
Proof.
  rewrite <-(app_nil_r (lazy_run not_newline None cr ≫= _)). reflexivity.
Qed.


Lemma tail_of_intro g1 bf ws l b :
  Forall (λ x, is_space x = true) ws → lower_text l = permit_label →
  b ≠ [] → newline ∉ b →
  ∃ y, y ∈ tail_of g1 (Cursor bf (ws ++ l ++ b)).
Proof.
  intros Hws Hl Hb Hnl. eexists ((g1, b), _).
  apply in_mbind. eexists ws, _. split.
  { apply (star_run_intro_at is_space ws (l ++ b) bf Hws). }
  apply in_mbind. eexists l, _. split.
  { apply (lit_with_intro_at eq_nocase _ l b). by apply lower_nocase. }
  apply in_mbind. eexists [], _. split.
  { apply (star_run_intro_at is_space [] b). constructor. }
  apply in_mbind. eexists b, (Cursor (last b) []). split.
  { rewrite <-(app_nil_r b) at 3.
    apply plus_intro_at; [done|by apply not_newline_Forall]. }
  apply in_mbind. eexists (), _. split; [by left|]. by apply in_mret.
Qed.

Lemma tail_of_inv g1 g1' g2 c c' :
  ((g1', g2), c') ∈ tail_of g1 c →
  g1' = g1
  ∧ ∃ s1 l s2 tl,
      rest c = s1 ++ l ++ s2 ++ g2 ++ tl
      ∧ Forall (λ x, is_space x = true) s1 ∧ lower_text l = permit_label
      ∧ Forall (λ x, is_space x = true) s2 ∧ g2 ≠ []
      ∧ Forall (λ x, is_space x = true) tl.
Proof.
  intros H.
  apply in_mbind in H as (s1 & c1 & H1 & H).
  apply in_mbind in H as (l & c2 & H2 & H).
  apply in_mbind in H as (s2 & c3 & H3 & H).
  apply in_mbind in H as (g & c4 & H4 & H).
  apply in_mbind in H as (u & c5 & H5 & H).
  apply in_mret in H as [[= -> ->] ->].
  apply in_star in H1 as [Hs1 Hr1]. apply in_lit_with in H2 as [Hl Hr2].
  apply in_star in H3 as [Hs3 Hr3]. apply in_plus in H4 as (Hg & _ & Hr4).
  apply in_eol in H5 as [-> Hr5].
  split; [done|]. exists s1, l, s2, (rest c4). split_and!; try done.
  - by rewrite Hr1, Hr2, Hr3, Hr4.
  - by rewrite (nocase_lower _ _ Hl).
  - destruct Hr5 as [->| ->]; [done|]. by repeat constructor.
Qed.

(** When the label stands in the file reference with text after it, the
    pattern splits the reference at the leftmost such label. *)
Lemma permit_inline_found cr a b :
  newline ∉ cr → inline_permit cr a b →
  ∃ p g1 g2, search PERMIT_INLINE_RE cr = Some (p, (g1, g2))
             ∧ _clean g1 = _clean a ∧ _clean g2 = _clean b.
Proof.
  intros Hnl (l & Hcr & Hl & Hb & Hleft).
  destruct (rstrip_split a) as (ws & Ha & Hws & _).
  set (a0 := rstrip a) in *.
  assert (cr = a0 ++ ws ++ l ++ b) as Hcr0.
  { rewrite Hcr, Ha at 1. by rewrite <-app_assoc. }
  assert (Forall (λ x, not_newline x = true) a0) as Ha0.
  { apply not_newline_Forall. intros Hin. apply Hnl. rewrite Hcr0.
    apply elem_of_app. by left. }
  assert (newline ∉ b) as Hnlb.
  { intros Hin. apply Hnl. rewrite Hcr. rewrite !elem_of_app. auto. }
  assert (lazy_run not_newline None cr !! length a0
          = Some (a0, Cursor (match last a0 with Some x => Some x
                                            | None => None end)
                             (ws ++ l ++ b))) as Hlook.
  { rewrite lazy_run_lookup.
    - by rewrite Hcr0, take_app_length, drop_app_length.
    - rewrite Hcr0, length_app. lia.
    - by rewrite Hcr0, take_app_length. }
  destruct (tail_of_intro a0 (match last a0 with Some x => Some x
                                            | None => None end)
              ws l b Hws Hl Hb Hnlb) as [y Hy].
  assert (y ∈ PERMIT_INLINE_RE (cursor_at cr 0)) as Hin.
  { unfold cursor_at. rewrite take_0, drop_0. simpl last.
    rewrite permit_inline_unfold. apply list_elem_of_bind.
    eexists (a0, _). split; [exact Hy|].
    by apply list_elem_of_lookup_2 in Hlook. }
  pose proof (search_spec PERMIT_INLINE_RE cr) as Hs.
  destruct (search PERMIT_INLINE_RE cr) as [[p [g1 g2]]|]; cycle 1.
  { rewrite (Hs 0) in Hin by lia. by apply elem_of_nil in Hin. }
  destruct Hs as (_ & (c' & Hh) & Hlt).
  assert (p = 0) as ->.
  { destruct p as [|p]; [done|]. rewrite (Hlt 0) in Hin by lia.
    by apply elem_of_nil in Hin. }
  exists 0, g1, g2. split; [done|].
  unfold cursor_at in Hh. rewrite take_0, drop_0 in Hh. simpl last in Hh.
  rewrite permit_inline_unfold in Hh.
  apply head_bind_Some in Hh as (pre & [t ct] & post & Hrun & Hpre & Hh).
  change (head (tail_of t ct) = Some ((g1, g2), c')) in Hh.
  assert (lazy_run not_newline None cr !! length pre = Some (t, ct)) as Ht.
  { rewrite Hrun. by apply list_lookup_middle. }
  apply lazy_run_lookup_inv in Ht as (Ht & Hlen & Hrest).
  assert (((g1, g2), c') ∈ tail_of t ct) as Hmem.
  { revert Hh. generalize (tail_of t ct). intros [|z zs]; [done|].
    simpl. intros [= ->]. left. }
  apply tail_of_inv in Hmem
    as (-> & s1 & l' & s2 & tl & Hr & Hs1 & Hl' & Hs2 & Hg2 & Htl).
  assert (length pre ≤ length a0) as Hle.
  { destruct (decide (length a0 < length pre)) as [Hlt'|]; [|lia].
    rewrite Hrun, lookup_app_l in Hlook by done.
    rewrite Forall_lookup in Hpre. specialize (Hpre _ _ Hlook).
    cbv beta in Hpre. cbn [fst snd] in Hpre.
    rewrite Hpre in Hy. by apply elem_of_nil in Hy. }
  assert (cr = (t ++ s1) ++ l' ++ (s2 ++ g2 ++ tl)) as Hcr'.
  { rewrite <-(take_drop (length pre) cr) at 1. rewrite <-Ht, <-Hrest, Hr.
    by rewrite <-!app_assoc. }
  assert (length a ≤ length (t ++ s1)) as Hge.
  { apply (Hleft _ l' (s2 ++ g2 ++ tl) Hcr' Hl').
    intros Hnil. apply app_eq_nil in Hnil as [_ Hnil].
    by apply app_eq_nil in Hnil as [? _]. }
  assert (length a0 ≤ length a) as Hle2.
  { pose proof (f_equal length Ha) as Hla. rewrite length_app in Hla. lia. }
  assert (length a = length (t ++ s1)) as Hlen_eq.
  { destruct (decide (length a < length (t ++ s1))) as [Hlt'|]; [|lia].
    exfalso. destruct (label_head l Hl) as (x & l0 & -> & Hx).
    assert (cr !! length a = Some x) as H1.
    { rewrite Hcr. simpl. by apply list_lookup_middle. }
    rewrite Hcr', <-app_assoc in H1. rewrite length_app in Hlt'.
    rewrite lookup_app_r in H1 by lia.
    rewrite lookup_app_l in H1 by lia.
    rewrite Forall_lookup in Hs1. specialize (Hs1 _ _ H1). simpl in Hs1.
    congruence. }
  rewrite Hcr in Hcr'. apply app_inj_1 in Hcr' as [Ha' Hlb]; [|done].
  apply app_inj_1 in Hlb as [_ Hb'].
  2:{ apply (f_equal length) in Hl, Hl'. unfold lower_text in Hl, Hl'.
      rewrite length_map in Hl, Hl'. congruence. }
  split.
  - rewrite Ha'. by rewrite clean_app_spaces.
  - rewrite Hb'. rewrite clean_spaces_app by done.
    by rewrite clean_app_spaces.
Qed.

(** What the pattern finds is the label with text after it. *)
Lemma permit_inline_sound cr p g1 g2 :
  search PERMIT_INLINE_RE cr = Some (p, (g1, g2)) →
  ∃ a l b, cr = a ++ l ++ b ∧ lower_text l = permit_label ∧ b ≠ [].
Proof.
  intros (Hp & bf & c' & H)%search_Some. unfold PERMIT_INLINE_RE in H.
  apply in_mbind in H as (u & c1 & Hbol & H).
  apply in_mbind in H as (t & c2 & Ht & H).
  assert (c1 = Cursor bf (drop p cr)) as ->.
  { unfold bol in Hbol. simpl in Hbol. destruct bf; [by apply elem_of_nil in Hbol|].
    apply list_elem_of_singleton in Hbol. by injection Hbol as _ ->. }
  apply in_lazy_run in Ht. simpl in Ht.
  apply tail_of_inv in H as (_ & s1 & l & s2 & tl & Hr & _ & Hl & _ & Hg & _).
  exists (take p cr ++ t ++ s1), l, (s2 ++ g2 ++ tl). split_and!; [|done|].
  - rewrite <-(take_drop p cr) at 1. rewrite Ht, Hr.
    by rewrite <-!app_assoc.
  - intros Hnil. apply app_eq_nil in Hnil as [_ Hnil].
    by apply app_eq_nil in Hnil as [? _].
Qed.

End permit_inline.

(** X11 — the details of the HTML page when the marker is found.  The
    result holds exactly the seven keys of the header fields.  A field
    read from one label is the value filed under that label, and the empty
    text when the table has no such label.  The permit reference is read
    from the label with the slash and, when that gives nothing, from the
    label without it; when one of them gives a value, the file reference
    and the permit reference are the values filed.  When neither gives a
    value and the file reference holds the label of the permit reference
    (in any case) with text after it, the file reference is split at the
    leftmost such label: the cleaned text before it is the file reference
    and the cleaned text after it is the permit reference.  Otherwise the
    file reference is the value filed and the permit reference is
    empty. *)
Theorem X11_bcc_application_details_fields :
  (∀ (t : option Bcc.table) (drawings : option (option Bcc.table))
     (bs : list Bcc.bold),
     let raw := Bcc._parse_2col_table t in
     let d := Bcc._parse_application_details (Bcc.Soup (Some t) drawings bs) in
     let cr := default [] (raw !! txt "Council File Reference") in
     let pr :=
       if bool_decide (default [] (raw !! txt "Permit Reference Number/s") = [])
       then default [] (raw !! txt "Permit Reference Numbers")
       else default [] (raw !! txt "Permit Reference Number/s") in
     dom d = list_to_set Spec.header_fields
     ∧ d !! "addressOfSite" = Some (default [] (raw !! txt "Address of Site"))
     ∧ d !! "realPropertyDescriptionOfSite"
       = Some (default [] (raw !! txt "Real Property Description of Site"))
     ∧ d !! "aspectsOfDevelopmentAndTypeOfApproval"
       = Some (default []
                 (raw !! txt "Aspects of development and type of approval"))
     ∧ d !! "packageStatus" = Some (default [] (raw !! txt "Package Status"))
     ∧ d !! "packageGenerated"
       = Some (default [] (raw !! txt "Package Generated"))
     ∧ (pr ≠ [] →
        d !! "councilFileReference" = Some cr
        ∧ d !! "permitReferenceNumbers" = Some pr)
     ∧ (pr = [] → ∀ a b, inline_permit cr a b →
        d !! "councilFileReference" = Some (_clean a)
        ∧ d !! "permitReferenceNumbers" = Some (_clean b))
     ∧ (pr = [] →
        (∀ a l b, cr = a ++ l ++ b → lower_text l = permit_label → b = []) →
        d !! "councilFileReference" = Some cr
        ∧ d !! "permitReferenceNumbers" = Some []))
  ∧ (let d := Bcc._parse_application_details
                (Bcc.Soup
                   (Some (Some [[ txt "Council File Reference:";
                                  txt "A00123 Permit Reference Number/s: P-1, P-2" ]]))
                   None []) in
     d !! "councilFileReference" = Some (txt "A00123")
     ∧ d !! "permitReferenceNumbers" = Some (txt "P-1, P-2")).
Proof.
  split; [|cbv zeta; split; vm_compute; reflexivity].
  intros t drawings bs raw d cr pr. subst d.
  unfold Bcc._parse_application_details.
  cbn [Bcc.application_details_marker]. fold raw.
  rewrite !get_one, get_two. fold cr. fold pr.
  set (fixed := if _ : bool then _ else _).
  assert (newline ∉ cr) as Hnl.
  { subst cr raw.
    destruct (parse_2col_value_clean t (txt "Council File Reference"))
      as [s ->]. apply clean_no_newline. }
  split_and!.
  - cbn [list_to_map foldr fst snd]. rewrite !dom_insert_L, dom_empty_L.
    unfold Spec.header_fields. cbn [list_to_set foldr]. set_solver.
  - reflexivity.
  - reflexivity.
  - reflexivity.
  - reflexivity.
  - reflexivity.
  - intros Hp.
    assert (fixed = (cr, pr)) as Hf.
    { subst fixed. by rewrite (bool_decide_eq_false_2 _ Hp), andb_false_r. }
    split.
    + change (Some fixed.1 = Some cr). by rewrite Hf.
    + change (Some fixed.2 = Some pr). by rewrite Hf.
  - intros Hp a b Hin.
    assert (fixed = (_clean a, _clean b)) as Hf.
    { subst fixed.
      destruct (permit_inline_found cr a b Hnl Hin)
        as (p & g1 & g2 & -> & <- & <-).
      destruct Hin as (l & Hcr & Hl & Hb & _).
      rewrite (bool_decide_eq_true_2 _ Hp), andb_true_r.
      rewrite bool_decide_eq_false_2; cycle 1.
      { rewrite Hcr. intros Hnil. apply app_eq_nil in Hnil as [_ Hnil].
        by apply app_eq_nil in Hnil as [_ ?]. }
      rewrite Hcr, !lower_text_app, Hl.
      change permit_label with (txt "permit reference" ++ txt " number/s:").
      rewrite <-app_assoc, contains_sub_intro. done. }
    split.
    + change (Some fixed.1 = Some (_clean a)). by rewrite Hf.
    + change (Some fixed.2 = Some (_clean b)). by rewrite Hf.
  - intros Hp Hnone.
    assert (fixed = (cr, [])) as Hf.
    { subst fixed. rewrite Hp.
      destruct (_ && _ && _); [|done].
      destruct (Re.search Bcc.PERMIT_INLINE_RE cr) as [[p [g1 g2]]|] eqn:Hs;
        [|done].
      apply permit_inline_sound in Hs as (a & l & b & Hcr & Hl & Hb).
      by destruct (Hb (Hnone _ _ _ Hcr Hl)). }
    split.
    + change (Some fixed.1 = Some cr). by rewrite Hf.
    + change (Some fixed.2 = Some []). by rewrite Hf.
Qed.

Lemma X11_witness :
  inline_permit (txt "A00123 Permit Reference Number/s: P-1, P-2")
                (txt "A00123 ") (txt " P-1, P-2")
  ∧ (let d := Bcc._parse_application_details
                (Bcc.Soup
                   (Some (Some [[ txt "Council File Reference:";
                                  txt "A00123 Permit Reference Number/s: P-1, P-2" ]]))
                   None []) in
     d !! "councilFileReference" = Some (_clean (txt "A00123 "))
     ∧ d !! "permitReferenceNumbers" = Some (_clean (txt " P-1, P-2"))).
Proof.
  assert (inline_permit (txt "A00123 Permit Reference Number/s: P-1, P-2")
            (txt "A00123 ") (txt " P-1, P-2")) as Hin.
  { exists (txt "Permit Reference Number/s:").
    split; [reflexivity|]. split; [vm_compute; reflexivity|].
    split; [discriminate|].
    intros a' l' b' Heq Hl' _.
    destruct (label_head l' Hl') as (x & l0 & -> & _).
    do 7 (destruct a' as [|? a'];
          [exfalso; vm_compute in Heq; simplify_eq;
           vm_compute in Hl'; discriminate Hl'|]).
    simpl. lia. }
  split; [exact Hin|].
  pose proof (proj1 X11_bcc_application_details_fields
                (Some [[ txt "Council File Reference:";
                         txt "A00123 Permit Reference Number/s: P-1, P-2" ]])
                None []) as H.
  cbv zeta in H.
  destruct H as (_ & _ & _ & _ & _ & _ & _ & H & _).
  assert (default []
            (Bcc._parse_2col_table
               (Some [[ txt "Council File Reference:";
                        txt "A00123 Permit Reference Number/s: P-1, P-2" ]])
             !! txt "Council File Reference")
          = txt "A00123 Permit Reference Number/s: P-1, P-2") as Hcr
    by (vm_compute; reflexivity).
  rewrite Hcr in H. apply H; [vm_compute; reflexivity|exact Hin].
Defined.
